(** * Tree.h: the N-ary tree container, its id index and its text format

    A shallow embedding of [Tree<T>] and [Node<T>] (src/Tree.h).

    - The owning structure ([std::unique_ptr] root, [std::vector] of
      [std::unique_ptr] children) is an inductive rose tree.
    - The non-owning raw pointers ([Node::parent], the values of
      [nodeMap]) are addresses: every node carries the address it was
      allocated at, and following a raw pointer is a search for that address
      in the owned structure ([deref]); writing through one is [modify].
    - [int] is [Z]; signed overflow of [nextID] and of the line counters is
      undefined in C++ and is not part of the model.
    - A member function that mutates the tree is a function
      [Tree -> Tree * outcome A]: the tree after the call and what the call
      returned or threw. *)

From Stdlib Require Import ZArith Ascii String Decimal DecimalString.
From stdpp Require Import base option list gmap strings.

Local Open Scope Z_scope.

(** ** Exceptions and outcomes *)

(** The exceptions Tree.h throws, one constructor per kind of error.
    [AlreadyHasRoot] is the [std::logic_error] of [setRoot]; the others are
    [std::invalid_argument]s.  [NodeNotFound] ("... with ID n does not
    exist") carries the id that the message prints; [UnbalancedMarkers] is
    thrown for too many and for too few end-of-children tokens. *)
Inductive exn : Type :=
  | AlreadyHasRoot
  | NodeNotFound (id : Z)
  | CannotRemoveRoot
  | MalformedLine
  | UnparsablePayload
  | UnbalancedMarkers
  | IncompatiblePayloadType.

(** What a call does: return, throw, or run into undefined behaviour (a
    dangling raw pointer, [top()] of an empty [std::stack]). *)
Inductive outcome (A : Type) : Type :=
  | Ok (a : A)
  | Throw (e : exn)
  | Undefined.
Arguments Ok {A} a.
Arguments Throw {A} e.
Arguments Undefined {A}.

(** ** The payload type [T] *)

(** What Tree.h asks of [T] (the [static_assert]s of [Tree]): a default
    constructor, [operator<<], [operator>>] and [operator==].
    [T_extract text old] is [stream >> x] for a stream holding [text] and a
    variable [x] holding [old]: the value of [x] afterwards and whether the
    stream is still good.  [T_whole_line] is [Some] exactly for
    [T = std::string], the type [deserialize] singles out with
    [std::is_same], and then converts a line remainder to [T]. *)
Class Payload (T : Type) : Type := {
  T_default : T;
  T_insert : T -> string;
  T_extract : string -> T -> T * bool;
  T_equal : T -> T -> bool;
  T_whole_line : option (string -> T)
}.

(** Addresses of heap-allocated nodes. *)
Definition ptr : Type := nat.

(** ** Text: what the model needs of [std::string] and the streams *)

Definition newline : ascii := ascii_of_nat 10.
Definition endl : string := String newline EmptyString.

(** [os << n] for an [int]. *)
Definition print_int (n : Z) : string := NilZero.string_of_int (Z.to_int n).

(** [s.find(needle)], [None] for [npos]; [s.substr(pos)]. *)
Fixpoint find (needle s : string) : option nat :=
  if String.prefix needle s then Some O
  else match s with
       | EmptyString => None
       | String _ s' => S <$> find needle s'
       end.

Fixpoint substr (pos : nat) (s : string) : string :=
  match pos, s with
  | O, _ => s
  | S pos', String _ s' => substr pos' s'
  | S _, EmptyString => EmptyString
  end.

(** The lines [while (std::getline(ss, line))] reads: split at newlines; a
    last line without newline counts when it is not empty. [cur] is the
    line read so far. *)
Fixpoint getlines (cur : string) (s : string) : list string :=
  match s with
  | EmptyString => match cur with EmptyString => [] | _ => [cur] end
  | String c s' =>
      if Ascii.eqb c newline then cur :: getlines EmptyString s'
      else getlines (cur +:+ String c EmptyString) s'
  end.

(** A text that is one line: no newline in it. *)
Definition single_line (s : string) : Prop :=
  newline ∉ list_ascii_of_string s.

Ltac no_newline :=
  unfold single_line; simpl; intros Hin;
  repeat (apply elem_of_cons in Hin as [Hin|Hin]; [by vm_compute in Hin|]);
  by apply elem_of_nil in Hin.

(** ** Payload types and an allocator to run the model on *)

(** [std::string]: [operator>>] skips white space and reads up to the next
    white space; with nothing to read it fails and leaves the variable as
    it was. *)
Definition isspace (c : ascii) : bool :=
  let n := nat_of_ascii c in
  (Nat.eqb n 32 || (Nat.leb 9 n && Nat.leb n 13))%bool.

Fixpoint skipws (s : string) : string :=
  match s with
  | String c s' => if isspace c then skipws s' else s
  | EmptyString => EmptyString
  end.

Fixpoint read_word (s : string) : string :=
  match s with
  | String c s' => if isspace c then EmptyString else String c (read_word s')
  | EmptyString => EmptyString
  end.

Definition string_extract (text old : string) : string * bool :=
  match read_word (skipws text) with
  | EmptyString => (old, false)
  | w => (w, true)
  end.

#[export] Instance std_string : Payload string := {
  T_default := EmptyString;
  T_insert := fun s => s;
  T_extract := string_extract;
  T_equal := String.eqb;
  T_whole_line := Some (fun s => s)
}.

(** A payload type of two values whose text for [true] takes two lines;
    its [operator>>] reads the whole text back. *)
Definition two_line_insert (b : bool) : string :=
  if b then "1" +:+ endl +:+ "1" else "0".

Definition two_line_extract (text : string) (old : bool) : bool * bool :=
  if String.eqb text "0" then (false, true)
  else if String.eqb text ("1" +:+ endl +:+ "1") then (true, true)
  else (old, false).

#[export] Instance two_line_flag : Payload bool := {
  T_default := false;
  T_insert := two_line_insert;
  T_extract := two_line_extract;
  T_equal := Bool.eqb;
  T_whole_line := None
}.

(** An allocator: one past the largest live address. *)
Definition bump (live : list ptr) : ptr := S (foldr Nat.max O live).

(** ** [int] *)

(** The bounds of a 32-bit [int], and [static_cast<int>] of a number that
    may not fit. *)
Definition INT_MAX : Z := 2147483647.
Definition INT_MIN : Z := -2147483648.
Definition to_int (z : Z) : Z := (z + 2147483648) mod 4294967296 - 2147483648.

(** ** StoryNode.h and StoryNode.cpp: the payload type of the game *)

Module Story.

Record StoryNode : Type := mkStoryNode { action : string; outcome : string }.

(** The default member initializers. *)
Definition StoryNode_default : StoryNode := mkStoryNode " " " ".

(** [operator==]. *)
Definition equal (a b : StoryNode) : bool :=
  (String.eqb (action a) (action b) && String.eqb (outcome a) (outcome b))%bool.

Definition quote : ascii := ascii_of_nat 34.
Definition space : ascii := ascii_of_nat 32.

(** The string literals of StoryNode.cpp: the double quote, [action: ]
    and [outcome: ] followed by a double quote. *)
Definition quote_str : string := String quote EmptyString.
Definition action_key : string := "action: " +:+ quote_str.
Definition outcome_key : string := "outcome: " +:+ quote_str.

(** [operator<<]. *)
Definition insert (sn : StoryNode) : string :=
  action_key +:+ action sn +:+ (quote_str +:+ " " +:+ outcome_key)
             +:+ outcome sn +:+ quote_str.

(** [size_t] is 64 bits wide: [npos], and the wrap-around of its
    arithmetic. *)
Definition npos : Z := 2 ^ 64 - 1.
Definition size_t (z : Z) : Z := z mod 2 ^ 64.
Definition size (s : string) : Z := Z.of_nat (String.length s).

(** [s.find(needle, pos)], for a needle that is not empty. *)
Definition find_from (needle s : string) (pos : Z) : Z :=
  if size s <? pos then npos
  else match find needle (substr (Z.to_nat pos) s) with
       | Some k => pos + Z.of_nat k
       | None => npos
       end.

(** The first [n] characters, or all of them. *)
Fixpoint prefix_of (n : nat) (s : string) : string :=
  match n, s with
  | S n', String c s' => String c (prefix_of n' s')
  | _, _ => EmptyString
  end.

(** [s.substr(pos, n)]; [None] is the [std::out_of_range] it throws
    when [pos > size()]. *)
Definition substr_n (s : string) (pos n : Z) : option string :=
  if size s <? pos then None
  else Some (prefix_of (Z.to_nat (Z.min n (size s - pos)))
                       (substr (Z.to_nat pos) s)).

(** [std::getline(is, buffer)] on a stream that holds [text]: the
    characters before the first newline. *)
Fixpoint first_line (text : string) : string :=
  match text with
  | EmptyString => EmptyString
  | String c rest =>
      if Ascii.eqb c newline then EmptyString else String c (first_line rest)
  end.

(** [if (!buffer.empty() && buffer.back() == ' ') buffer.pop_back();] *)
Fixpoint pop_back_space (buffer : string) : string :=
  match buffer with
  | EmptyString => EmptyString
  | String c EmptyString =>
      if Ascii.eqb c space then EmptyString else buffer
  | String c rest => String c (pop_back_space rest)
  end.

(** What [operator>>] does: it stores a node, or [substr] throws. *)
Inductive extraction : Type :=
  | Extracted (sn : StoryNode)
  | OutOfRange.

(** The body of [operator>>] after the line is read: the two fields are
    cut out of [buffer] at the positions that [find] returns, in [size_t]
    arithmetic. *)
Definition parse_buffer (buffer : string) : extraction :=
  let actionPos := find_from action_key buffer 0 in
  let actionEnd := find_from quote_str buffer (size_t (actionPos + 9)) in
  match substr_n buffer (size_t (actionPos + 9))
                 (size_t (actionEnd - size_t (actionPos + 9))) with
  | None => OutOfRange
  | Some a =>
      let outcomePos := find_from outcome_key buffer actionEnd in
      let outcomeEnd := find_from quote_str buffer (size_t (outcomePos + 10)) in
      match substr_n buffer (size_t (outcomePos + 10))
                     (size_t (outcomeEnd - size_t (outcomePos + 10))) with
      | None => OutOfRange
      | Some o => Extracted (mkStoryNode a o)
      end
  end.

(** [is >> sn] for a stream that holds [text]. *)
Definition extract (text : string) : extraction :=
  parse_buffer (pop_back_space (first_line text)).

End Story.

Section TreeModel.

Context {T : Type} `{Payload T}.

(** [new Node<T>(...)]: the allocator gives an address that no live node
    has.  Nothing else is assumed about it. *)
Variable new_Node_addr : list ptr -> ptr.

(** ** Node and Tree *)

(** [class Node]: [value], [parent], [children], [ID]; [addr] is the
    address of the object itself. *)
#[local] Unset Elimination Schemes.
Inductive Node : Type :=
  mkNode { value : T;
           parent : option ptr;
           children : list Node;
           ID : Z;
           addr : ptr }.
#[local] Set Elimination Schemes.

(** [class Tree]: [root], [nodeMap], [nextID]. *)
Record Tree : Type :=
  mkTree { root : option Node;
           nodeMap : gmap Z ptr;
           nextID : Z }.

(** The constructor [Node(T value, Node* parent)] run by [new] at address
    [a]. It leaves [ID] unset; every caller passes the node to [assignIDs]
    before anything reads it, the 0 here is never observed. *)
Definition Node_new (a : ptr) (v : T) (par : option ptr) : Node :=
  mkNode v par [] 0 a.

(** *** Raw pointers into the owned structure *)

(** All nodes of a subtree, a node before its children, children left to
    right. *)
Fixpoint preorder (n : Node) : list Node :=
  match n with
  | mkNode _ _ cs _ _ => n :: (cs ≫= preorder)
  end.

(** The nodes reachable from [root]. *)
Definition nodes (t : Tree) : list Node :=
  match root t with
  | Some r => preorder r
  | None => []
  end.

(** [*p] for a raw pointer [p] into the subtree owned by [n]. *)
Fixpoint deref (p : ptr) (n : Node) : option Node :=
  match n with
  | mkNode _ _ cs _ a =>
      if decide (a = p) then Some n
      else (fix first (l : list Node) : option Node :=
              match l with
              | [] => None
              | c :: l' => match deref p c with
                           | Some m => Some m
                           | None => first l'
                           end
              end) cs
  end.

(** A write through the raw pointer [p]: the node at [p] becomes [f] of
    itself. *)
Fixpoint modify (p : ptr) (f : Node -> Node) (n : Node) : Node :=
  match n with
  | mkNode v par cs i a =>
      if decide (a = p) then f n
      else mkNode v par (modify p f <$> cs) i a
  end.

Definition tree_deref (t : Tree) (p : ptr) : option Node :=
  root t ≫= deref p.

(** [children.push_back(c)] and the [erase(remove_if(...))] of
    [removeNode], on one node. *)
Definition push_back (c : Node) (n : Node) : Node :=
  mkNode (value n) (parent n) (children n ++ [c]) (ID n) (addr n).

Definition erase_child (p : ptr) (n : Node) : Node :=
  mkNode (value n) (parent n)
         (filter (fun c => addr c ≠ p) (children n)) (ID n) (addr n).

(** ** Private members *)

(** [assignIDs(node)]: numbers the subtree at [node] in pre-order from
    [nextID] and records every node in [nodeMap]. The state threaded
    through is [(nodeMap, nextID)]. [nextID++] is [+ 1] on [Z]: this is
    what the code does while [nextID] is below [INT_MAX]; the increment
    at [INT_MAX] is a signed overflow, which C++ leaves undefined. *)
Fixpoint assignIDs (n : Node) (st : gmap Z ptr * Z) : Node * (gmap Z ptr * Z) :=
  match n with
  | mkNode v par cs _ a =>
      let id := st.2 in
      let st1 := (<[id := a]> st.1, id + 1) in
      let r := (fix each (l : list Node) (s : gmap Z ptr * Z) :=
                  match l with
                  | [] => ([], s)
                  | c :: l' =>
                      let r1 := assignIDs c s in
                      let r2 := each l' r1.2 in
                      (r1.1 :: r2.1, r2.2)
                  end) cs st1 in
      (mkNode v par r.1 id a, r.2)
  end.

(** [T_compatible_check()]: [true] when it returns, [false] when it
    throws. *)
Definition T_compatible_check : bool :=
  let testT := T_default in
  let testStream := T_insert testT in
  let testT2 := (T_extract testStream T_default).1 in
  T_equal testT testT2.

(** ** Public members *)

(** [Tree()]. *)
Definition Tree_new : outcome Tree :=
  if T_compatible_check then Ok (mkTree None ∅ 0)
  else Throw IncompatiblePayloadType.

Definition getRootID (t : Tree) : Z :=
  match root t with
  | Some r => ID r
  | None => -1
  end.

(** The addresses in use when [new] is called. *)
Definition live (t : Tree) : list ptr := addr <$> nodes t.

Definition setRoot (v : T) (t : Tree) : Tree * outcome Z :=
  match root t with
  | Some _ => (t, Throw AlreadyHasRoot)
  | None =>
      let rootNode := Node_new (new_Node_addr (live t)) v None in
      let r := assignIDs rootNode (nodeMap t, nextID t) in
      (mkTree (Some r.1) r.2.1 r.2.2, Ok (ID r.1))
  end.

(** [Tree(const T&)] and [Tree(T&&)]: the check, then [setRoot] on the
    members' initial values. *)
Definition Tree_of_value (v : T) : outcome Tree :=
  if T_compatible_check then
    match setRoot v (mkTree None ∅ 0) with
    | (t, Ok _) => Ok t
    | (_, Throw e) => Throw e
    | (_, Undefined) => Undefined
    end
  else Throw IncompatiblePayloadType.

Definition Tree_of_rvalue (v : T) : outcome Tree :=
  if T_compatible_check then
    match setRoot v (mkTree None ∅ 0) with
    | (t, Ok _) => Ok t
    | (_, Throw e) => Throw e
    | (_, Undefined) => Undefined
    end
  else Throw IncompatiblePayloadType.

(** [appendNode]: the new child is built, numbered by [assignIDs] and
    pushed at the back of the parent's children. *)
Definition appendNode (parentID : Z) (v : T) (t : Tree) : Tree * outcome Z :=
  match nodeMap t !! parentID with
  | None => (t, Throw (NodeNotFound parentID))
  | Some parentNode =>
      match tree_deref t parentNode with
      | None => (t, Undefined)
      | Some _ =>
          let child := Node_new (new_Node_addr (live t)) v (Some parentNode) in
          let r := assignIDs child (nodeMap t, nextID t) in
          (mkTree (modify parentNode (push_back r.1) <$> root t) r.2.1 r.2.2,
           Ok (ID r.1))
      end
  end.

(** The lambda [cleanupSubtree] of [removeNode]: children first, then the
    node's own id. *)
Fixpoint cleanupSubtree (n : Node) (m : gmap Z ptr) : gmap Z ptr :=
  match n with
  | mkNode _ _ cs i _ =>
      delete i ((fix each (l : list Node) (m : gmap Z ptr) :=
                   match l with
                   | [] => m
                   | c :: l' => each l' (cleanupSubtree c m)
                   end) cs m)
  end.

Definition removeNode (nodeID : Z) (t : Tree) : Tree * outcome unit :=
  if decide (nodeID = getRootID t) then (t, Throw CannotRemoveRoot)
  else
    match nodeMap t !! nodeID with
    | None => (t, Throw (NodeNotFound nodeID))
    | Some p =>
        match tree_deref t p with
        | None => (t, Undefined)
        | Some nodeToRemove =>
            let m := cleanupSubtree nodeToRemove (nodeMap t) in
            match parent nodeToRemove with
            | None => (mkTree (root t) m (nextID t), Ok tt)
            | Some pp =>
                match tree_deref t pp with
                | None => (mkTree (root t) m (nextID t), Undefined)
                | Some _ =>
                    (mkTree (modify pp (erase_child p) <$> root t) m (nextID t),
                     Ok tt)
                end
            end
        end
    end.

Definition getChildrenIDs (nodeID : Z) (t : Tree) : outcome (list Z) :=
  match nodeMap t !! nodeID with
  | None => Throw (NodeNotFound nodeID)
  | Some p =>
      match tree_deref t p with
      | None => Undefined
      | Some n => Ok (ID <$> children n)
      end
  end.

Definition getValue (nodeID : Z) (t : Tree) : outcome T :=
  match nodeMap t !! nodeID with
  | None => Throw (NodeNotFound nodeID)
  | Some p =>
      match tree_deref t p with
      | None => Undefined
      | Some n => Ok (value n)
      end
  end.

(** [operator[]]. *)
Definition subscript (nodeID : Z) (t : Tree) : outcome T :=
  match nodeMap t !! nodeID with
  | None => Throw (NodeNotFound nodeID)
  | Some p =>
      match tree_deref t p with
      | None => Undefined
      | Some n => Ok (value n)
      end
  end.

(** *** Linearization *)

(** The [while (!stack.empty())] loop of [linearize]. The stack holds
    [const Node*], [None] being [nullptr]; its top is the head of the list.
    [fuel] bounds the number of iterations. *)
Definition push_children_reversed (cs : list Node) (stack : list (option Node))
  : list (option Node) :=
  fold_left (fun s c => Some c :: s) (rev cs) stack.

Fixpoint linearize_loop (fuel : nat) (stack : list (option Node))
    (linearized : list (option T)) : option (list (option T)) :=
  match stack with
  | [] => Some linearized
  | current :: stack' =>
      match fuel with
      | O => None
      | S fuel' =>
          match current with
          | Some n =>
              linearize_loop fuel'
                (push_children_reversed (children n) (None :: stack'))
                (linearized ++ [Some (value n)])
          | None => linearize_loop fuel' stack' (linearized ++ [None])
          end
      end
  end.

(** [linearize()]; two iterations per node are enough (see
    [linearize_total]). *)
Definition linearize (t : Tree) : option (list (option T)) :=
  linearize_loop (2 * length (nodes t))
    (match root t with Some r => [Some r] | None => [] end) [].

(** *** Serialization *)

(** One iteration of the loop of [serialize] on [(serialized, nodeCount)]. *)
Definition serialize_step (acc : string * Z) (optValue : option T) : string * Z :=
  match optValue with
  | Some v =>
      (acc.1 +:+ ("[" +:+ print_int acc.2 +:+ "]: " +:+ T_insert v +:+ endl),
       acc.2 + 1)
  | None => (acc.1 +:+ ("[X]" +:+ endl), acc.2)
  end.

Definition serialize (t : Tree) : option string :=
  linearized ← linearize t;
  Some (fold_left serialize_step linearized (EmptyString, 0)).1.

(** *** Delinearization *)

Fixpoint delinearize_loop (linearized : list (option T)) (tree : Tree)
    (parentIDs : list Z) : outcome Tree :=
  match linearized with
  | [] => Ok tree
  | Some v :: rest =>
      if decide (getRootID tree = -1) then
        match setRoot v tree with
        | (tree', Ok _) => delinearize_loop rest tree' (getRootID tree' :: parentIDs)
        | (_, Throw e) => Throw e
        | (_, Undefined) => Undefined
        end
      else
        match parentIDs with
        | [] => Undefined
        | top :: _ =>
            match appendNode top v tree with
            | (tree', Ok childID) => delinearize_loop rest tree' (childID :: parentIDs)
            | (_, Throw e) => Throw e
            | (_, Undefined) => Undefined
            end
        end
  | None :: rest =>
      match parentIDs with
      | [] => delinearize_loop rest tree []
      | _ :: parentIDs' => delinearize_loop rest tree parentIDs'
      end
  end.

Definition delinearize (linearized : list (option T)) : outcome Tree :=
  match Tree_new with
  | Ok tree => delinearize_loop linearized tree []
  | Throw e => Throw e
  | Undefined => Undefined
  end.

(** *** Deserialization *)

(** The locals of [deserialize] that the loop updates. *)
Record deser_state : Type :=
  mkDeser { linearized_of : list (option T);
            nodeCount : Z;
            eocTokenCount : Z }.

(** The [if constexpr] of [deserialize] on the text after ["]: "]: the
    whole text for [std::string], [valueStream >> value] on a
    default-constructed [value] for any other type; [None] when the stream
    failed. *)
Definition parse_value (valuePart : string) : option T :=
  match T_whole_line with
  | Some of_string => Some (of_string valuePart)
  | None =>
      let r := T_extract valuePart T_default in
      if r.2 then Some r.1 else None
  end.

(** One line of [deserialize]: the state after it, and the exception it
    threw, if any. *)
Definition deserialize_line (st : deser_state) (line : string)
  : deser_state * option exn :=
  if String.eqb line "[X]" then
    let st' := mkDeser (linearized_of st ++ [None]) (nodeCount st)
                       (eocTokenCount st + 1) in
    if decide (eocTokenCount st' > nodeCount st') then (st', Some UnbalancedMarkers)
    else (st', None)
  else
    match find "[" line, find "]: " line with
    | Some O, Some pos =>
        let valuePart := substr (pos + 3) line in
        match parse_value valuePart with
        | Some v =>
            (mkDeser (linearized_of st ++ [Some v])
                     (nodeCount st + 1) (eocTokenCount st), None)
        | None => (st, Some UnparsablePayload)
        end
    | _, _ => (st, Some MalformedLine)
    end.

(** The [try] block: the lines are taken in turn until one throws; after
    the last the two counters are compared. *)
Fixpoint deserialize_lines (lines : list string) (st : deser_state)
  : deser_state * option exn :=
  match lines with
  | [] =>
      if decide (nodeCount st ≠ eocTokenCount st) then (st, Some UnbalancedMarkers)
      else (st, None)
  | line :: rest =>
      match deserialize_line st line with
      | (st', Some e) => (st', Some e)
      | (st', None) => deserialize_lines rest st'
      end
  end.

(** [deserialize(serialized)]: the first component is the exception that
    the [catch] block printed to [std::cerr] (it is not rethrown), the
    second is what [return delinearize(linearized)] gave the caller. *)
Definition deserialize (serialized : string) : option exn * outcome Tree :=
  let r := deserialize_lines (getlines EmptyString serialized)
                             (mkDeser [] 0 0) in
  (r.2, delinearize (linearized_of r.1)).

(** ** Sequences of calls *)

(** The three mutating members, as a caller can issue them. A caller that
    catches the exception of a failed call goes on with the tree as the
    call left it. *)
Inductive op : Type :=
  | SetRoot (v : T)
  | AppendNode (parentID : Z) (v : T)
  | RemoveNode (nodeID : Z).

Definition run_op (t : Tree) (o : op) : Tree :=
  match o with
  | SetRoot v => (setRoot v t).1
  | AppendNode parentID v => (appendNode parentID v t).1
  | RemoveNode nodeID => (removeNode nodeID t).1
  end.

Definition run_ops (ops : list op) (t : Tree) : Tree := fold_left run_op ops t.

Definition insertion (o : op) : Prop :=
  match o with
  | RemoveNode _ => False
  | _ => True
  end.

(** ** Specifications to compare the code with *)

(** The linearized form, by recursion on the tree: the value, the
    children's forms left to right, the end-of-children token. *)
Fixpoint flatten (n : Node) : list (option T) :=
  match n with
  | mkNode v _ cs _ _ => Some v :: (cs ≫= flatten) ++ [None]
  end.

Definition tree_flatten (t : Tree) : list (option T) :=
  match root t with
  | Some r => flatten r
  | None => []
  end.

Definition count_values (l : list (option T)) : nat :=
  length (filter (fun e => is_Some e) l).

Definition count_markers (l : list (option T)) : nat :=
  length (filter (fun e => e = None) l).

(** The serialized form, line by line: a value line carries the number of
    value lines before it, a token is ["[X]"]. *)
Definition entry_line (k : Z) (e : option T) : string :=
  match e with
  | Some v => "[" +:+ print_int k +:+ "]: " +:+ T_insert v
  | None => "[X]"
  end.

Fixpoint document_lines (k : Z) (l : list (option T)) : list string :=
  match l with
  | [] => []
  | Some v :: l' => entry_line k (Some v) :: document_lines (k + 1) l'
  | None :: l' => entry_line k None :: document_lines k l'
  end.

Definition unlines (ls : list string) : string :=
  foldr (fun l acc => l +:+ endl +:+ acc) EmptyString ls.

(** A value whose text is one line that reads back as the value. *)
Definition faithful (v : T) : Prop :=
  single_line (T_insert v) ∧ parse_value (T_insert v) = Some v.

(** The difference [nodeCount - eocTokenCount] never goes below zero
    while [deserialize] reads the entries of [l], starting from [d]; and
    where it ends. *)
Fixpoint balanced (d : Z) (l : list (option T)) : Prop :=
  match l with
  | [] => True
  | Some _ :: l' => balanced (d + 1) l'
  | None :: l' => 1 ≤ d ∧ balanced (d - 1) l'
  end.

(** ** The invariant of the id index *)

(** Every child's [parent] is the address of the node that owns it;
    [par] is what the node itself should have. *)
Fixpoint parents_ok (par : option ptr) (n : Node) : bool :=
  match n with
  | mkNode _ par' cs _ a =>
      bool_decide (par' = par) && forallb (parents_ok (Some a)) cs
  end.

Definition index_entry (n : Node) : Z * ptr := (ID n, addr n).

Record Inv (t : Tree) : Prop := mkInv {
  inv_addr_nodup : NoDup (addr <$> nodes t);
  inv_id_nodup : NoDup (ID <$> nodes t);
  inv_index : forall i p, nodeMap t !! i = Some p <-> (i, p) ∈ index_entry <$> nodes t;
  inv_id_range : forall i, i ∈ ID <$> nodes t -> 0 ≤ i < nextID t;
  inv_next_nonneg : 0 ≤ nextID t;
  inv_parents : forall r, root t = Some r -> parents_ok None r = true
}.

(** ** One-hole contexts *)

(** A node seen from inside the tree: the node itself and, innermost
    first, its ancestors, each with the siblings to the left and to the
    right of the hole. *)
Record frame : Type :=
  mkFrame { f_value : T;
            f_parent : option ptr;
            f_left : list Node;
            f_right : list Node;
            f_ID : Z;
            f_addr : ptr }.

Definition frame_node (fr : frame) (cs : list Node) : Node :=
  mkNode (f_value fr) (f_parent fr) cs (f_ID fr) (f_addr fr).

Definition fill (fr : frame) (x : Node) : Node :=
  frame_node fr (f_left fr ++ x :: f_right fr).

Fixpoint plug (x : Node) (C : list frame) : Node :=
  match C with
  | [] => x
  | fr :: C' => plug (fill fr x) C'
  end.

(** The fields of a node other than its children. *)
Record header : Type :=
  mkHeader { h_value : T; h_parent : option ptr; h_ID : Z; h_addr : ptr }.

Definition head_of (n : Node) : header :=
  mkHeader (value n) (parent n) (ID n) (addr n).

Definition heads (n : Node) : list header := head_of <$> preorder n.

Definition frame_head (fr : frame) : header :=
  mkHeader (f_value fr) (f_parent fr) (f_ID fr) (f_addr fr).

(** The headers that come before and after the hole in pre-order. *)
Fixpoint ctx_pre (C : list frame) : list header :=
  match C with
  | [] => []
  | fr :: C' => ctx_pre C' ++ frame_head fr :: (f_left fr ≫= heads)
  end.

Fixpoint ctx_post (C : list frame) : list header :=
  match C with
  | [] => []
  | fr :: C' => (f_right fr ≫= heads) ++ ctx_post C'
  end.

Definition ctx_parent (par : option ptr) (C : list frame) : option ptr :=
  match C with
  | [] => par
  | fr :: _ => Some (f_addr fr)
  end.

(** A node with more children at the back, and the pair that fixes the
    shape of a tree when listed in pre-order: the value and the number of
    children. *)
Definition add_children (cs : list Node) (n : Node) : Node :=
  mkNode (value n) (parent n) (children n ++ cs) (ID n) (addr n).

Definition shape (n : Node) : T * nat := (value n, length (children n)).

(** The frame a node makes for a child appended at its back. *)
Definition frame_of (n : Node) : frame :=
  mkFrame (value n) (parent n) (children n) [] (ID n) (addr n).

(** What [delinearize] does with the linearized form of [n0] when the id
    on top of [parentIDs] is that of a node [x] of the tree built so far:
    it comes back to the same stack, having appended under [x] a subtree
    [c] of the shape of [n0], numbered in pre-order from [nextID]. *)
Definition grafts (n0 : Node) : Prop :=
  forall t x C rest,
    Inv t -> root t = Some (plug x C) ->
    exists t' c,
      delinearize_loop (flatten n0 ++ rest) t (ID x :: (f_ID <$> C)) =
      delinearize_loop rest t' (ID x :: (f_ID <$> C)) ∧
      Inv t' ∧ root t' = Some (plug (push_back c x) C) ∧
      shape <$> preorder c = shape <$> preorder n0 ∧
      ID <$> preorder c = seqZ (nextID t) (Z.of_nat (length (preorder n0))) ∧
      nextID t' = nextID t + Z.of_nat (length (preorder n0)).

(** What the accessors show of a node: its header and the ids of its
    children. *)
Definition view (n : Node) : header * list Z := (head_of n, ID <$> children n).

Definition views (n : Node) : list (header * list Z) := view <$> preorder n.

(** ** Measures for the loop of [linearize] *)

(** What a stack of [linearize] still has to emit, and the number of
    iterations it needs for that. *)
Definition stack_flatten (stack : list (option Node)) : list (option T) :=
  stack ≫= (fun e => match e with Some n => flatten n | None => [None] end).

Definition stack_cost (stack : list (option Node)) : nat :=
  sum_list_with (fun e => match e with
                          | Some n => (2 * length (preorder n))%nat
                          | None => 1%nat
                          end) stack.

(** ** More specifications *)

(** Whether [delinearize] meets a value when the root is set and
    [parentIDs] is empty, where it calls [top()] on the empty stack:
    [rooted] tells whether the root is set, [depth] is the size of
    [parentIDs]. *)
Fixpoint overruns (rooted : bool) (depth : nat) (l : list (option T)) : bool :=
  match l with
  | [] => false
  | Some _ :: l' =>
      if rooted then
        match depth with
        | O => true
        | S _ => overruns true (S depth) l'
        end
      else overruns true 1 l'
  | None :: l' => overruns rooted (pred depth) l'
  end.

(** A line that is neither an end-of-children token nor a value line for
    [deserialize]. *)
Definition malformed (line : string) : Prop :=
  String.eqb line "[X]" = false ∧
  (find "[" line ≠ Some O ∨ find "]: " line = None).

(** The ids and values of the nodes, in pre-order. *)
Definition items (t : Tree) : list (Z * T) :=
  (fun n => (ID n, value n)) <$> nodes t.

(** The root, when there is one, has id 0; without a root no id has been
    given out. *)
Definition root_first (t : Tree) : Prop :=
  match root t with
  | Some r => ID r = 0
  | None => nextID t = 0
  end.


(** What [assignIDs] leaves as it is in a node. *)
Definition skeleton (x : Node) : T * option ptr * ptr * nat :=
  (value x, parent x, addr x, length (children x)).

(** ** utils.cpp and main.cpp

    Both work on [Tree<StoryNode>]. They reach the values only through
    the members of the tree (and, to print, through two fields that play
    no part here), so they are given for any payload type. *)

(** What [std::cerr] gets: the line of utils.cpp, or the line that
    [deserialize] prints for an exception. *)
Inductive cerr_line : Type :=
  | UnableToOpenFile
  | Error (e : exn).

(** [saveStoryline(tree, filePath)]. [outFile] tells whether the
    [std::ofstream] opened; the result is what [std::cerr] got and the
    text written to the file, if any. *)
Definition saveStoryline (tree : Tree) (outFile : bool)
  : list cerr_line * option string :=
  if outFile then ([], serialize tree) else ([UnableToOpenFile], None).

(** [loadStoryline(filePath)]. [inFile] is the content of the file,
    [None] when the [std::ifstream] did not open. *)
Definition loadStoryline (inFile : option string)
  : list cerr_line * outcome Tree :=
  match inFile with
  | None => ([UnableToOpenFile], Tree_new)
  | Some content =>
      let story :=
        fold_left (fun story line => story +:+ (line +:+ endl))
                  (getlines EmptyString content) EmptyString in
      let r := deserialize story in
      (match r.1 with Some e => [Error e] | None => [] end, r.2)
  end.

(** How a run of the game ends: the story is over, an exception leaves
    [main], the behaviour is undefined, or the numbers given to
    [game_loop] are used up. *)
Inductive game_end : Type :=
  | EndOfStory
  | Terminated (e : exn)
  | UndefinedBehaviour
  | AwaitingInput.

(** The [for] loop that prints the actions: [storyTree[childrenIDs[i]]]
    for each child in turn. *)
Fixpoint show_actions (storyTree : Tree) (childrenIDs : list Z) : outcome unit :=
  match childrenIDs with
  | [] => Ok tt
  | c :: rest =>
      match subscript c storyTree with
      | Ok _ => show_actions storyTree rest
      | Throw e => Throw e
      | Undefined => Undefined
      end
  end.

(** The game loop of [main] on the numbers that the reads
    [std::cin >> choice] store in [choice] while the stream is good: the
    ids whose story was shown, in order, and how the run ends. When the
    numbers are used up the loop is at a read, [AwaitingInput]; what
    happens there depends on what the stream holds next, see [play]. What
    is printed is left out. *)
Fixpoint game_loop (storyTree : Tree) (currentNodeID : Z) (choices : list Z)
  : list Z * game_end :=
  match subscript currentNodeID storyTree with
  | Throw e => ([], Terminated e)
  | Undefined => ([], UndefinedBehaviour)
  | Ok _ =>
      match getChildrenIDs currentNodeID storyTree with
      | Throw e => ([currentNodeID], Terminated e)
      | Undefined => ([currentNodeID], UndefinedBehaviour)
      | Ok [] => ([currentNodeID], EndOfStory)
      | Ok childrenIDs =>
          match show_actions storyTree childrenIDs with
          | Throw e => ([currentNodeID], Terminated e)
          | Undefined => ([currentNodeID], UndefinedBehaviour)
          | Ok _ =>
              match choices with
              | [] => ([currentNodeID], AwaitingInput)
              | choice :: rest =>
                  if decide (choice < 1 ∨ choice > Z.of_nat (length childrenIDs))
                  then
                    let r := game_loop storyTree currentNodeID rest in
                    (currentNodeID :: r.1, r.2)
                  else
                    match childrenIDs !! Z.to_nat (choice - 1) with
                    | Some next =>
                        let r := game_loop storyTree next rest in
                        (currentNodeID :: r.1, r.2)
                    | None => ([currentNodeID], UndefinedBehaviour)
                    end
              end
          end
      end
  end.

(** What a read [std::cin >> choice] finds on standard input after the
    white space: a decimal number, of any size, or something that is not
    a number. *)
Inductive cin_token : Type :=
  | Number (n : Z)
  | NotANumber.

(** [std::cin >> choice] on a good stream that holds [tok] next: the
    value stored in [choice] and whether the stream is still good. A
    number that does not fit an [int] stores the nearest bound and sets
    [failbit]; what is not a number stores 0 and sets [failbit] (the
    rules of C++11 and later). *)
Definition extract_int (tok : cin_token) : Z * bool :=
  match tok with
  | Number n =>
      if decide (n < INT_MIN) then (INT_MIN, false)
      else if decide (INT_MAX < n) then (INT_MAX, false)
      else (n, true)
  | NotANumber => (0, false)
  end.

(** The loop body up to the prompt: the story of the node is shown, then
    the actions of its children. The result is what was shown and either
    how the run ends there or the [childrenIDs] to choose from. *)
Definition show_node (storyTree : Tree) (currentNodeID : Z)
  : list Z * (game_end + list Z) :=
  match subscript currentNodeID storyTree with
  | Throw e => ([], inl (Terminated e))
  | Undefined => ([], inl UndefinedBehaviour)
  | Ok _ =>
      match getChildrenIDs currentNodeID storyTree with
      | Throw e => ([currentNodeID], inl (Terminated e))
      | Undefined => ([currentNodeID], inl UndefinedBehaviour)
      | Ok [] => ([currentNodeID], inl EndOfStory)
      | Ok childrenIDs =>
          match show_actions storyTree childrenIDs with
          | Throw e => ([currentNodeID], inl (Terminated e))
          | Undefined => ([currentNodeID], inl UndefinedBehaviour)
          | Ok _ => ([currentNodeID], inr childrenIDs)
          end
      end
  end.

(** The loop body after the read: the node to go on with. An invalid
    [choice] keeps the node ([continue]); [None] is an index outside
    [childrenIDs]. *)
Definition chosen (childrenIDs : list Z) (currentNodeID choice : Z) : option Z :=
  if decide (choice < 1 ∨ choice > to_int (Z.of_nat (length childrenIDs)))
  then Some currentNodeID
  else childrenIDs !! Z.to_nat (choice - 1).

(** A pass through the loop when the stream has failed or is at its end:
    the read stores nothing, and [choice], which is declared without a
    value in every pass, is then read uninitialised. *)
Definition last_pass (storyTree : Tree) (currentNodeID : Z) : list Z * game_end :=
  match show_node storyTree currentNodeID with
  | (shown, inl e) => (shown, e)
  | (shown, inr _) => (shown, UndefinedBehaviour)
  end.

(** The game loop of [main] on all of standard input, [stdin] being what
    the reads find there one after the other until the input ends.
    [failbit] is never cleared: after a read that fails, the next pass is
    the last. *)
Fixpoint play (storyTree : Tree) (currentNodeID : Z) (stdin : list cin_token)
  : list Z * game_end :=
  match show_node storyTree currentNodeID with
  | (shown, inl e) => (shown, e)
  | (shown, inr childrenIDs) =>
      match stdin with
      | [] => (shown, UndefinedBehaviour)
      | tok :: rest =>
          let r := extract_int tok in
          match chosen childrenIDs currentNodeID r.1 with
          | None => (shown, UndefinedBehaviour)
          | Some next =>
              let after := if r.2 then play storyTree next rest
                           else last_pass storyTree next in
              (shown ++ after.1, after.2)
          end
      end
  end.



(** ** More specifications for the accessors and the text format *)

(** [lo < j1 < j2 < ...] for the list [j1; j2; ...]. *)
Fixpoint increasing (lo : Z) (l : list Z) : Prop :=
  match l with
  | [] => True
  | j :: l' => lo < j ∧ increasing j l'
  end.

(** A node as the accessors show it whose children have larger ids than
    it has, in increasing order. *)
Definition ascending (w : header * list Z) : Prop := increasing (h_ID w.1) w.2.

(** The lines of a document whose value lines carry the texts [labels]
    between the brackets, in place of the numbers that [serialize]
    writes (the empty text where [labels] runs out). *)
Fixpoint labelled_lines (labels : list string) (l : list (option T)) : list string :=
  match l with
  | [] => []
  | Some v :: l' =>
      ("[" +:+ hd EmptyString labels +:+ "]: " +:+ T_insert v)
        :: labelled_lines (tl labels) l'
  | None :: l' => "[X]" :: labelled_lines labels l'
  end.

(** * Proofs *)

Hypothesis new_Node_addr_fresh :
  forall live : list ptr, new_Node_addr live ∉ live.

(** ** Induction on nodes and the pre-order walk *)

Lemma Node_ind (P : Node -> Prop) :
  (forall v par cs i a, Forall P cs -> P (mkNode v par cs i a)) ->
  forall n, P n.
Proof.
  intros IH. fix rec 1. intros [v par cs i a]. apply IH.
  induction cs as [|c cs IHcs]; constructor; [apply rec | exact IHcs].
Qed.

Lemma fmap_bind_list {A B C} (f : B -> C) (g : A -> list B) (l : list A) :
  f <$> (l ≫= g) = l ≫= (fun x => f <$> g x).
Proof.
  induction l as [|x l IHl]; [done|].
  by rewrite !bind_cons, fmap_app, IHl.
Qed.

Lemma preorder_unfold n : preorder n = n :: (children n ≫= preorder).
Proof. by destruct n. Qed.

Lemma heads_unfold n : heads n = head_of n :: (children n ≫= heads).
Proof.
  unfold heads. rewrite preorder_unfold, fmap_cons. f_equal.
  apply fmap_bind_list.
Qed.

Lemma heads_frame_node fr cs :
  heads (frame_node fr cs) = frame_head fr :: (cs ≫= heads).
Proof. by rewrite heads_unfold. Qed.

(** The projections of a node that do not look at its children factor
    through its header. *)
Lemma addr_heads n : addr <$> preorder n = h_addr <$> heads n.
Proof. unfold heads. by rewrite <- list_fmap_compose. Qed.

Lemma ID_heads n : ID <$> preorder n = h_ID <$> heads n.
Proof. unfold heads. by rewrite <- list_fmap_compose. Qed.

Lemma entry_heads n :
  index_entry <$> preorder n = (fun h => (h_ID h, h_addr h)) <$> heads n.
Proof. unfold heads. by rewrite <- list_fmap_compose. Qed.

Lemma self_in_preorder n : n ∈ preorder n.
Proof. rewrite preorder_unfold. apply elem_of_cons. by left. Qed.

Lemma child_in_preorder n c m :
  c ∈ children n -> m ∈ preorder c -> m ∈ preorder n.
Proof.
  intros Hc Hm. rewrite preorder_unfold. apply elem_of_cons. right.
  apply list_elem_of_bind. eauto.
Qed.

(** ** Contexts *)

Lemma heads_plug x C : heads (plug x C) = ctx_pre C ++ heads x ++ ctx_post C.
Proof.
  revert x. induction C as [|fr C IHC]; intros x; simpl.
  - by rewrite app_nil_r.
  - rewrite IHC. unfold fill. rewrite heads_frame_node, bind_app, bind_cons.
    simpl. by rewrite <- !app_assoc.
Qed.

Lemma elem_of_preorder_plug m n :
  m ∈ preorder n -> exists C, n = plug m C.
Proof.
  induction n as [v par cs i a IH] using Node_ind. rewrite preorder_unfold.
  intros [->|Hin]%elem_of_cons; [by exists []|].
  simpl in Hin. apply list_elem_of_bind in Hin as (c & Hm & Hc).
  apply list_elem_of_split in Hc as (l1 & l2 & ->).
  rewrite Forall_app, Forall_cons in IH. destruct IH as (_ & IHc & _).
  destruct (IHc Hm) as [C ->].
  exists (C ++ [mkFrame v par l1 l2 i a]).
  clear. revert m. induction C as [|fr C IHC]; intros m; simpl; [done|].
  apply IHC.
Qed.

Lemma preorder_trans m n r :
  m ∈ preorder n -> n ∈ preorder r -> m ∈ preorder r.
Proof.
  intros Hm. induction r as [v par cs i a IH] using Node_ind.
  rewrite !(preorder_unfold (mkNode _ _ _ _ _)). simpl.
  intros [->|Hin]%elem_of_cons.
  - by rewrite preorder_unfold in Hm.
  - apply elem_of_cons. right.
    apply list_elem_of_bind in Hin as (c & Hn & Hc).
    apply list_elem_of_bind. exists c. split; [|done].
    rewrite Forall_forall in IH. by apply IH.
Qed.

Lemma plug_in_preorder x C : x ∈ preorder (plug x C).
Proof.
  revert x. induction C as [|fr C IHC]; intros x; simpl.
  - apply self_in_preorder.
  - apply preorder_trans with (fill fr x); [|apply IHC].
    apply child_in_preorder with x; [|apply self_in_preorder].
    simpl. apply elem_of_app. right. apply elem_of_cons. by left.
Qed.

(** ** Following and writing through raw pointers *)

Lemma deref_unfold p n :
  deref p n =
  if decide (addr n = p) then Some n
  else foldr (fun c acc => match deref p c with Some m => Some m | None => acc end)
             None (children n).
Proof.
  destruct n as [v par cs i a]; simpl. destruct (decide (a = p)); [done|].
  induction cs as [|c cs IHcs]; simpl; [done|]. by rewrite IHcs.
Qed.

Lemma not_in_bind_addr p (cs : list Node) :
  p ∉ addr <$> (cs ≫= preorder) ->
  Forall (fun c => p ∉ addr <$> preorder c) cs.
Proof.
  intros Hp. apply Forall_forall. intros c Hc Hin. apply Hp.
  apply list_elem_of_fmap in Hin as (m & -> & Hm).
  apply list_elem_of_fmap_2, list_elem_of_bind. eauto.
Qed.

Lemma not_in_bind_heads p (cs : list Node) :
  p ∉ h_addr <$> (cs ≫= heads) ->
  Forall (fun c => p ∉ addr <$> preorder c) cs.
Proof.
  intros Hp. apply not_in_bind_addr. intros Hin. apply Hp.
  apply list_elem_of_fmap in Hin as (m & -> & Hm).
  apply list_elem_of_bind in Hm as (c & Hm & Hc).
  apply list_elem_of_fmap. exists (head_of m). split; [done|].
  apply list_elem_of_bind. exists c. split; [|done].
  by apply list_elem_of_fmap_2.
Qed.

Lemma modify_absent p f n : p ∉ addr <$> preorder n -> modify p f n = n.
Proof.
  induction n as [v par cs i a IH] using Node_ind.
  rewrite preorder_unfold, fmap_cons. simpl. intros [Hne Hp]%not_elem_of_cons.
  destruct (decide (a = p)); [congruence|]. f_equal.
  apply not_in_bind_addr in Hp.
  induction cs as [|c cs IHcs]; [done|].
  inversion IH; inversion Hp; subst. rewrite fmap_cons. f_equal; auto.
Qed.

Lemma modify_absent_list p f (cs : list Node) :
  Forall (fun c => p ∉ addr <$> preorder c) cs -> modify p f <$> cs = cs.
Proof.
  induction 1 as [|c cs Hc _ IH]; [done|].
  rewrite fmap_cons, IH. f_equal. by apply modify_absent.
Qed.

Lemma modify_here p f n : addr n = p -> modify p f n = f n.
Proof. destruct n; simpl. intros ->. by rewrite decide_True. Qed.

Lemma deref_here p n : addr n = p -> deref p n = Some n.
Proof. intros Hp. rewrite deref_unfold. by rewrite decide_True. Qed.

Lemma deref_absent p n : p ∉ addr <$> preorder n -> deref p n = None.
Proof.
  induction n as [v par cs i a IH] using Node_ind.
  rewrite preorder_unfold, fmap_cons, deref_unfold. simpl.
  intros [Hne Hp]%not_elem_of_cons.
  destruct (decide (a = p)); [congruence|].
  apply not_in_bind_addr in Hp.
  induction cs as [|c cs IHcs]; [done|].
  inversion IH; inversion Hp; subst. simpl.
  rewrite H2 by done. auto.
Qed.

Lemma deref_elem p n m : deref p n = Some m -> m ∈ preorder n ∧ addr m = p.
Proof.
  induction n as [v par cs i a IH] using Node_ind. rewrite deref_unfold. simpl.
  destruct (decide (a = p)) as [->|Hne].
  - intros [= <-]. split; [apply self_in_preorder|done].
  - intros Hd. assert (exists c, c ∈ cs ∧ deref p c = Some m) as (c & Hc & Hm).
    { clear IH. induction cs as [|c cs IHcs]; simpl in Hd; [done|].
      destruct (deref p c) eqn:E.
      - injection Hd as ->. exists c. split; [apply elem_of_cons; by left|done].
      - destruct (IHcs Hd) as (c' & ? & ?). exists c'.
        split; [apply elem_of_cons; by right|done]. }
    rewrite Forall_forall in IH. destruct (IH c Hc Hm) as [Hin Ha].
    split; [|done]. by apply (child_in_preorder (mkNode v par cs i a) c m).
Qed.

Lemma modify_fill p f fr y :
  p ∉ h_addr <$> (frame_head fr :: (f_left fr ≫= heads) ++ (f_right fr ≫= heads)) ->
  modify p f (fill fr y) = fill fr (modify p f y).
Proof.
  intros Hp. rewrite fmap_cons, fmap_app, not_elem_of_cons, not_elem_of_app in Hp.
  destruct Hp as (Hne & Hl & Hr). simpl in Hne.
  unfold fill, frame_node. simpl. destruct (decide (f_addr fr = p)); [congruence|].
  f_equal. rewrite fmap_app, fmap_cons.
  rewrite !modify_absent_list by (by apply not_in_bind_heads). done.
Qed.

Lemma modify_plug p f y C :
  p ∉ h_addr <$> (ctx_pre C ++ ctx_post C) ->
  modify p f (plug y C) = plug (modify p f y) C.
Proof.
  revert y. induction C as [|fr C IHC]; intros y Hp; simpl; [done|].
  simpl in Hp.
  rewrite !fmap_app, fmap_cons, !not_elem_of_app, not_elem_of_cons in Hp.
  destruct Hp as ((Hp1 & Hp2 & Hp3) & Hp4 & Hp5).
  rewrite IHC by (rewrite fmap_app, not_elem_of_app; done).
  f_equal. apply modify_fill.
  rewrite fmap_cons, fmap_app, not_elem_of_cons, not_elem_of_app. done.
Qed.

Lemma deref_fill p fr y m :
  p ∉ h_addr <$> (frame_head fr :: (f_left fr ≫= heads)) ->
  deref p y = Some m -> deref p (fill fr y) = Some m.
Proof.
  intros Hp Hy. rewrite fmap_cons, not_elem_of_cons in Hp.
  destruct Hp as [Hne Hl]. simpl in Hne.
  rewrite deref_unfold. simpl. destruct (decide (f_addr fr = p)); [congruence|].
  apply not_in_bind_heads in Hl.
  induction Hl as [|c cs Hc _ IH]; simpl.
  - by rewrite Hy.
  - by rewrite (deref_absent _ _ Hc).
Qed.

Lemma deref_plug p y C m :
  p ∉ h_addr <$> ctx_pre C ->
  deref p y = Some m -> deref p (plug y C) = Some m.
Proof.
  revert y. induction C as [|fr C IHC]; intros y Hp Hy; simpl; [done|].
  simpl in Hp. rewrite fmap_app, not_elem_of_app in Hp. destruct Hp as [Hp1 Hp2].
  apply IHC; [done|]. by apply deref_fill.
Qed.

(** In a tree without repeated addresses, a pointer to a node finds that
    node, and a write through it changes that node only. *)
Lemma addr_in_heads x : addr x ∈ h_addr <$> heads x.
Proof. rewrite heads_unfold, fmap_cons. apply elem_of_cons. by left. Qed.

Lemma NoDup_plug_ctx x C :
  NoDup (h_addr <$> heads (plug x C)) ->
  addr x ∉ h_addr <$> (ctx_pre C ++ ctx_post C).
Proof.
  rewrite heads_plug, !fmap_app.
  intros Hnd Hin. apply elem_of_app in Hin.
  apply NoDup_app in Hnd as (_ & Hpre & Hnd).
  apply NoDup_app in Hnd as (_ & Hpost & _).
  destruct Hin as [Hin|Hin].
  - apply (Hpre _ Hin). apply elem_of_app. left. apply addr_in_heads.
  - apply (Hpost (addr x)); [apply addr_in_heads|done].
Qed.

Lemma deref_plug_NoDup x C :
  NoDup (h_addr <$> heads (plug x C)) -> deref (addr x) (plug x C) = Some x.
Proof.
  intros Hnd. apply deref_plug; [|by apply deref_here].
  apply NoDup_plug_ctx in Hnd. rewrite fmap_app, not_elem_of_app in Hnd. tauto.
Qed.

Lemma modify_plug_NoDup f x C :
  NoDup (h_addr <$> heads (plug x C)) ->
  modify (addr x) f (plug x C) = plug (f x) C.
Proof.
  intros Hnd. rewrite modify_plug by (by apply NoDup_plug_ctx).
  by rewrite modify_here.
Qed.

(** ** Parent pointers *)

Lemma parents_ok_unfold par n :
  parents_ok par n =
  bool_decide (parent n = par) && forallb (parents_ok (Some (addr n))) (children n).
Proof. by destruct n. Qed.

Lemma parents_ok_plug par x C :
  parents_ok par (plug x C) = true ->
  parents_ok (ctx_parent par C) x = true ∧
  forall x', parents_ok (ctx_parent par C) x' = true ->
             parents_ok par (plug x' C) = true.
Proof.
  revert x. induction C as [|fr C IHC]; intros x Hok; simpl in *; [auto|].
  destruct (IHC _ Hok) as [Hfill Hrep].
  rewrite parents_ok_unfold in Hfill. simpl in Hfill.
  apply andb_true_iff in Hfill as [Hpar Hcs].
  rewrite forallb_app in Hcs. simpl in Hcs.
  apply andb_true_iff in Hcs as [Hl Hxr]. apply andb_true_iff in Hxr as [Hx Hr].
  split; [done|]. intros x' Hx'. apply Hrep.
  rewrite parents_ok_unfold. simpl. rewrite Hpar, forallb_app. simpl.
  by rewrite Hl, Hx', Hr.
Qed.

Lemma parents_ok_frame_node par fr x :
  parents_ok par (fill fr x) = true ->
  parents_ok par (frame_node fr (f_left fr ++ f_right fr)) = true.
Proof.
  rewrite !parents_ok_unfold. simpl. rewrite !forallb_app. simpl.
  intros [Hpar [Hl [Hx Hr]%andb_true_iff]%andb_true_iff]%andb_true_iff.
  by rewrite Hpar, Hl, Hr.
Qed.

(** ** What the invariant gives *)

Lemma nodes_root t r : root t = Some r -> nodes t = preorder r.
Proof. unfold nodes. by intros ->. Qed.

Lemma nodes_empty t : root t = None -> nodes t = [].
Proof. unfold nodes. by intros ->. Qed.

(** A live id leads to a node of the tree, seen in its context. *)
Lemma Inv_lookup t i p :
  Inv t -> nodeMap t !! i = Some p ->
  exists x C, root t = Some (plug x C) ∧ ID x = i ∧ addr x = p.
Proof.
  intros HI Hi. apply (inv_index t HI) in Hi.
  apply list_elem_of_fmap in Hi as (x & [= -> ->] & Hx).
  unfold nodes in Hx. destruct (root t) as [r|] eqn:Hr.
  - apply elem_of_preorder_plug in Hx as [C ->]. eauto.
  - by apply elem_of_nil in Hx.
Qed.

Lemma Inv_NoDup_heads t r :
  Inv t -> root t = Some r -> NoDup (h_addr <$> heads r).
Proof.
  intros HI Hr. rewrite <- addr_heads, <- (nodes_root t r Hr).
  apply (inv_addr_nodup t HI).
Qed.

Lemma Inv_deref t x C :
  Inv t -> root t = Some (plug x C) -> tree_deref t (addr x) = Some x.
Proof.
  intros HI Hr. unfold tree_deref. rewrite Hr. simpl.
  apply deref_plug_NoDup. by apply (Inv_NoDup_heads t).
Qed.

(** ** The members keep the invariant *)

Lemma assignIDs_leaf a v par m nxt :
  assignIDs (Node_new a v par) (m, nxt) =
  (mkNode v par [] nxt a, (<[nxt := a]> m, nxt + 1)).
Proof. reflexivity. Qed.

Lemma Inv_empty : Inv (mkTree None ∅ 0).
Proof.
  split; simpl; try (intros; by apply NoDup_nil).
  - intros i p. rewrite lookup_empty. split; [done|]. by intros ?%elem_of_nil.
  - by intros i ?%elem_of_nil.
  - done.
  - done.
Qed.

Lemma setRoot_fail v t r :
  root t = Some r -> setRoot v t = (t, Throw AlreadyHasRoot).
Proof. unfold setRoot. by intros ->. Qed.

Lemma setRoot_ok v t :
  root t = None ->
  setRoot v t =
  (mkTree (Some (mkNode v None [] (nextID t) (new_Node_addr (live t))))
          (<[nextID t := new_Node_addr (live t)]> (nodeMap t)) (nextID t + 1),
   Ok (nextID t)).
Proof. unfold setRoot. by intros ->. Qed.

Lemma setRoot_Inv v t : Inv t -> Inv (setRoot v t).1.
Proof.
  intros HI. destruct (root t) as [r|] eqn:Hr.
  - by rewrite (setRoot_fail v t r).
  - rewrite setRoot_ok by done. simpl.
    pose proof (nodes_empty t Hr) as Hn.
    split; unfold nodes; simpl.
    + apply NoDup_singleton.
    + apply NoDup_singleton.
    + intros i p. rewrite list_elem_of_singleton. unfold index_entry. simpl.
      destruct (decide (i = nextID t)) as [->|Hne].
      * rewrite lookup_insert_eq. split; congruence.
      * rewrite lookup_insert_ne by done. split; [|congruence].
        intros Hi%(inv_index t HI). rewrite Hn in Hi. by apply elem_of_nil in Hi.
    + intros i ->%list_elem_of_singleton. pose proof (inv_next_nonneg t HI). lia.
    + pose proof (inv_next_nonneg t HI). lia.
    + by intros r [= <-].
Qed.

Lemma heads_push_back c x : heads (push_back c x) = heads x ++ heads c.
Proof.
  rewrite (heads_unfold (push_back c x)), (heads_unfold x). simpl.
  rewrite bind_app, bind_cons. simpl. by rewrite app_nil_r.
Qed.

Lemma heads_plug_push_back c x C :
  heads (plug (push_back c x) C) ≡ₚ heads c ++ heads (plug x C).
Proof.
  rewrite !heads_plug, heads_push_back.
  rewrite (Permutation_app_comm (heads c)).
  rewrite <- !app_assoc. do 2 f_equiv. apply Permutation_app_comm.
Qed.

(** What a successful [appendNode] does, in terms of the context of the
    parent. *)
Lemma Inv_index_plug t x C :
  Inv t -> root t = Some (plug x C) -> nodeMap t !! ID x = Some (addr x).
Proof.
  intros HI Hr. apply (inv_index t HI). rewrite (nodes_root t _ Hr).
  apply (list_elem_of_fmap_2 index_entry), plug_in_preorder.
Qed.

Lemma appendNode_at x C v t :
  Inv t -> root t = Some (plug x C) ->
  appendNode (ID x) v t =
  (mkTree (Some (plug (push_back
                         (mkNode v (Some (addr x)) [] (nextID t)
                                 (new_Node_addr (live t)))
                         x) C))
          (<[nextID t := new_Node_addr (live t)]> (nodeMap t)) (nextID t + 1),
   Ok (nextID t)).
Proof.
  intros HI Hr. unfold appendNode. rewrite (Inv_index_plug t x C HI Hr).
  rewrite (Inv_deref t x C HI Hr), assignIDs_leaf. simpl.
  rewrite Hr. simpl. rewrite modify_plug_NoDup; [done|].
  by apply (Inv_NoDup_heads t).
Qed.

Lemma appendNode_ok pid v t p :
  Inv t -> nodeMap t !! pid = Some p ->
  exists x C,
    root t = Some (plug x C) ∧ ID x = pid ∧ addr x = p ∧
    appendNode pid v t =
    (mkTree (Some (plug (push_back
                           (mkNode v (Some p) [] (nextID t) (new_Node_addr (live t)))
                           x) C))
            (<[nextID t := new_Node_addr (live t)]> (nodeMap t)) (nextID t + 1),
     Ok (nextID t)).
Proof.
  intros HI Hp. destruct (Inv_lookup t pid p HI Hp) as (x & C & Hr & Hid & Ha).
  exists x, C. repeat split; try done.
  rewrite <- Hid, <- Ha. by apply appendNode_at.
Qed.

Lemma appendNode_fail pid v t :
  nodeMap t !! pid = None -> appendNode pid v t = (t, Throw (NodeNotFound pid)).
Proof. unfold appendNode. by intros ->. Qed.

Lemma fresh_not_live t : new_Node_addr (live t) ∉ addr <$> nodes t.
Proof. apply new_Node_addr_fresh. Qed.

Lemma appendNode_Inv pid v t : Inv t -> Inv (appendNode pid v t).1.
Proof.
  intros HI. destruct (nodeMap t !! pid) as [p|] eqn:Hp.
  2:{ by rewrite appendNode_fail. }
  destruct (appendNode_ok pid v t p HI Hp) as (x & C & Hr & Hid & Ha & ->).
  simpl. set (a := new_Node_addr (live t)).
  set (c := mkNode v (Some p) [] (nextID t) a).
  pose proof (heads_plug_push_back c x C) as Hperm.
  pose proof (nodes_root t _ Hr) as Hn.
  pose proof (fresh_not_live t) as Hfresh. fold a in Hfresh.
  assert (heads c = [head_of c]) as Hc by done.
  rewrite Hc in Hperm. simpl in Hperm.
  split; unfold nodes; simpl.
  - rewrite addr_heads, Hperm, fmap_cons, <- addr_heads, <- Hn.
    apply NoDup_cons. split; [done|]. apply (inv_addr_nodup t HI).
  - rewrite ID_heads, Hperm, fmap_cons, <- ID_heads, <- Hn.
    apply NoDup_cons. split; [|apply (inv_id_nodup t HI)].
    simpl. intros Hin%(inv_id_range t HI). lia.
  - intros i q. rewrite entry_heads, Hperm, fmap_cons, <- entry_heads, <- Hn.
    rewrite elem_of_cons. simpl.
    destruct (decide (i = nextID t)) as [->|Hne].
    + rewrite lookup_insert_eq. split; [intros [= <-]; by left|].
      intros [[= <-]|Hin]; [done|].
      assert (nextID t ∈ ID <$> nodes t) as Hin'.
      { apply list_elem_of_fmap in Hin as (m & [= ? ?] & Hm).
        apply list_elem_of_fmap. eauto. }
      apply (inv_id_range t HI) in Hin'. lia.
    + rewrite lookup_insert_ne by done. rewrite (inv_index t HI).
      split; [by right|]. intros [[= ? ?]|?]; [congruence|done].
  - intros i. rewrite ID_heads, Hperm, fmap_cons, <- ID_heads, <- Hn.
    intros [->|Hin%(inv_id_range t HI)]%elem_of_cons; simpl.
    + pose proof (inv_next_nonneg t HI). lia.
    + lia.
  - pose proof (inv_next_nonneg t HI). lia.
  - intros r [= <-].
    destruct (parents_ok_plug None x C (inv_parents t HI _ Hr)) as [Hx Hrep].
    apply Hrep. rewrite parents_ok_unfold in Hx |- *. simpl.
    apply andb_true_iff in Hx as [Hpar Hcs].
    rewrite Hpar, forallb_app, Hcs. simpl.
    rewrite bool_decide_eq_true_2; [done|congruence].
Qed.

Lemma cleanupSubtree_unfold n m :
  cleanupSubtree n m =
  delete (ID n) (fold_left (fun m c => cleanupSubtree c m) (children n) m).
Proof.
  by destruct n.
Qed.

(** [cleanupSubtree] erases the ids of the subtree, and only those. *)
Lemma cleanupSubtree_lookup n m j :
  cleanupSubtree n m !! j =
  if decide (j ∈ ID <$> preorder n) then None else m !! j.
Proof.
  revert m. induction n as [v par cs i a IH] using Node_ind. intros m.
  rewrite cleanupSubtree_unfold, preorder_unfold, fmap_cons. simpl.
  assert (forall m, fold_left (fun m c => cleanupSubtree c m) cs m !! j =
                    if decide (j ∈ ID <$> (cs ≫= preorder)) then None else m !! j)
    as Hfold.
  { clear m. induction cs as [|c cs IHcs]; intros m; simpl.
    - done.
    - inversion IH as [|? ? Hc Hcs]; subst. rewrite IHcs by done.
      rewrite Hc. rewrite fmap_app.
      repeat case_decide; try done; exfalso;
        rewrite elem_of_app in *; tauto. }
  destruct (decide (j = i)) as [->|Hne].
  - rewrite lookup_delete_eq, decide_True; [done|]. apply elem_of_cons. by left.
  - rewrite lookup_delete_ne by done. rewrite Hfold.
    repeat case_decide; try done; exfalso; rewrite elem_of_cons in *; tauto.
Qed.

Lemma removeNode_root t : removeNode (getRootID t) t = (t, Throw CannotRemoveRoot).
Proof. unfold removeNode. by rewrite decide_True. Qed.

Lemma removeNode_absent nodeID t :
  nodeID ≠ getRootID t -> nodeMap t !! nodeID = None ->
  removeNode nodeID t = (t, Throw (NodeNotFound nodeID)).
Proof. intros Hne Hm. unfold removeNode. by rewrite decide_False, Hm. Qed.

Lemma ID_plug x x' C : ID x = ID x' -> ID (plug x C) = ID (plug x' C).
Proof.
  revert x x'. induction C as [|fr C IHC]; intros x x' Hx; simpl; [done|].
  by apply IHC.
Qed.

Lemma filter_all {A} (P : A -> Prop) `{forall x, Decision (P x)} (l : list A) :
  Forall P l -> filter P l = l.
Proof.
  induction 1 as [|x l Hx _ IH]; [done|]. by rewrite filter_cons_True, IH.
Qed.

Lemma filter_siblings p (l r : list Node) x :
  addr x = p ->
  Forall (fun c => addr c ≠ p) l -> Forall (fun c => addr c ≠ p) r ->
  filter (fun c => addr c ≠ p) (l ++ x :: r) = l ++ r.
Proof.
  intros Hx Hl Hr. rewrite filter_app, filter_cons_False by (by rewrite Hx; auto).
  f_equal; by apply filter_all.
Qed.

Lemma NoDup_fill_siblings fr x :
  NoDup (h_addr <$> heads (fill fr x)) ->
  Forall (fun c => addr c ≠ addr x) (f_left fr) ∧
  Forall (fun c => addr c ≠ addr x) (f_right fr).
Proof.
  unfold fill. rewrite heads_frame_node, bind_app, bind_cons, fmap_cons, !fmap_app.
  intros [_ Hnd]%NoDup_cons.
  apply NoDup_app in Hnd as (_ & Hl & Hnd).
  apply NoDup_app in Hnd as (_ & Hr & _).
  split; apply Forall_forall; intros c Hc Heq.
  - apply (Hl (addr c)).
    + apply list_elem_of_fmap. exists (head_of c). split; [done|].
      apply list_elem_of_bind. exists c. split; [|done].
      rewrite heads_unfold. apply elem_of_cons. by left.
    + apply elem_of_app. left. rewrite Heq. apply addr_in_heads.
  - apply (Hr (addr x)); [apply addr_in_heads|].
    rewrite <- Heq. apply list_elem_of_fmap. exists (head_of c). split; [done|].
    apply list_elem_of_bind. exists c. split; [|done].
    rewrite heads_unfold. apply elem_of_cons. by left.
Qed.

Lemma NoDup_plug_inner x C :
  NoDup (h_addr <$> heads (plug x C)) -> NoDup (h_addr <$> heads x).
Proof.
  rewrite heads_plug, !fmap_app. intros (_ & _ & Hnd)%NoDup_app.
  by apply NoDup_app in Hnd as (? & _ & _).
Qed.

(** What a successful [removeNode] does, in terms of the context of the
    node. *)
Lemma removeNode_ok nodeID t p :
  Inv t -> nodeID ≠ getRootID t -> nodeMap t !! nodeID = Some p ->
  exists x fr C,
    root t = Some (plug x (fr :: C)) ∧ ID x = nodeID ∧ addr x = p ∧
    removeNode nodeID t =
    (mkTree (Some (plug (frame_node fr (f_left fr ++ f_right fr)) C))
            (cleanupSubtree x (nodeMap t)) (nextID t),
     Ok tt).
Proof.
  intros HI Hne Hp. destruct (Inv_lookup t nodeID p HI Hp) as (x & C0 & Hr & Hid & Ha).
  destruct C0 as [|fr C].
  { exfalso. apply Hne. unfold getRootID. by rewrite Hr. }
  exists x, fr, C. repeat split; try done.
  pose proof (Inv_NoDup_heads t _ HI Hr) as Hnd.
  destruct (parents_ok_plug None x (fr :: C) (inv_parents t HI _ Hr)) as [Hx _].
  rewrite parents_ok_unfold in Hx. apply andb_true_iff in Hx as [Hpar _].
  apply bool_decide_eq_true in Hpar. simpl in Hpar.
  unfold removeNode. rewrite decide_False by done. rewrite Hp. subst p.
  rewrite (Inv_deref t x (fr :: C) HI Hr), Hpar.
  simpl in Hr.
  change (f_addr fr) with (addr (fill fr x)).
  rewrite (Inv_deref t (fill fr x) C HI Hr). rewrite Hr. simpl.
  simpl in Hnd.
  pose proof (modify_plug_NoDup (erase_child (addr x)) (fill fr x) C Hnd) as Hm.
  simpl in Hm. rewrite Hm.
  apply NoDup_plug_inner, NoDup_fill_siblings in Hnd as [Hl Hrr].
  unfold erase_child, fill, frame_node. simpl.
  by rewrite (filter_siblings (addr x)).
Qed.

Lemma Permutation_hole {A} (pre l x r post : list A) (h : A) :
  pre ++ (h :: l ++ x ++ r) ++ post ≡ₚ x ++ pre ++ (h :: l ++ r) ++ post.
Proof.
  change (h :: l ++ x ++ r) with ([h] ++ l ++ x ++ r).
  change (h :: l ++ r) with ([h] ++ l ++ r). rewrite <- !app_assoc.
  rewrite (Permutation_app_swap_app x pre). f_equiv.
  rewrite (Permutation_app_swap_app x [h]). f_equiv.
  apply Permutation_app_swap_app.
Qed.

Lemma heads_plug_removed x fr C :
  heads (plug x (fr :: C)) ≡ₚ
  heads x ++ heads (plug (frame_node fr (f_left fr ++ f_right fr)) C).
Proof.
  simpl. rewrite !heads_plug. unfold fill.
  rewrite !heads_frame_node, !bind_app, bind_cons. apply Permutation_hole.
Qed.

Lemma removeNode_Inv nodeID t : Inv t -> Inv (removeNode nodeID t).1.
Proof.
  intros HI. destruct (decide (nodeID = getRootID t)) as [->|Hne].
  { by rewrite removeNode_root. }
  destruct (nodeMap t !! nodeID) as [p|] eqn:Hp.
  2:{ by rewrite removeNode_absent. }
  destruct (removeNode_ok nodeID t p HI Hne Hp) as (x & fr & C & Hr & Hid & Ha & ->).
  simpl. pose proof (heads_plug_removed x fr C) as Hperm.
  pose proof (nodes_root t _ Hr) as Hn.
  pose proof (inv_addr_nodup t HI) as Hna.
  pose proof (inv_id_nodup t HI) as Hni.
  rewrite Hn, addr_heads, Hperm, fmap_app in Hna.
  rewrite Hn, ID_heads, Hperm, fmap_app in Hni.
  apply NoDup_app in Hna as (_ & _ & Hna).
  apply NoDup_app in Hni as (_ & Hdisj & Hni).
  split; unfold nodes; simpl.
  - by rewrite addr_heads.
  - by rewrite ID_heads.
  - intros i q. rewrite cleanupSubtree_lookup, entry_heads.
    pose proof (inv_index t HI i q) as Hidx.
    rewrite Hn, entry_heads, Hperm, fmap_app, elem_of_app in Hidx.
    assert (forall (l : list header), (i, q) ∈ (fun h => (h_ID h, h_addr h)) <$> l ->
                 i ∈ h_ID <$> l) as Hproj.
    { intros l (h & [= -> ->] & Hh)%list_elem_of_fmap. by apply list_elem_of_fmap_2. }
    case_decide as Hin.
    + split; [done|]. intros Hq%Hproj. rewrite ID_heads in Hin.
      exfalso. by apply (Hdisj i).
    + rewrite Hidx. split; [|by right]. intros [Hq%Hproj|Hq]; [|done].
      by rewrite ID_heads in Hin.
  - intros i Hi. apply (inv_id_range t HI).
    rewrite Hn, ID_heads, Hperm, fmap_app, elem_of_app. right.
    by rewrite <- ID_heads.
  - apply (inv_next_nonneg t HI).
  - intros r [= <-].
    destruct (parents_ok_plug None (fill fr x) C (inv_parents t HI _ Hr)) as [Hf Hrep].
    apply Hrep. by apply parents_ok_frame_node with x.
Qed.

Lemma run_op_Inv t o : Inv t -> Inv (run_op t o).
Proof.
  destruct o; simpl; [apply setRoot_Inv|apply appendNode_Inv|apply removeNode_Inv].
Qed.

Lemma run_ops_Inv ops t : Inv t -> Inv (run_ops ops t).
Proof.
  revert t. induction ops as [|o ops IH]; intros t HI; simpl; [done|].
  apply IH. by apply run_op_Inv.
Qed.

(** ** Linearization *)

Lemma flatten_unfold n :
  flatten n = Some (value n) :: (children n ≫= flatten) ++ [None].
Proof. by destruct n. Qed.

Lemma push_children_reversed_eq cs stack :
  push_children_reversed cs stack = (Some <$> cs) ++ stack.
Proof.
  unfold push_children_reversed. revert stack.
  induction cs as [|c cs IH]; intros stack; simpl; [done|].
  by rewrite fold_left_app, IH.
Qed.

Lemma stack_flatten_children cs stack :
  stack_flatten ((Some <$> cs) ++ stack) = (cs ≫= flatten) ++ stack_flatten stack.
Proof.
  unfold stack_flatten. rewrite bind_app. f_equal.
  induction cs as [|c cs IH]; [done|]. by rewrite fmap_cons, !bind_cons, IH.
Qed.

Lemma stack_cost_children cs stack :
  stack_cost ((Some <$> cs) ++ stack) =
  (2 * length (cs ≫= preorder) + stack_cost stack)%nat.
Proof.
  unfold stack_cost. rewrite sum_list_with_app. f_equal.
  induction cs as [|c cs IH]; [done|].
  rewrite fmap_cons, bind_cons, length_app. cbn [sum_list_with].
  rewrite IH. lia.
Qed.

Lemma stack_cost_Some n stack :
  stack_cost (Some n :: stack) =
  (2 + 2 * length (children n ≫= preorder) + stack_cost stack)%nat.
Proof.
  unfold stack_cost. cbn [sum_list_with]. rewrite preorder_unfold. simpl. lia.
Qed.

Lemma stack_cost_None stack : stack_cost (None :: stack) = S (stack_cost stack).
Proof. done. Qed.

(** With enough fuel the loop ends, having emitted what the stack stood
    for. *)
Lemma linearize_loop_spec fuel stack acc :
  (stack_cost stack ≤ fuel)%nat ->
  linearize_loop fuel stack acc = Some (acc ++ stack_flatten stack).
Proof.
  revert stack acc. induction fuel as [|fuel IH]; intros stack acc Hfuel.
  - destruct stack as [|[n|] stack]; simpl.
    + by rewrite app_nil_r.
    + rewrite stack_cost_Some in Hfuel. lia.
    + rewrite stack_cost_None in Hfuel. lia.
  - destruct stack as [|[n|] stack]; simpl.
    + by rewrite app_nil_r.
    + rewrite push_children_reversed_eq, IH.
      * f_equal. rewrite (stack_flatten_children (children n) (None :: stack)).
        change (stack_flatten (None :: stack)) with (None :: stack_flatten stack).
        change (stack_flatten (Some n :: stack))
          with (flatten n ++ stack_flatten stack).
        rewrite flatten_unfold, <- !app_assoc. simpl. by rewrite <- !app_assoc.
      * rewrite (stack_cost_children (children n) (None :: stack)).
        rewrite stack_cost_Some in Hfuel. rewrite stack_cost_None. lia.
    + rewrite IH.
      * by rewrite <- app_assoc.
      * rewrite stack_cost_None in Hfuel. lia.
Qed.

Lemma linearize_total t : linearize t = Some (tree_flatten t).
Proof.
  unfold linearize, tree_flatten, nodes. destruct (root t) as [r|]; [|done].
  rewrite linearize_loop_spec.
  - unfold stack_flatten. simpl. by rewrite app_nil_r.
  - rewrite stack_cost_Some. rewrite (preorder_unfold r). simpl. lia.
Qed.

Lemma flatten_length n : length (flatten n) = (2 * length (preorder n))%nat.
Proof.
  induction n as [v par cs i a IH] using Node_ind.
  rewrite flatten_unfold, preorder_unfold. simpl. rewrite length_app. simpl.
  assert (length (cs ≫= flatten) = (2 * length (cs ≫= preorder))%nat) as ->; [|lia].
  induction IH as [|c cs Hc _ IHcs]; [done|].
  rewrite !bind_cons, !length_app, Hc, IHcs. lia.
Qed.

Lemma count_values_app l1 l2 :
  count_values (l1 ++ l2) = (count_values l1 + count_values l2)%nat.
Proof. unfold count_values. by rewrite filter_app, length_app. Qed.

Lemma count_markers_app l1 l2 :
  count_markers (l1 ++ l2) = (count_markers l1 + count_markers l2)%nat.
Proof. unfold count_markers. by rewrite filter_app, length_app. Qed.

Lemma flatten_count_values n : count_values (flatten n) = length (preorder n).
Proof.
  induction n as [v par cs i a IH] using Node_ind.
  rewrite flatten_unfold, preorder_unfold. simpl.
  change (Some v :: (cs ≫= flatten) ++ [None])
    with ([Some v] ++ (cs ≫= flatten) ++ [None]).
  rewrite !count_values_app.
  assert (count_values (cs ≫= flatten) = length (cs ≫= preorder)) as ->.
  { induction IH as [|c cs Hc _ IHcs]; [done|].
    by rewrite !bind_cons, count_values_app, length_app, Hc, IHcs. }
  unfold count_values. rewrite filter_cons_True by done.
  rewrite (filter_cons_False _ None) by (by intros []). simpl. lia.
Qed.

Lemma flatten_count_markers n : count_markers (flatten n) = length (preorder n).
Proof.
  induction n as [v par cs i a IH] using Node_ind.
  rewrite flatten_unfold, preorder_unfold. simpl.
  change (Some v :: (cs ≫= flatten) ++ [None])
    with ([Some v] ++ (cs ≫= flatten) ++ [None]).
  rewrite !count_markers_app.
  assert (count_markers (cs ≫= flatten) = length (cs ≫= preorder)) as ->.
  { induction IH as [|c cs Hc _ IHcs]; [done|].
    by rewrite !bind_cons, count_markers_app, length_app, Hc, IHcs. }
  unfold count_markers. rewrite filter_cons_False by done.
  rewrite (filter_cons_True _ None) by done. simpl. lia.
Qed.

(** The value entries are the values of the nodes in pre-order. *)
Lemma flatten_values n : omap id (flatten n) = value <$> preorder n.
Proof.
  induction n as [v par cs i a IH] using Node_ind.
  rewrite flatten_unfold, preorder_unfold. simpl. f_equal.
  rewrite omap_app. simpl. rewrite app_nil_r.
  induction IH as [|c cs Hc _ IHcs]; [done|].
  by rewrite !bind_cons, omap_app, fmap_app, Hc, IHcs.
Qed.

(** The form of a node is one block of the form of any tree around it. *)
Lemma flatten_plug x C :
  exists pre post, flatten (plug x C) = pre ++ flatten x ++ post.
Proof.
  revert x. induction C as [|fr C IHC]; intros x; simpl.
  - exists [], []. by rewrite app_nil_r.
  - destruct (IHC (fill fr x)) as (pre & post & ->).
    exists (pre ++ Some (f_value fr) :: (f_left fr ≫= flatten)),
           ((f_right fr ≫= flatten) ++ None :: post).
    rewrite (flatten_unfold (fill fr x)). simpl.
    rewrite bind_app, bind_cons. rewrite <- ?app_assoc. simpl.
    by rewrite <- ?app_assoc.
Qed.

Lemma flatten_siblings r m l1 c l2 :
  m ∈ preorder r -> children m = l1 ++ c :: l2 ->
  exists pre post,
    flatten r =
    pre ++ Some (value m) :: (l1 ≫= flatten)
        ++ (Some (value c) :: (children c ≫= flatten) ++ [None])
        ++ (l2 ≫= flatten) ++ None :: post.
Proof.
  intros [C ->]%elem_of_preorder_plug Hcs.
  destruct (flatten_plug m C) as (pre & post & ->).
  exists pre, post. f_equal.
  rewrite (flatten_unfold m), Hcs, bind_app, bind_cons, (flatten_unfold c).
  simpl. rewrite <- ?app_assoc. simpl. by rewrite <- ?app_assoc.
Qed.

(** ** Text *)

(** [+:+] is kept folded by [simpl]; these two equations unfold it. *)
Lemma append_cons (x : ascii) (a b : string) : String x a +:+ b = String x (a +:+ b).
Proof. reflexivity. Qed.

Lemma append_nil_l (b : string) : EmptyString +:+ b = b.
Proof. reflexivity. Qed.

Lemma append_assoc (a b c : string) : (a +:+ b) +:+ c = a +:+ (b +:+ c).
Proof.
  induction a as [|x a IH]; [done|]. rewrite !append_cons. by f_equal.
Qed.

Lemma append_nil_r (a : string) : a +:+ EmptyString = a.
Proof. induction a as [|x a IH]; [done|]. rewrite append_cons. by f_equal. Qed.

Lemma chars_append (a b : string) :
  list_ascii_of_string (a +:+ b) = list_ascii_of_string a ++ list_ascii_of_string b.
Proof.
  induction a as [|x a IH]; [done|]. rewrite append_cons. simpl. by f_equal.
Qed.

Lemma substr_append (a b : string) : substr (String.length a) (a +:+ b) = b.
Proof.
  induction a as [|x a IH]; [by destruct b|]. by rewrite append_cons.
Qed.

Lemma single_line_append a b :
  single_line a -> single_line b -> single_line (a +:+ b).
Proof.
  unfold single_line. rewrite chars_append, not_elem_of_app. tauto.
Qed.

Lemma getlines_line cur l rest :
  single_line l ->
  getlines cur (l +:+ endl +:+ rest) = (cur +:+ l) :: getlines EmptyString rest.
Proof.
  revert cur. induction l as [|c l IH]; intros cur Hl.
  - rewrite append_nil_l, append_nil_r. unfold endl. by rewrite append_cons.
  - unfold single_line in Hl. simpl in Hl.
    apply not_elem_of_cons in Hl as [Hc Hl].
    rewrite append_cons. simpl.
    destruct (Ascii.eqb_spec c newline) as [->|_]; [done|].
    rewrite IH by done. by rewrite append_assoc.
Qed.

Lemma getlines_unlines ls :
  Forall single_line ls -> getlines EmptyString (unlines ls) = ls.
Proof.
  induction 1 as [|l ls Hl _ IH]; simpl; [done|].
  by rewrite getlines_line, IH.
Qed.

Lemma find_cons needle c s :
  find needle (String c s) =
  if String.prefix needle (String c s) then Some O else S <$> find needle s.
Proof. reflexivity. Qed.

Lemma prefix_cons a s1 b s2 :
  String.prefix (String a s1) (String b s2) =
  if ascii_dec a b then String.prefix s1 s2 else false.
Proof. reflexivity. Qed.

Lemma find_after_digits d rest :
  "]"%char ∉ list_ascii_of_string d ->
  find "]: " (d +:+ "]: " +:+ rest) = Some (String.length d).
Proof.
  induction d as [|c d IH]; intros Hd.
  - rewrite append_nil_l, !append_cons, append_nil_l. simpl.
    by destruct rest.
  - simpl in Hd. apply not_elem_of_cons in Hd as [Hc Hd].
    rewrite append_cons, find_cons, prefix_cons.
    destruct (ascii_dec "]" c) as [<-|_]; [done|].
    by rewrite IH.
Qed.

(** [os << n] writes digits and at most a sign. *)
Lemma string_of_uint_chars d :
  Forall (fun c => c ≠ "]"%char ∧ c ≠ newline)
         (list_ascii_of_string (NilEmpty.string_of_uint d)).
Proof. induction d; simpl; constructor; auto; by split. Qed.

Lemma print_int_chars k :
  Forall (fun c => c ≠ "]"%char ∧ c ≠ newline) (list_ascii_of_string (print_int k)).
Proof.
  unfold print_int, NilZero.string_of_int, NilZero.string_of_uint.
  destruct (Z.to_int k) as [d|d].
  - destruct d; try apply string_of_uint_chars.
    simpl. constructor; [by split|constructor].
  - simpl. constructor; [by split|].
    destruct d; try apply string_of_uint_chars.
    simpl. constructor; [by split|constructor].
Qed.

Lemma print_int_no_bracket k : "]"%char ∉ list_ascii_of_string (print_int k).
Proof.
  intros Hin. pose proof (print_int_chars k) as Hc.
  rewrite Forall_forall in Hc. by destruct (Hc _ Hin).
Qed.

Lemma print_int_single_line k : single_line (print_int k).
Proof.
  intros Hin. pose proof (print_int_chars k) as Hc.
  rewrite Forall_forall in Hc. by destruct (Hc _ Hin).
Qed.

Lemma entry_line_single_line k e :
  (forall v, e = Some v -> single_line (T_insert v)) -> single_line (entry_line k e).
Proof.
  intros He. destruct e as [v|]; simpl.
  - apply (single_line_append "["); [no_newline|].
    apply single_line_append; [apply print_int_single_line|].
    apply (single_line_append "]: "); [no_newline|by apply He].
  - no_newline.
Qed.

(** ** Serialization *)

Lemma count_values_cons_Some v l : count_values (Some v :: l) = S (count_values l).
Proof. unfold count_values. by rewrite filter_cons_True. Qed.

Lemma count_values_cons_None l : count_values (None :: l) = count_values l.
Proof. unfold count_values. by rewrite filter_cons_False by (by intros []). Qed.

Lemma count_markers_cons_Some v l : count_markers (Some v :: l) = count_markers l.
Proof. unfold count_markers. by rewrite filter_cons_False. Qed.

Lemma count_markers_cons_None l : count_markers (None :: l) = S (count_markers l).
Proof. unfold count_markers. by rewrite filter_cons_True. Qed.

Lemma serialize_loop_spec l s k :
  fold_left serialize_step l (s, k) =
  (s +:+ unlines (document_lines k l), k + Z.of_nat (count_values l)).
Proof.
  revert s k. induction l as [|[v|] l IH]; intros s k; simpl.
  - rewrite append_nil_r. f_equal. unfold count_values. simpl. lia.
  - rewrite IH, count_values_cons_Some. unfold serialize_step. simpl.
    f_equal; [|lia]. by rewrite !append_assoc.
  - rewrite IH, count_values_cons_None. unfold serialize_step. simpl.
    f_equal. by rewrite !append_assoc.
Qed.

Lemma serialize_spec t :
  serialize t = Some (unlines (document_lines 0 (tree_flatten t))).
Proof.
  unfold serialize. rewrite linearize_total. simpl.
  by rewrite serialize_loop_spec.
Qed.

Lemma document_lines_length k l : length (document_lines k l) = length l.
Proof.
  revert k. induction l as [|[v|] l IH]; intros k; simpl; [done| |]; by rewrite IH.
Qed.

(** Line [i] is the line of entry [i], numbered by the value entries
    before it. *)
Lemma document_lines_lookup k l i :
  document_lines k l !! i =
  entry_line (k + Z.of_nat (count_values (take i l))) <$> l !! i.
Proof.
  revert k i. induction l as [|e l IH]; intros k [|i]; try done.
  - rewrite take_0. change (count_values []) with O. rewrite Z.add_0_r.
    by destruct e.
  - destruct e as [v|]; simpl; rewrite IH.
    + rewrite count_values_cons_Some. do 2 f_equal. lia.
    + by rewrite count_values_cons_None.
Qed.

(** ** Deserialization of what [serialize] wrote *)

Lemma deserialize_line_marker st :
  deserialize_line st "[X]" =
  (let st' := mkDeser (linearized_of st ++ [None]) (nodeCount st)
                      (eocTokenCount st + 1) in
   if decide (eocTokenCount st' > nodeCount st') then (st', Some UnbalancedMarkers)
   else (st', None)).
Proof. reflexivity. Qed.

Lemma entry_line_not_marker k v :
  String.eqb (entry_line k (Some v)) "[X]" = false.
Proof.
  apply String.eqb_neq. unfold entry_line. rewrite append_cons, append_nil_l.
  intros [= Heq].
  pose proof (print_int_no_bracket k) as Hk.
  destruct (print_int k) as [|c [|c' s]].
  - by rewrite append_nil_l, append_cons in Heq.
  - rewrite !append_cons, append_nil_l in Heq. by injection Heq.
  - rewrite !append_cons in Heq. injection Heq as _ Hc' _. subst c'.
    apply Hk. simpl. apply elem_of_cons. right. apply elem_of_cons. by left.
Qed.

Lemma deserialize_line_value st k v :
  parse_value (T_insert v) = Some v ->
  deserialize_line st (entry_line k (Some v)) =
  (mkDeser (linearized_of st ++ [Some v]) (nodeCount st + 1) (eocTokenCount st),
   None).
Proof.
  intros Hv. unfold deserialize_line. rewrite entry_line_not_marker.
  unfold entry_line. rewrite (append_cons "[" EmptyString), append_nil_l.
  rewrite (find_cons "["), (prefix_cons "[" EmptyString "[").
  destruct (ascii_dec "[" "[") as [_|?]; [|done].
  cbn [String.prefix]. rewrite find_cons.
  rewrite (prefix_cons "]" _ "["). 
  destruct (ascii_dec "]" "[") as [?|_]; [done|].
  rewrite find_after_digits by apply print_int_no_bracket. simpl.
  replace (S (String.length (print_int k)) + 3)%nat
    with (S (String.length (print_int k) + 3))%nat by lia.
  simpl. rewrite <- append_assoc.
  replace (String.length (print_int k) + 3)%nat
    with (String.length (print_int k +:+ "]: ")).
  2:{ generalize (print_int k). intros s. induction s as [|c s IHs]; [done|].
      rewrite append_cons. simpl. by rewrite IHs. }
  assert (forall s, String.prefix EmptyString s = true) as -> by (by intros []).
  by rewrite substr_append, Hv.
Qed.

Lemma balanced_flatten n d rest :
  0 ≤ d -> balanced d rest -> balanced d (flatten n ++ rest).
Proof.
  revert d rest. induction n as [v par cs i a IH] using Node_ind.
  intros d rest Hd Hrest. rewrite flatten_unfold. simpl.
  rewrite <- app_assoc.
  assert (forall d rest, 0 ≤ d -> balanced d rest ->
                         balanced d ((cs ≫= flatten) ++ rest)) as Hcs.
  { clear d rest Hd Hrest. induction IH as [|c cs Hc _ IHcs]; intros d rest Hd Hrest.
    - done.
    - rewrite bind_cons, <- app_assoc. apply Hc; [done|]. by apply IHcs. }
  apply Hcs; [lia|]. simpl. split; [lia|].
  by replace (d + 1 - 1) with d by lia.
Qed.

Lemma document_lines_single_line k l :
  (forall v, Some v ∈ l -> single_line (T_insert v)) ->
  Forall single_line (document_lines k l).
Proof.
  revert k. induction l as [|e l IH]; intros k Hl; [constructor|].
  assert (Forall single_line
            (document_lines (match e with Some _ => k + 1 | None => k end) l))
    as Hrest.
  { apply IH. intros v Hv. apply Hl. apply elem_of_cons. by right. }
  assert (single_line (entry_line k e)) as He.
  { apply entry_line_single_line. intros v ->. apply Hl. apply elem_of_cons. by left. }
  destruct e; simpl; by constructor.
Qed.

(** The [try] block on a document written by [serialize]: no line throws,
    every entry is read back, and the counters are compared at the end. *)
Lemma deserialize_lines_document l k st :
  (forall v, Some v ∈ l -> parse_value (T_insert v) = Some v) ->
  balanced (nodeCount st - eocTokenCount st) l ->
  deserialize_lines (document_lines k l) st =
  (let st' := mkDeser (linearized_of st ++ l)
                      (nodeCount st + Z.of_nat (count_values l))
                      (eocTokenCount st + Z.of_nat (count_markers l)) in
   if decide (nodeCount st' ≠ eocTokenCount st') then (st', Some UnbalancedMarkers)
   else (st', None)).
Proof.
  revert k st. induction l as [|[v|] l IH]; intros k st Hl Hbal.
  - destruct st as [lin nc ec]. simpl. rewrite app_nil_r.
    change (count_values []) with O. change (count_markers []) with O.
    by rewrite !Z.add_0_r.
  - change (document_lines k (Some v :: l))
      with (entry_line k (Some v) :: document_lines (k + 1) l).
    cbn [deserialize_lines].
    rewrite deserialize_line_value
      by (apply Hl; apply elem_of_cons; by left).
    rewrite IH.
    + simpl. rewrite count_values_cons_Some, count_markers_cons_Some.
      rewrite <- app_assoc. simpl.
      replace (nodeCount st + 1 + Z.of_nat (count_values l))
        with (nodeCount st + Z.of_nat (S (count_values l))) by lia. done.
    + intros w Hw. apply Hl. apply elem_of_cons. by right.
    + simpl in *. by replace (nodeCount st + 1 - eocTokenCount st)
        with (nodeCount st - eocTokenCount st + 1) by lia.
  - change (document_lines k (None :: l)) with ("[X]" :: document_lines k l).
    cbn [deserialize_lines].
    rewrite deserialize_line_marker. simpl in Hbal. destruct Hbal as [Hd Hbal].
    cbn zeta. cbn [nodeCount eocTokenCount]. rewrite decide_False by lia.
    rewrite IH.
    + simpl. rewrite count_values_cons_None, count_markers_cons_None.
      rewrite <- app_assoc. simpl.
      replace (eocTokenCount st + 1 + Z.of_nat (count_markers l))
        with (eocTokenCount st + Z.of_nat (S (count_markers l))) by lia. done.
    + intros w Hw. apply Hl. apply elem_of_cons. by right.
    + simpl. by replace (nodeCount st - (eocTokenCount st + 1))
        with (nodeCount st - eocTokenCount st - 1) by lia.
Qed.

Lemma flatten_Some_value n v : Some v ∈ flatten n -> v ∈ value <$> preorder n.
Proof.
  intros Hin. rewrite <- flatten_values. apply list_elem_of_omap.
  exists (Some v). done.
Qed.

(** Reading back what [serialize] wrote hands [delinearize] the
    linearized form, and nothing is printed to [std::cerr]. *)
Lemma deserialize_serialize t :
  (forall v, v ∈ value <$> nodes t -> faithful v) ->
  exists text, serialize t = Some text ∧
               deserialize text = (None, delinearize (tree_flatten t)).
Proof.
  intros Hv. exists (unlines (document_lines 0 (tree_flatten t))).
  split; [apply serialize_spec|].
  assert (forall v, Some v ∈ tree_flatten t -> faithful v) as Hf.
  { intros v Hin. apply Hv. unfold tree_flatten, nodes in *.
    destruct (root t); [by apply flatten_Some_value|by apply elem_of_nil in Hin]. }
  unfold deserialize.
  rewrite getlines_unlines
    by (apply document_lines_single_line; intros v Hin; apply (Hf v Hin)).
  rewrite deserialize_lines_document.
  - simpl. unfold tree_flatten. destruct (root t) as [r|]; [|done].
    rewrite flatten_count_values, flatten_count_markers.
    by rewrite decide_False by lia.
  - intros v Hin. apply (Hf v Hin).
  - simpl. unfold tree_flatten. destruct (root t) as [r|]; [|done].
    rewrite <- (app_nil_r (flatten r)). by apply balanced_flatten.
Qed.

(** ** Delinearization *)

Lemma Inv_root_ID t r : Inv t -> root t = Some r -> getRootID t ≠ -1.
Proof.
  intros HI Hr. unfold getRootID. rewrite Hr.
  assert (ID r ∈ ID <$> nodes t) as Hin.
  { rewrite (nodes_root t r Hr). apply list_elem_of_fmap_2, self_in_preorder. }
  apply (inv_id_range t HI) in Hin. lia.
Qed.

Lemma delinearize_loop_value v rest t x C :
  Inv t -> root t = Some (plug x C) ->
  delinearize_loop (Some v :: rest) t (ID x :: (f_ID <$> C)) =
  delinearize_loop rest (appendNode (ID x) v t).1
                   (nextID t :: ID x :: (f_ID <$> C)).
Proof.
  intros HI Hr. simpl. rewrite decide_False by (by apply (Inv_root_ID t _ HI Hr)).
  by rewrite (appendNode_at x C v t HI Hr).
Qed.

Lemma add_children_nil n : add_children [] n = n.
Proof. destruct n. unfold add_children. simpl. by rewrite app_nil_r. Qed.

Lemma add_children_push c cs n :
  add_children cs (push_back c n) = add_children (c :: cs) n.
Proof. unfold add_children, push_back. simpl. by rewrite <- app_assoc. Qed.

(** A forest is grafted tree by tree. *)
Lemma grafts_forest cs0 :
  Forall grafts cs0 ->
  forall t y C rest,
    Inv t -> root t = Some (plug y C) ->
    exists t' cs,
      delinearize_loop ((cs0 ≫= flatten) ++ rest) t (ID y :: (f_ID <$> C)) =
      delinearize_loop rest t' (ID y :: (f_ID <$> C)) ∧
      Inv t' ∧ root t' = Some (plug (add_children cs y) C) ∧
      shape <$> (cs ≫= preorder) = shape <$> (cs0 ≫= preorder) ∧
      length cs = length cs0 ∧
      ID <$> (cs ≫= preorder) =
        seqZ (nextID t) (Z.of_nat (length (cs0 ≫= preorder))) ∧
      nextID t' = nextID t + Z.of_nat (length (cs0 ≫= preorder)).
Proof.
  induction 1 as [|c0 cs0 Hc0 _ IH]; intros t y C rest HI Hr.
  - exists t, []. rewrite add_children_nil. simpl.
    split_and!; try done. lia.
  - rewrite bind_cons, <- app_assoc.
    destruct (Hc0 t y C ((cs0 ≫= flatten) ++ rest) HI Hr)
      as (t1 & c & Hloop1 & HI1 & Hr1 & Hsh1 & Hid1 & Hn1).
    destruct (IH t1 (push_back c y) C rest HI1 Hr1)
      as (t2 & cs & Hloop2 & HI2 & Hr2 & Hsh2 & Hlen2 & Hid2 & Hn2).
    exists t2, (c :: cs). rewrite Hloop1. simpl in Hloop2. rewrite Hloop2.
    rewrite add_children_push in Hr2.
    rewrite !bind_cons, !fmap_app, !length_app, Hsh1, Hsh2, Hid1, Hid2, Hn2, Hn1.
    split_and!; try done.
    + simpl. by rewrite Hlen2.
    + rewrite Nat2Z.inj_add, seqZ_app by lia. done.
    + lia.
Qed.

Lemma grafts_all n0 : grafts n0.
Proof.
  induction n0 as [v par0 cs0 i0 a0 IH] using Node_ind.
  intros t x C rest HI Hr.
  rewrite flatten_unfold. cbn [value children].
  rewrite <- app_comm_cons, <- app_assoc.
  rewrite (delinearize_loop_value v _ t x C HI Hr).
  pose proof (appendNode_Inv (ID x) v t HI) as HI1.
  rewrite (appendNode_at x C v t HI Hr) in HI1 |- *. simpl in HI1 |- *.
  set (c0 := mkNode v (Some (addr x)) [] (nextID t) (new_Node_addr (live t))) in *.
  set (t1 := mkTree _ _ _) in *.
  assert (root t1 = Some (plug c0 (frame_of x :: C))) as Hr1 by done.
  destruct (grafts_forest cs0 IH t1 c0 (frame_of x :: C) (None :: rest) HI1 Hr1)
    as (t2 & cs & Hloop & HI2 & Hr2 & Hsh & Hlen & Hid & Hn).
  exists t2, (add_children cs c0).
  change (nextID t :: ID x :: (f_ID <$> C))
    with (ID c0 :: (f_ID <$> (frame_of x :: C))).
  rewrite Hloop. simpl in Hn, Hid.
  split_and!; try done.
  - rewrite preorder_unfold, fmap_cons. simpl. rewrite Hsh.
    unfold shape at 1. simpl. by rewrite Hlen.
  - rewrite preorder_unfold, fmap_cons. simpl. rewrite Hid.
    rewrite (seqZ_cons (nextID t)) by lia. f_equal. f_equal; lia.
  - rewrite Hn. lia.
Qed.

(** [delinearize] on the linearized form of a tree. *)
Lemma delinearize_flatten r0 :
  T_compatible_check = true ->
  exists t' r',
    delinearize (flatten r0) = Ok t' ∧ Inv t' ∧ root t' = Some r' ∧
    shape <$> preorder r' = shape <$> preorder r0 ∧
    ID <$> preorder r' = seqZ 0 (Z.of_nat (length (preorder r0))).
Proof.
  intros Hcheck. unfold delinearize, Tree_new. rewrite Hcheck.
  destruct r0 as [v par0 cs0 i0 a0]. rewrite flatten_unfold.
  cbn [value children delinearize_loop].
  change (getRootID (mkTree None ∅ 0)) with (-1).
  destruct (decide (-1 = -1)) as [_|?]; [|done].
  pose proof (setRoot_Inv v _ Inv_empty) as HI1.
  rewrite (setRoot_ok v (mkTree None ∅ 0) eq_refl) in HI1 |- *. simpl in HI1.
  cbn [nextID nodeMap fst snd].
  set (a := new_Node_addr (live (mkTree None ∅ 0))) in *.
  set (c0 := mkNode v None [] 0 a) in *.
  set (t1 := mkTree (Some c0) _ _) in *.
  assert (root t1 = Some (plug c0 [])) as Hr1 by done.
  destruct (grafts_forest cs0 (proj2 (Forall_forall _ _) (fun n _ => grafts_all n))
              t1 c0 [] [None] HI1 Hr1)
    as (t2 & cs & Hloop & HI2 & Hr2 & Hsh & Hlen & Hid & Hn).
  change (getRootID t1 :: []) with (ID c0 :: (f_ID <$> [])).
  rewrite Hloop. simpl.
  exists t2, (add_children cs c0). split_and!; try done.
  - rewrite !preorder_unfold, !fmap_cons. simpl. rewrite Hsh.
    unfold shape at 1 3. simpl. by rewrite Hlen.
  - rewrite !preorder_unfold, !fmap_cons. simpl. rewrite Hid. simpl.
    rewrite (seqZ_cons 0) by lia. f_equal. f_equal; lia.
Qed.

(** ** What the accessors return *)

Lemma views_unfold n : views n = view n :: (children n ≫= views).
Proof.
  unfold views. rewrite preorder_unfold, fmap_cons. f_equal.
  apply fmap_bind_list.
Qed.

(** Replacing a node by one with the same id changes no view outside
    it. *)
Lemma views_plug x x' C :
  ID x = ID x' ->
  exists pre post,
    views (plug x C) = pre ++ views x ++ post ∧
    views (plug x' C) = pre ++ views x' ++ post.
Proof.
  revert x x'. induction C as [|fr C IHC]; intros x x' Hid; simpl.
  - exists [], []. by rewrite !app_nil_r.
  - destruct (IHC (fill fr x) (fill fr x') eq_refl) as (pre & post & -> & ->).
    exists (pre ++ view (fill fr x) :: (f_left fr ≫= views)),
           ((f_right fr ≫= views) ++ post).
    rewrite !(views_unfold (fill fr _)). simpl.
    rewrite !bind_app, !bind_cons.
    assert (view (fill fr x') = view (fill fr x)) as ->.
    { unfold view, fill, frame_node. simpl. f_equal.
      by rewrite !fmap_app, !fmap_cons, Hid. }
    rewrite <- ?app_assoc. simpl. by rewrite <- ?app_assoc.
Qed.

Lemma view_observed t r w :
  Inv t -> root t = Some r -> w ∈ views r ->
  getValue (h_ID w.1) t = Ok (h_value w.1) ∧
  getChildrenIDs (h_ID w.1) t = Ok w.2.
Proof.
  intros HI Hr (n & -> & Hn)%list_elem_of_fmap.
  apply elem_of_preorder_plug in Hn as [C ->].
  unfold getValue, getChildrenIDs. simpl.
  by rewrite (Inv_index_plug t n C HI Hr), (Inv_deref t n C HI Hr).
Qed.




(** Under the invariant the ids that [getChildrenIDs] returns are ids of
    nodes of the tree. *)
Lemma getChildrenIDs_live i t cs :
  Inv t -> getChildrenIDs i t = Ok cs -> forall j, j ∈ cs -> j ∈ ID <$> nodes t.
Proof.
  intros HI. unfold getChildrenIDs, tree_deref.
  destruct (nodeMap t !! i) as [p|]; [|done].
  destruct (root t) as [r|] eqn:Hr; [|done]. simpl.
  destruct (deref p r) as [n|] eqn:Hd; [|done]. intros [= <-] j Hj.
  apply deref_elem in Hd as [Hn _].
  apply list_elem_of_fmap in Hj as (c & -> & Hc).
  rewrite (nodes_root t r Hr). apply list_elem_of_fmap_2.
  apply preorder_trans with n; [|done].
  apply child_in_preorder with c; [done|apply self_in_preorder].
Qed.

Lemma Inv_index_dom t i :
  Inv t -> is_Some (nodeMap t !! i) <-> i ∈ ID <$> nodes t.
Proof.
  intros HI. split.
  - intros [p Hp]. apply (inv_index t HI) in Hp.
    apply list_elem_of_fmap in Hp as (n & [= -> ->] & Hn).
    by apply list_elem_of_fmap_2.
  - intros (n & -> & Hn)%list_elem_of_fmap. exists (addr n).
    apply (inv_index t HI). by apply (list_elem_of_fmap_2 index_entry).
Qed.

(** No call on a tree that satisfies the invariant is undefined. *)
Lemma Tree_new_empty t0 : Tree_new = Ok t0 -> t0 = mkTree None ∅ 0.
Proof. unfold Tree_new. destruct T_compatible_check; congruence. Qed.

Lemma built_Inv ops t0 : Tree_new = Ok t0 -> Inv (run_ops ops t0).
Proof. intros ->%Tree_new_empty. apply run_ops_Inv, Inv_empty. Qed.

(** * The claims *)

(** C10. [operator[]] and [getValue] are the same function of the tree
    and the id: for every tree and every id they return the same thing;
    for an id that is not in [nodeMap] both throw the
    "Node with ID ... does not exist" exception for that id, and for an id
    in [nodeMap] both return the value of the node the entry points to. *)
Theorem subscript_getValue_equivalent (t : Tree) (nodeID : Z) :
  subscript nodeID t = getValue nodeID t ∧
  match nodeMap t !! nodeID with
  | None =>
      subscript nodeID t = Throw (NodeNotFound nodeID) ∧
      getValue nodeID t = Throw (NodeNotFound nodeID)
  | Some p =>
      match tree_deref t p with
      | Some n => subscript nodeID t = Ok (value n) ∧ getValue nodeID t = Ok (value n)
      | None => subscript nodeID t = Undefined ∧ getValue nodeID t = Undefined
      end
  end.
Proof.
  split; [reflexivity|]. unfold subscript, getValue.
  destruct (nodeMap t !! nodeID) as [p|]; [|done].
  by destruct (tree_deref t p).
Qed.

(** C9. On a tree without root [getRootID] is -1, and [removeNode(-1)]
    throws "The root node cannot be removed": the comparison with
    [getRootID()] comes before the lookup in [nodeMap]. The tree is left as
    it was. *)
Theorem removeNode_sentinel_on_empty (t : Tree) :
  root t = None ->
  getRootID t = -1 ∧ removeNode (-1) t = (t, Throw CannotRemoveRoot).
Proof.
  intros Hr. assert (getRootID t = -1) as Hid by (unfold getRootID; by rewrite Hr).
  split; [done|]. rewrite <- Hid at 1. apply removeNode_root.
Qed.

(** C8. Each of the three constructors first runs [T_compatible_check]:
    a default-constructed [T] is written with [<<], read back with [>>]
    into a second default-constructed [T], and the two are compared with
    [==]. When they compare equal the constructor returns a tree (empty
    for [Tree()], with the value at the root for the other two); when they
    do not, it throws and there is no tree. *)
Theorem constructors_check_payload (v : T) :
  let decoded := (T_extract (T_insert T_default) T_default).1 in
  if T_equal T_default decoded then
    Tree_new = Ok (mkTree None ∅ 0) ∧
    (exists t, Tree_of_value v = Ok t ∧ value <$> nodes t = [v]) ∧
    (exists t, Tree_of_rvalue v = Ok t ∧ value <$> nodes t = [v])
  else
    Tree_new = Throw IncompatiblePayloadType ∧
    Tree_of_value v = Throw IncompatiblePayloadType ∧
    Tree_of_rvalue v = Throw IncompatiblePayloadType.
Proof.
  unfold Tree_new, Tree_of_value, Tree_of_rvalue, T_compatible_check. cbv zeta.
  destruct (T_equal _ _); [|done].
  rewrite (setRoot_ok v (mkTree None ∅ 0) eq_refl).
  split_and!; [done| |]; eexists; split; done.
Qed.

(** C5. [linearize] returns the pre-order flattening [tree_flatten]: a
    node is its value, then its children left to right, then its
    end-of-children token. So the result has one value entry and one token
    per node, 2n entries for n nodes; the values are those of the nodes in
    pre-order; and for a node [m] with a child [c], the token of [c] comes
    after every entry of the descendants of [c] and before every entry of
    the children of [m] to the right of [c], which come before the token
    of [m]. *)
Theorem linearize_preorder_with_markers (t : Tree) :
  linearize t = Some (tree_flatten t) ∧
  tree_flatten t =
    match root t with
    | Some r => Some (value r) :: (children r ≫= flatten) ++ [None]
    | None => []
    end ∧
  length (tree_flatten t) = (2 * length (nodes t))%nat ∧
  count_values (tree_flatten t) = length (nodes t) ∧
  count_markers (tree_flatten t) = length (nodes t) ∧
  omap id (tree_flatten t) = value <$> nodes t ∧
  forall m l1 c l2,
    m ∈ nodes t -> children m = l1 ++ c :: l2 ->
    exists pre post,
      tree_flatten t =
      pre ++ Some (value m) :: (l1 ≫= flatten)
          ++ (Some (value c) :: (children c ≫= flatten) ++ [None])
          ++ (l2 ≫= flatten) ++ None :: post.
Proof.
  split; [apply linearize_total|].
  unfold tree_flatten, nodes. destruct (root t) as [r|].
  - split_and!.
    + apply flatten_unfold.
    + apply flatten_length.
    + apply flatten_count_values.
    + apply flatten_count_markers.
    + apply flatten_values.
    + apply flatten_siblings.
  - split_and!; try done. by intros m l1 c l2 ?%elem_of_nil.
Qed.

(** The three ways [removeNode] can go on a tree that satisfies the
    invariant. *)
Lemma removeNode_cases nodeID t :
  Inv t ->
  (nodeID = getRootID t ∧ removeNode nodeID t = (t, Throw CannotRemoveRoot)) ∨
  (nodeID ≠ getRootID t ∧ nodeMap t !! nodeID = None ∧
   removeNode nodeID t = (t, Throw (NodeNotFound nodeID))) ∨
  (nodeID ≠ getRootID t ∧
   exists x fr C,
     root t = Some (plug x (fr :: C)) ∧ ID x = nodeID ∧
     nodeMap t !! nodeID = Some (addr x) ∧
     removeNode nodeID t =
     (mkTree (Some (plug (frame_node fr (f_left fr ++ f_right fr)) C))
             (cleanupSubtree x (nodeMap t)) (nextID t),
      Ok tt)).
Proof.
  intros HI. destruct (decide (nodeID = getRootID t)) as [->|Hne].
  { left. split; [done|apply removeNode_root]. }
  right. destruct (nodeMap t !! nodeID) as [p|] eqn:Hp.
  - right. split; [done|].
    destruct (removeNode_ok nodeID t p HI Hne Hp) as (x & fr & C & Hr & Hid & Ha & Heq).
    exists x, fr, C. by subst p.
  - left. split_and!; try done. by apply removeNode_absent.
Qed.




Lemma delinearize_nil : T_compatible_check = true -> delinearize [] = Ok (mkTree None ∅ 0).
Proof. intros Hc. unfold delinearize, Tree_new. by rewrite Hc. Qed.

(** C1, as amended. For a tree made by [Tree()] and any [setRoot] and
    [appendNode] calls, in which every value has a text that is one line
    (no newline in it) and that [deserialize] reads back as the value:
    [serialize] returns a text, [deserialize] of that text prints nothing
    to [std::cerr] and returns a tree with the same values in pre-order
    and the same number of children at each node, whose ids are 0, 1, 2,
    ... in pre-order. *)
Theorem deserialize_serialize_rebuilds (ops : list op) (t0 : Tree) :
  Tree_new = Ok t0 ->
  Forall insertion ops ->
  let t := run_ops ops t0 in
  (forall v, v ∈ value <$> nodes t -> faithful v) ->
  exists text t',
    serialize t = Some text ∧
    deserialize text = (None, Ok t') ∧
    value <$> nodes t' = value <$> nodes t ∧
    (fun n => length (children n)) <$> nodes t' =
      (fun n => length (children n)) <$> nodes t ∧
    ID <$> nodes t' = seqZ 0 (Z.of_nat (length (nodes t))).
Proof.
  intros Hnew _ t Hv.
  assert (T_compatible_check = true) as Hcheck.
  { unfold Tree_new in Hnew. by destruct T_compatible_check. }
  destruct (deserialize_serialize t Hv) as (text & Hser & Hdes).
  exists text. rewrite Hdes. unfold tree_flatten, nodes.
  destruct (root t) as [r|].
  - destruct (delinearize_flatten r Hcheck) as (t' & r' & Hd & _ & Hr' & Hsh & Hid).
    exists t'. rewrite Hd, Hr'. split_and!; try done.
    + apply (f_equal (fmap fst)) in Hsh.
      by rewrite <- !list_fmap_compose in Hsh.
    + apply (f_equal (fmap snd)) in Hsh.
      by rewrite <- !list_fmap_compose in Hsh.
  - exists (mkTree None ∅ 0). by rewrite delinearize_nil.
Qed.

(** ** What [deserialize] can report to its caller *)

Lemma delinearize_loop_throws l t st e :
  delinearize_loop l t st = Throw e ->
  e = AlreadyHasRoot ∨ exists i, e = NodeNotFound i.
Proof.
  revert t st. induction l as [|[v|] l IH]; intros t st; simpl.
  - done.
  - case_decide.
    + unfold setRoot. destruct (root t); [intros [= <-]; by left|apply IH].
    + destruct st as [|top st]; [done|].
      unfold appendNode. destruct (nodeMap t !! top).
      * destruct (tree_deref t _); [apply IH|done].
      * intros [= <-]. right. eauto.
  - destruct st; apply IH.
Qed.

Lemma deserialize_never_throws_from_parsing s e :
  (deserialize s).2 = Throw e ->
  e = IncompatiblePayloadType ∨ e = AlreadyHasRoot ∨ exists i, e = NodeNotFound i.
Proof.
  unfold deserialize, delinearize, Tree_new. simpl.
  destruct T_compatible_check.
  - intros ?%delinearize_loop_throws. by right.
  - intros [= <-]. by left.
Qed.

(** What [serialize] writes, line by line. *)
Lemma serialize_line_by_line t :
  exists linearized lines,
    linearize t = Some linearized ∧
    serialize t = Some (unlines lines) ∧
    length lines = length linearized ∧
    forall i,
      lines !! i =
      entry_line (Z.of_nat (count_values (take i linearized))) <$> linearized !! i.
Proof.
  exists (tree_flatten t), (document_lines 0 (tree_flatten t)). split_and!.
  - apply linearize_total.
  - apply serialize_spec.
  - apply document_lines_length.
  - intros i. by rewrite document_lines_lookup, Z.add_0_l.
Qed.

(** When the text of every value is one line, the lines that [serialize]
    writes are the lines of its text. *)
Lemma serialize_one_line_each t :
  (forall v, v ∈ value <$> nodes t -> single_line (T_insert v)) ->
  exists linearized lines text,
    linearize t = Some linearized ∧
    serialize t = Some text ∧
    text = unlines lines ∧
    getlines EmptyString text = lines ∧
    Forall single_line lines ∧
    length lines = length linearized ∧
    forall i,
      lines !! i =
      entry_line (Z.of_nat (count_values (take i linearized))) <$> linearized !! i.
Proof.
  intros Hline.
  assert (Forall single_line (document_lines 0 (tree_flatten t))) as Hlines.
  { apply document_lines_single_line. intros v Hin. apply Hline.
    unfold tree_flatten, nodes in *.
    destruct (root t); [by apply flatten_Some_value|by apply elem_of_nil in Hin]. }
  exists (tree_flatten t), (document_lines 0 (tree_flatten t)),
         (unlines (document_lines 0 (tree_flatten t))).
  split_and!.
  - apply linearize_total.
  - apply serialize_spec.
  - done.
  - by apply getlines_unlines.
  - done.
  - apply document_lines_length.
  - intros i. by rewrite document_lines_lookup, Z.add_0_l.
Qed.

(** * Further properties of the code *)

(** ** [delinearize] on any sequence *)

Lemma values_of_heads n : value <$> preorder n = h_value <$> heads n.
Proof. unfold heads. by rewrite <- list_fmap_compose. Qed.

Lemma ctx_post_right_empty C :
  Forall (fun fr => f_right fr = []) C -> ctx_post C = [].
Proof.
  induction 1 as [|fr C Hfr _ IH]; simpl; [done|]. by rewrite Hfr, IH.
Qed.

Lemma heads_plug_last c x C :
  Forall (fun fr => f_right fr = []) C ->
  heads (plug (push_back c x) C) = heads (plug x C) ++ heads c.
Proof.
  intros HC. rewrite !heads_plug, heads_push_back, (ctx_post_right_empty C HC).
  by rewrite !app_nil_r, !app_assoc.
Qed.

Lemma omap_id_nil_count (l : list (option T)) :
  count_values l = length (omap id l).
Proof.
  induction l as [|[v|] l IH]; [done| |].
  - rewrite count_values_cons_Some. simpl. by rewrite IH.
  - by rewrite count_values_cons_None.
Qed.

(** Once the root's token has been read, tokens are skipped and a value
    is undefined behaviour. *)
Lemma delinearize_loop_closed l t r :
  Inv t -> root t = Some r ->
  delinearize_loop l t [] = if overruns true 0 l then Undefined else Ok t.
Proof.
  intros HI Hr. induction l as [|[v|] l IH]; simpl; [done| |done].
  by rewrite decide_False by (by apply (Inv_root_ID t r)).
Qed.

Lemma overruns_no_values rooted d (l : list (option T)) :
  overruns rooted d l = false -> rooted = true -> d = O -> omap id l = [].
Proof.
  revert d. induction l as [|[v|] l IH]; intros d Hl -> ->; simpl in *; [done..|].
  by apply (IH O).
Qed.

(** While [parentIDs] is not empty: every value is appended as the last
    node in pre-order, with the next id. *)
Lemma delinearize_loop_open l :
  forall t x C,
    Inv t -> root t = Some (plug x C) ->
    Forall (fun fr => f_right fr = []) C ->
    if overruns true (S (length C)) l
    then delinearize_loop l t (ID x :: (f_ID <$> C)) = Undefined
    else exists t',
        delinearize_loop l t (ID x :: (f_ID <$> C)) = Ok t' ∧ Inv t' ∧
        value <$> nodes t' = (value <$> nodes t) ++ omap id l ∧
        ID <$> nodes t' =
          (ID <$> nodes t) ++ seqZ (nextID t) (Z.of_nat (count_values l)) ∧
        nextID t' = nextID t + Z.of_nat (count_values l).
Proof.
  induction l as [|[v|] l IH]; intros t x C HI Hr HC.
  - simpl. exists t. change (count_values []) with O. simpl.
    rewrite !app_nil_r. split_and!; try done. lia.
  - rewrite (delinearize_loop_value v l t x C HI Hr).
    pose proof (appendNode_Inv (ID x) v t HI) as HI1.
    rewrite (appendNode_at x C v t HI Hr) in HI1 |- *. simpl in HI1.
    cbn [fst].
    set (c0 := mkNode v (Some (addr x)) [] (nextID t) (new_Node_addr (live t))) in *.
    set (t1 := mkTree (Some (plug (push_back c0 x) C)) _ _) in *.
    assert (root t1 = Some (plug c0 (frame_of x :: C))) as Hr1 by done.
    assert (Forall (fun fr => f_right fr = []) (frame_of x :: C)) as HC1
      by (by constructor).
    specialize (IH t1 c0 (frame_of x :: C) HI1 Hr1 HC1).
    change (overruns true (S (length C)) (Some v :: l))
      with (overruns true (S (length (frame_of x :: C))) l).
    change (nextID t :: ID x :: (f_ID <$> C))
      with (ID c0 :: (f_ID <$> (frame_of x :: C))).
    destruct (overruns true (S (length (frame_of x :: C))) l); [done|].
    destruct IH as (t' & Hloop & HI' & Hval & Hid & Hnext).
    assert (value <$> nodes t1 = (value <$> nodes t) ++ [v]) as Hv1.
    { rewrite (nodes_root t _ Hr), (nodes_root t1 _ eq_refl).
      by rewrite !values_of_heads, (heads_plug_last c0 x C HC), fmap_app. }
    assert (ID <$> nodes t1 = (ID <$> nodes t) ++ [nextID t]) as Hi1.
    { rewrite (nodes_root t _ Hr), (nodes_root t1 _ eq_refl).
      by rewrite !ID_heads, (heads_plug_last c0 x C HC), fmap_app. }
    exists t'. split_and!; try done.
    + rewrite Hval, Hv1. by rewrite <- app_assoc.
    + rewrite Hid, Hi1, <- app_assoc. f_equal.
      rewrite count_values_cons_Some.
      rewrite (seqZ_cons (nextID t)) by lia. simpl. do 2 f_equal; lia.
    + rewrite Hnext, count_values_cons_Some. simpl. lia.
  - rewrite count_values_cons_None.
    change (omap id (None :: l)) with (omap id l).
    destruct C as [|fr C].
    + cbn [delinearize_loop overruns length pred fmap list_fmap].
      rewrite (delinearize_loop_closed l t _ HI Hr).
      destruct (overruns true 0 l) eqn:Hov; [done|].
      exists t. rewrite omap_id_nil_count.
      rewrite (overruns_no_values _ _ _ Hov eq_refl eq_refl).
      simpl. rewrite !app_nil_r. split_and!; try done. lia.
    + inversion HC as [|? ? Hfr HC']; subst.
      apply (IH t (fill fr x) C HI Hr HC').
Qed.

Lemma delinearize_loop_start l :
  if overruns false 0 l
  then delinearize_loop l (mkTree None ∅ 0) [] = Undefined
  else exists t',
      delinearize_loop l (mkTree None ∅ 0) [] = Ok t' ∧ Inv t' ∧
      value <$> nodes t' = omap id l ∧
      ID <$> nodes t' = seqZ 0 (Z.of_nat (count_values l)) ∧
      nextID t' = Z.of_nat (count_values l).
Proof.
  induction l as [|[v|] l IH].
  - simpl. exists (mkTree None ∅ 0). split_and!; try done. apply Inv_empty.
  - cbn [delinearize_loop overruns].
    change (getRootID (mkTree None ∅ 0)) with (-1).
    destruct (decide (-1 = -1)) as [_|?]; [|done].
    pose proof (setRoot_Inv v _ Inv_empty) as HI1.
    rewrite (setRoot_ok v (mkTree None ∅ 0) eq_refl) in HI1 |- *. simpl in HI1.
    cbn [nextID nodeMap fst snd].
    set (a := new_Node_addr (live (mkTree None ∅ 0))) in *.
    set (c0 := mkNode v None [] 0 a) in *.
    set (t1 := mkTree (Some c0) _ _) in *.
    assert (root t1 = Some (plug c0 [])) as Hr1 by done.
    pose proof (delinearize_loop_open l t1 c0 [] HI1 Hr1 (Forall_nil_2 _)) as Hopen.
    change (getRootID t1 :: []) with (ID c0 :: (f_ID <$> [])).
    simpl length in Hopen.
    destruct (overruns true 1 l); [done|].
    destruct Hopen as (t' & Hloop & HI' & Hval & Hid & Hnext).
    exists t'. rewrite count_values_cons_Some. split_and!; try done.
    + rewrite Hid. simpl. rewrite (seqZ_cons 0) by lia. simpl.
      do 2 f_equal; lia.
    + rewrite Hnext. simpl. lia.
  - cbn [delinearize_loop overruns]. simpl pred.
    by rewrite count_values_cons_None.
Qed.

(** X1. [delinearize] on any sequence, for a payload type that passes
    the constructor's check: it never throws. It is undefined exactly when
    a value comes after the token that closes the root ([overruns]).
    Otherwise it returns a tree whose values in pre-order are the values
    of the sequence in order, whose ids in pre-order are 0, 1, 2, ..., and
    whose [nodeMap] holds exactly these ids; tokens that come when
    [parentIDs] is empty are skipped. *)
Theorem delinearize_on_any_sequence (l : list (option T)) :
  T_compatible_check = true ->
  if overruns false 0 l then delinearize l = Undefined
  else exists t',
      delinearize l = Ok t' ∧
      value <$> nodes t' = omap id l ∧
      ID <$> nodes t' = seqZ 0 (Z.of_nat (count_values l)) ∧
      nextID t' = Z.of_nat (count_values l) ∧
      forall i, is_Some (nodeMap t' !! i) <-> i ∈ ID <$> nodes t'.
Proof.
  intros Hcheck. unfold delinearize, Tree_new. rewrite Hcheck.
  pose proof (delinearize_loop_start l) as Hstart.
  destruct (overruns false 0 l); [done|].
  destruct Hstart as (t' & Hloop & HI' & Hval & Hid & Hnext).
  exists t'. split_and!; try done. intros i. by apply Inv_index_dom.
Qed.

(** [delinearize] on the linearized form of a tree followed by more
    entries: the tree is rebuilt and the loop goes on with an empty
    [parentIDs]. *)
Lemma delinearize_flatten_then r0 rest :
  T_compatible_check = true ->
  exists t' r',
    delinearize (flatten r0 ++ rest) = delinearize_loop rest t' [] ∧
    Inv t' ∧ root t' = Some r' ∧
    shape <$> preorder r' = shape <$> preorder r0 ∧
    ID <$> preorder r' = seqZ 0 (Z.of_nat (length (preorder r0))).
Proof.
  intros Hcheck. unfold delinearize, Tree_new. rewrite Hcheck.
  destruct r0 as [v par0 cs0 i0 a0]. rewrite flatten_unfold.
  cbn [value children]. rewrite <- app_comm_cons, <- app_assoc.
  cbn [delinearize_loop].
  change (getRootID (mkTree None ∅ 0)) with (-1).
  destruct (decide (-1 = -1)) as [_|?]; [|done].
  pose proof (setRoot_Inv v _ Inv_empty) as HI1.
  rewrite (setRoot_ok v (mkTree None ∅ 0) eq_refl) in HI1 |- *. simpl in HI1.
  cbn [nextID nodeMap fst snd].
  set (a := new_Node_addr (live (mkTree None ∅ 0))) in *.
  set (c0 := mkNode v None [] 0 a) in *.
  set (t1 := mkTree (Some c0) _ _) in *.
  assert (root t1 = Some (plug c0 [])) as Hr1 by done.
  destruct (grafts_forest cs0 (proj2 (Forall_forall _ _) (fun n _ => grafts_all n))
              t1 c0 [] ([None] ++ rest) HI1 Hr1)
    as (t2 & cs & Hloop & HI2 & Hr2 & Hsh & Hlen & Hid & Hn).
  change (getRootID t1 :: []) with (ID c0 :: (f_ID <$> [])).
  rewrite Hloop. simpl.
  exists t2, (add_children cs c0). split_and!; try done.
  - rewrite !preorder_unfold, !fmap_cons. simpl. rewrite Hsh.
    unfold shape at 1 3. simpl. by rewrite Hlen.
  - rewrite !preorder_unfold, !fmap_cons. simpl. rewrite Hid. simpl.
    rewrite (seqZ_cons 0) by lia. f_equal. f_equal; lia.
Qed.

(** ** [deserialize] on damaged documents *)

Lemma unlines_app ls1 ls2 : unlines (ls1 ++ ls2) = unlines ls1 +:+ unlines ls2.
Proof.
  induction ls1 as [|l ls1 IH]; [done|]. simpl. by rewrite IH, !append_assoc.
Qed.

Lemma getlines_unlines_then ls rest :
  Forall single_line ls ->
  getlines EmptyString (unlines ls +:+ rest) = ls ++ getlines EmptyString rest.
Proof.
  induction 1 as [|l ls Hl _ IH]; [done|]. simpl.
  by rewrite !append_assoc, getlines_line, IH.
Qed.

(** The lines that [serialize] writes for the entries [l] are read back
    one by one while the tokens do not outnumber the values. *)
Lemma deserialize_lines_prefix l k st more :
  (forall v, Some v ∈ l -> parse_value (T_insert v) = Some v) ->
  balanced (nodeCount st - eocTokenCount st) l ->
  deserialize_lines (document_lines k l ++ more) st =
  deserialize_lines more
    (mkDeser (linearized_of st ++ l)
             (nodeCount st + Z.of_nat (count_values l))
             (eocTokenCount st + Z.of_nat (count_markers l))).
Proof.
  revert k st. induction l as [|[v|] l IH]; intros k st Hl Hbal.
  - destruct st as [lin nc ec]. simpl. rewrite app_nil_r.
    change (count_values []) with O. change (count_markers []) with O.
    by rewrite !Z.add_0_r.
  - change (document_lines k (Some v :: l))
      with (entry_line k (Some v) :: document_lines (k + 1) l).
    rewrite <- app_comm_cons. cbn [deserialize_lines].
    rewrite deserialize_line_value
      by (apply Hl; apply elem_of_cons; by left).
    rewrite IH.
    + simpl. rewrite count_values_cons_Some, count_markers_cons_Some.
      rewrite <- app_assoc. simpl.
      replace (nodeCount st + 1 + Z.of_nat (count_values l))
        with (nodeCount st + Z.of_nat (S (count_values l))) by lia. done.
    + intros w Hw. apply Hl. apply elem_of_cons. by right.
    + simpl in *. by replace (nodeCount st + 1 - eocTokenCount st)
        with (nodeCount st - eocTokenCount st + 1) by lia.
  - change (document_lines k (None :: l)) with ("[X]" :: document_lines k l).
    rewrite <- app_comm_cons. cbn [deserialize_lines].
    rewrite deserialize_line_marker. simpl in Hbal. destruct Hbal as [Hd Hbal].
    cbn zeta. cbn [nodeCount eocTokenCount]. rewrite decide_False by lia.
    rewrite IH.
    + simpl. rewrite count_values_cons_None, count_markers_cons_None.
      rewrite <- app_assoc. simpl.
      replace (eocTokenCount st + 1 + Z.of_nat (count_markers l))
        with (eocTokenCount st + Z.of_nat (S (count_markers l))) by lia. done.
    + intros w Hw. apply Hl. apply elem_of_cons. by right.
    + simpl. by replace (nodeCount st - (eocTokenCount st + 1))
        with (nodeCount st - eocTokenCount st - 1) by lia.
Qed.

Lemma deserialize_line_malformed st line :
  malformed line -> deserialize_line st line = (st, Some MalformedLine).
Proof.
  intros [Hx Hshape]. unfold deserialize_line. rewrite Hx.
  destruct (find "[" line) as [[|n]|] eqn:Hb; try done.
  destruct Hshape as [? | Hc]; [done|]. by rewrite Hc.
Qed.

(** X2. A document cut short by a malformed line: when the lines before
    it are lines that [serialize] writes for entries [l] (with values
    that read back, and tokens never outnumbering values), [deserialize]
    prints the malformed-line error, reads nothing after that line, and
    returns what [delinearize] makes of [l]. *)
Theorem deserialize_stops_at_malformed_line
    (l : list (option T)) (bad rest : string) :
  (forall v, Some v ∈ l -> faithful v) ->
  balanced 0 l ->
  malformed bad -> single_line bad ->
  deserialize (unlines (document_lines 0 l) +:+ bad +:+ endl +:+ rest) =
  (Some MalformedLine, delinearize l).
Proof.
  intros Hl Hbal Hbad Hline. unfold deserialize.
  rewrite getlines_unlines_then
    by (apply document_lines_single_line; intros v Hv; apply (Hl v Hv)).
  rewrite getlines_line by done. rewrite append_nil_l.
  rewrite deserialize_lines_prefix; [|intros v Hv; apply (Hl v Hv)|done].
  cbn [deserialize_lines]. rewrite deserialize_line_malformed by done.
  by simpl.
Qed.

Lemma tree_flatten_faithful t :
  (forall v, v ∈ value <$> nodes t -> faithful v) ->
  forall v, Some v ∈ tree_flatten t -> faithful v.
Proof.
  intros Hv v Hin. apply Hv. unfold tree_flatten, nodes in *.
  destruct (root t); [by apply flatten_Some_value|by apply elem_of_nil in Hin].
Qed.

Lemma balanced_tree_flatten t d more :
  0 ≤ d -> balanced d more -> balanced d (tree_flatten t ++ more).
Proof.
  intros Hd Hm. unfold tree_flatten. destruct (root t) as [r|]; [|done].
  by apply balanced_flatten.
Qed.

Lemma tree_flatten_counts t :
  count_markers (tree_flatten t) = count_values (tree_flatten t).
Proof.
  unfold tree_flatten. destruct (root t) as [r|]; [|done].
  by rewrite flatten_count_values, flatten_count_markers.
Qed.

(** X3. Two saved trees in one text. When both trees have a root and
    all values have faithful one-line texts, the text of the first
    followed by the text of the second passes every check of
    [deserialize] (nothing is printed): the counts of values and tokens
    agree. But [delinearize] then meets the second root when the first is
    closed and [parentIDs] is empty, and calls [top()] on the empty
    stack. *)
Theorem deserialize_two_documents_undefined (t1 t2 : Tree) :
  T_compatible_check = true ->
  is_Some (root t1) -> is_Some (root t2) ->
  (forall v, v ∈ value <$> nodes t1 -> faithful v) ->
  (forall v, v ∈ value <$> nodes t2 -> faithful v) ->
  exists text1 text2,
    serialize t1 = Some text1 ∧ serialize t2 = Some text2 ∧
    deserialize (text1 +:+ text2) = (None, Undefined).
Proof.
  intros Hcheck [r1 Hr1] [r2 Hr2] Hv1 Hv2.
  exists (unlines (document_lines 0 (tree_flatten t1))),
         (unlines (document_lines 0 (tree_flatten t2))).
  split; [apply serialize_spec|]. split; [apply serialize_spec|].
  pose proof (tree_flatten_faithful t1 Hv1) as Hf1.
  pose proof (tree_flatten_faithful t2 Hv2) as Hf2.
  unfold deserialize. rewrite <- unlines_app.
  rewrite getlines_unlines.
  2:{ apply Forall_app. split; apply document_lines_single_line.
      - intros v Hv. apply (Hf1 v Hv).
      - intros v Hv. apply (Hf2 v Hv). }
  rewrite deserialize_lines_prefix.
  2:{ intros v Hv. apply (Hf1 v Hv). }
  2:{ rewrite <- (app_nil_r (tree_flatten t1)).
      by apply balanced_tree_flatten. }
  rewrite deserialize_lines_document.
  2:{ intros v Hv. apply (Hf2 v Hv). }
  2:{ cbn [nodeCount eocTokenCount]. rewrite tree_flatten_counts.
      rewrite <- (app_nil_r (tree_flatten t2)).
      apply balanced_tree_flatten; [lia|done]. }
  cbn [nodeCount eocTokenCount linearized_of app]. cbn zeta.
  cbn [nodeCount eocTokenCount linearized_of].
  rewrite !tree_flatten_counts. rewrite decide_False by lia.
  cbn [fst snd linearized_of]. f_equal.
  unfold tree_flatten. rewrite Hr1, Hr2.
  destruct (delinearize_flatten_then r1 (flatten r2) Hcheck)
    as (t' & r' & -> & HI & Hr' & _).
  rewrite (delinearize_loop_closed _ _ _ HI Hr').
  destruct r2. by rewrite flatten_unfold.
Qed.

(** X4. One token too many at the end of a saved tree. For a tree whose
    values have faithful one-line texts, [deserialize] of the text that
    [serialize] returns followed by a line ["[X]"] and anything after it
    prints the error for too many tokens, reads nothing after that line,
    and returns the whole tree all the same: same values and numbers of
    children in pre-order, ids 0, 1, 2, ... *)
Theorem deserialize_extra_token_keeps_tree (t : Tree) (rest : string) :
  T_compatible_check = true ->
  (forall v, v ∈ value <$> nodes t -> faithful v) ->
  exists text t',
    serialize t = Some text ∧
    deserialize (text +:+ "[X]" +:+ endl +:+ rest)
      = (Some UnbalancedMarkers, Ok t') ∧
    value <$> nodes t' = value <$> nodes t ∧
    (fun n => length (children n)) <$> nodes t' =
      (fun n => length (children n)) <$> nodes t ∧
    ID <$> nodes t' = seqZ 0 (Z.of_nat (length (nodes t))).
Proof.
  intros Hcheck Hv.
  exists (unlines (document_lines 0 (tree_flatten t))).
  pose proof (tree_flatten_faithful t Hv) as Hf.
  assert (exists t',
    delinearize (tree_flatten t ++ [None]) = Ok t' ∧
    value <$> nodes t' = value <$> nodes t ∧
    (fun n => length (children n)) <$> nodes t' =
      (fun n => length (children n)) <$> nodes t ∧
    ID <$> nodes t' = seqZ 0 (Z.of_nat (length (nodes t)))) as (t' & Hd & Hres).
  { unfold tree_flatten, nodes. destruct (root t) as [r|].
    - destruct (delinearize_flatten_then r [None] Hcheck)
        as (t' & r' & Hd & HI & Hr' & Hsh & Hid).
      exists t'. rewrite Hd, Hr'. split_and!; try done.
      + apply (f_equal (fmap fst)) in Hsh.
        by rewrite <- !list_fmap_compose in Hsh.
      + apply (f_equal (fmap snd)) in Hsh.
        by rewrite <- !list_fmap_compose in Hsh.
    - exists (mkTree None ∅ 0). unfold delinearize, Tree_new.
      by rewrite Hcheck. }
  exists t'. split; [apply serialize_spec|]. split; [|done].
  unfold deserialize.
  rewrite getlines_unlines_then
    by (apply document_lines_single_line; intros v Hin; apply (Hf v Hin)).
  rewrite getlines_line by no_newline. rewrite append_nil_l.
  rewrite deserialize_lines_prefix.
  2:{ intros v Hin. apply (Hf v Hin). }
  2:{ rewrite <- (app_nil_r (tree_flatten t)). by apply balanced_tree_flatten. }
  cbn [deserialize_lines]. rewrite deserialize_line_marker.
  cbn zeta. cbn [nodeCount eocTokenCount linearized_of app].
  rewrite tree_flatten_counts. rewrite decide_True by lia.
  cbn [fst snd linearized_of]. by rewrite Hd.
Qed.

(** ** Saving a loaded tree *)

(** The linearized form depends only on the values and the numbers of
    children in pre-order. *)
Lemma flatten_of_shape n :
  forall n' rest rest',
    (shape <$> preorder n) ++ rest = (shape <$> preorder n') ++ rest' ->
    flatten n = flatten n' ∧ rest = rest'.
Proof.
  induction n as [v par cs i a IH] using Node_ind.
  intros [v' par' cs' i' a'] rest rest'.
  rewrite !preorder_unfold, !flatten_unfold, !fmap_cons. cbn [value children].
  unfold shape at 1 3. cbn [value children]. rewrite <- !app_comm_cons.
  intros [= <- Hlen Heq].
  assert ((cs ≫= flatten) = (cs' ≫= flatten) ∧ rest = rest') as [-> ->]; [|done].
  clear v. revert cs' Hlen rest rest' Heq.
  induction IH as [|c cs Hc _ IHcs]; intros [|c' cs'] Hlen rest rest' Heq;
    try done.
  rewrite !bind_cons, !fmap_app, <- !app_assoc in Heq.
  destruct (Hc _ _ _ Heq) as [Hfc Heq'].
  destruct (IHcs cs' ltac:(by simplify_eq/=) _ _ Heq') as [Hfcs Hrest].
  by rewrite !bind_cons, Hfc, Hfcs.
Qed.

(** X5. Saving a tree that was loaded from a save gives the same text:
    for a tree whose values have faithful one-line texts, [serialize]
    returns a text, [deserialize] of it prints nothing and returns a tree,
    and [serialize] on that tree returns the same text again. *)
Theorem serialize_after_deserialize_same_text (t : Tree) :
  T_compatible_check = true ->
  (forall v, v ∈ value <$> nodes t -> faithful v) ->
  exists text t',
    serialize t = Some text ∧
    deserialize text = (None, Ok t') ∧
    serialize t' = Some text.
Proof.
  intros Hcheck Hv.
  destruct (deserialize_serialize t Hv) as (text & Hser & Hdes).
  exists text. rewrite Hdes. rewrite serialize_spec in Hser |- *.
  injection Hser as <-.
  destruct (root t) as [r|] eqn:Hr.
  - destruct (delinearize_flatten r Hcheck) as (t' & r' & Hd & _ & Hr' & Hsh & _).
    exists t'. rewrite serialize_spec. unfold tree_flatten.
    rewrite Hr, Hr', Hd. split_and!; try done.
    destruct (flatten_of_shape r' r [] []) as [-> _]; [|done].
    by rewrite !app_nil_r.
  - exists (mkTree None ∅ 0). rewrite serialize_spec. unfold tree_flatten.
    rewrite Hr. rewrite delinearize_nil by done. done.
Qed.

(** ** What [removeNode] leaves in place *)




(** ** Ids and values through the mutators *)

Lemma items_heads n :
  (fun n => (ID n, value n)) <$> preorder n =
  (fun h => (h_ID h, h_value h)) <$> heads n.
Proof. unfold heads. by rewrite <- list_fmap_compose. Qed.

Lemma items_ids t : (items t).*1 = ID <$> nodes t.
Proof. unfold items. by rewrite <- list_fmap_compose. Qed.

Lemma getValue_items t i v :
  Inv t -> getValue i t = Ok v <-> (i, v) ∈ items t.
Proof.
  intros HI. unfold items, nodes.
  destruct (root t) as [r|] eqn:Hr.
  - assert (forall n, n ∈ preorder r -> getValue (ID n) t = Ok (value n)) as Hobs.
    { intros n Hn.
      assert (view n ∈ views r) as Hw by by apply list_elem_of_fmap_2.
      by destruct (view_observed t r _ HI Hr Hw) as [Hv _]. }
    split.
    + intros Hget.
      assert (i ∈ ID <$> nodes t) as Hi.
      { apply Inv_index_dom; [done|]. unfold getValue in Hget.
        destruct (nodeMap t !! i); [by eexists|done]. }
      rewrite (nodes_root t r Hr) in Hi.
      apply list_elem_of_fmap in Hi as (n & -> & Hn).
      rewrite (Hobs n Hn) in Hget. injection Hget as <-.
      by apply (list_elem_of_fmap_2 (fun n => (ID n, value n))).
    + intros (n & [= -> ->] & Hn)%list_elem_of_fmap. by apply Hobs.
  - split; [|by intros ?%elem_of_nil].
    intros Hget. unfold getValue in Hget.
    destruct (nodeMap t !! i) as [p|] eqn:Hp; [|done].
    destruct (Inv_lookup t i p HI Hp) as (x & C & Hr' & _). by rewrite Hr in Hr'.
Qed.

Lemma setRoot_items v t :
  root t = None -> items (setRoot v t).1 = [(nextID t, v)].
Proof. intros Hr. by rewrite (setRoot_ok v t Hr). Qed.

Lemma appendNode_items pid v t p :
  Inv t -> nodeMap t !! pid = Some p ->
  exists l1 l2, items t = l1 ++ l2 ∧
                items (appendNode pid v t).1 = l1 ++ (nextID t, v) :: l2.
Proof.
  intros HI Hp.
  destruct (appendNode_ok pid v t p HI Hp) as (x & C & Hr & Hid & Ha & Heq).
  rewrite Heq. unfold items, nodes. cbn [fst root]. rewrite Hr.
  exists ((fun h => (h_ID h, h_value h)) <$> (ctx_pre C ++ heads x)),
         ((fun h => (h_ID h, h_value h)) <$> ctx_post C).
  rewrite !items_heads, !heads_plug, heads_push_back.
  rewrite !fmap_app. simpl. split; by rewrite <- ?app_assoc.
Qed.

Lemma removeNode_items nodeID t t' :
  Inv t -> removeNode nodeID t = (t', Ok tt) ->
  exists x l1 l2,
    ID x = nodeID ∧
    items t = l1 ++ ((fun n => (ID n, value n)) <$> preorder x) ++ l2 ∧
    items t' = l1 ++ l2.
Proof.
  intros HI Hrem.
  destruct (removeNode_cases nodeID t HI)
    as [[Hroot Heq]|[(Hne & Hnone & Heq)|(Hne & x & fr & C & Hr & Hid & Hp & Heq)]];
    rewrite Heq in Hrem; try done.
  injection Hrem as <-.
  exists x,
    ((fun h => (h_ID h, h_value h)) <$>
       (ctx_pre C ++ frame_head fr :: (f_left fr ≫= heads))),
    ((fun h => (h_ID h, h_value h)) <$> ((f_right fr ≫= heads) ++ ctx_post C)).
  unfold items, nodes. cbn [root]. rewrite Hr.
  rewrite !items_heads, !heads_plug, heads_frame_node, bind_app.
  cbn [ctx_pre ctx_post]. rewrite <- !fmap_app.
  split_and!; [done|done|]. f_equal. rewrite <- !app_assoc. simpl.
  by rewrite <- !app_assoc.
Qed.

(** One call: [nextID] does not go down, and a node of the tree after
    the call was there before, with its value, unless it has the id that
    was [nextID]. *)
Lemma run_op_items t o :
  Inv t ->
  nextID t ≤ nextID (run_op t o) ∧
  forall i v, (i, v) ∈ items (run_op t o) -> (i, v) ∈ items t ∨ i = nextID t.
Proof.
  intros HI. destruct o as [v|pid v|nodeID]; cbn [run_op].
  - destruct (root t) as [r|] eqn:Hr.
    + rewrite (setRoot_fail v t r Hr). simpl. split; [lia|]. by left.
    + split; [rewrite (setRoot_ok v t Hr); simpl; lia|].
      intros i w. rewrite (setRoot_items v t Hr).
      intros [= -> ->]%list_elem_of_singleton. by right.
  - destruct (nodeMap t !! pid) as [p|] eqn:Hp.
    + destruct (appendNode_items pid v t p HI Hp) as (l1 & l2 & Ht & Ht').
      destruct (appendNode_ok pid v t p HI Hp) as (x & C & _ & _ & _ & Heq).
      split; [rewrite Heq; simpl; lia|].
      intros i w. rewrite Ht, Ht'.
      rewrite !elem_of_app, elem_of_cons. intros [?|[[= -> ->]|?]]; auto.
    + rewrite (appendNode_fail pid v t Hp). simpl. split; [lia|]. by left.
  - destruct (removeNode nodeID t) as [t' [[]|e|]] eqn:Hrem.
    + destruct (removeNode_items nodeID t t' HI Hrem) as (x & l1 & l2 & _ & Ht & Ht').
      destruct (removeNode_cases nodeID t HI)
        as [[_ Heq]|[(_ & _ & Heq)|(_ & x' & fr & C & _ & _ & _ & Heq)]];
        rewrite Heq in Hrem; try done.
      injection Hrem as <-. simpl. split; [lia|].
      intros i w. cbn [fst]. rewrite Ht, Ht'. rewrite !elem_of_app. tauto.
    + destruct (removeNode_cases nodeID t HI)
        as [[_ Heq]|[(_ & _ & Heq)|(_ & x' & fr & C & _ & _ & _ & Heq)]];
        rewrite Heq in Hrem; try done; injection Hrem as <- _;
        (split; [simpl; lia|by left]).
    + destruct (removeNode_cases nodeID t HI)
        as [[_ Heq]|[(_ & _ & Heq)|(_ & x' & fr & C & _ & _ & _ & Heq)]];
        by rewrite Heq in Hrem.
Qed.

(** X7. Ids are never used again, as long as [nextID] has not been
    counted past [INT_MAX] (the [nextID++] at [INT_MAX] is a signed
    overflow; what the code does from there on is not covered). On any
    tree a caller can have built, and after any further calls that leave
    [nextID] at [INT_MAX] or below: [nextID] has not gone down; an id that
    was below [nextID] before the calls and has a value after them had
    that same value before; an id that was below [nextID] and had no node
    has none afterwards; and every id in use is an [int] between 0 and
    [nextID]. So the id of a removed node stays without a node for good,
    and an id never comes to stand for another value. *)
Theorem ids_are_never_reused (ops more : list op) (t0 : Tree) (i : Z) (v : T) :
  Tree_new = Ok t0 ->
  let t := run_ops ops t0 in
  let t2 := run_ops more t in
  nextID t2 ≤ INT_MAX ->
  nextID t ≤ nextID t2 ∧
  (i < nextID t -> getValue i t2 = Ok v -> getValue i t = Ok v) ∧
  (i < nextID t -> getValue i t = Throw (NodeNotFound i) ->
   getValue i t2 = Throw (NodeNotFound i)) ∧
  (forall j, j ∈ ID <$> nodes t2 -> 0 ≤ j < nextID t2 ∧ j < INT_MAX).
Proof.
  intros Hnew t t2 Hint. pose proof (built_Inv ops t0 Hnew) as HI. fold t in HI.
  assert (forall l s, Inv s ->
            nextID s ≤ nextID (run_ops l s) ∧
            forall w, i < nextID s -> getValue i (run_ops l s) = Ok w ->
                      getValue i s = Ok w) as Hgen.
  { intros l. induction l as [|o l IH]; intros s Hs.
    - split; [simpl; lia|done].
    - change (run_ops (o :: l) s) with (run_ops l (run_op s o)).
      pose proof (run_op_Inv s o Hs) as HI1.
      destruct (run_op_items s o Hs) as [Hle Hitems].
      destruct (IH _ HI1) as [Hle2 Hval]. split; [lia|].
      intros w Hi Hget. apply Hval in Hget; [|lia].
      apply (getValue_items _ _ _ HI1) in Hget.
      apply (getValue_items _ _ _ Hs).
      destruct (Hitems i w Hget) as [? | Heq]; [done|lia]. }
  destruct (Hgen more t HI) as [Hle Hval]. fold t2 in Hle, Hval.
  pose proof (run_ops_Inv more t HI) as HI2. fold t2 in HI2.
  split_and!; [done|by apply Hval| |].
  2:{ intros j Hj. apply (inv_id_range t2 HI2) in Hj. lia. }
  intros Hi Hdead.
  pose proof (fun w => Hval w Hi) as Hback. clear Hval.
  destruct (getValue i t2) as [w|e|] eqn:Hget.
  - specialize (Hback w eq_refl). by rewrite Hdead in Hback.
  - unfold getValue in Hget. destruct (nodeMap t2 !! i) as [p|].
    + by destruct (tree_deref t2 p).
    + by injection Hget as <-.
  - unfold getValue in Hget. destruct (nodeMap t2 !! i) as [p|] eqn:Hp; [|done].
    destruct (Inv_lookup t2 i p HI2 Hp) as (x & C & Hr & <- & <-).
    by rewrite (Inv_deref t2 x C HI2 Hr) in Hget.
Qed.

(** ** The root *)

Lemma value_plug x x' C :
  value x = value x' -> value (plug x C) = value (plug x' C).
Proof.
  revert x x'. induction C as [|fr C IHC]; intros x x' Hx; simpl; [done|].
  by apply IHC.
Qed.

Lemma root_observed t r :
  Inv t -> root t = Some r ->
  getValue (ID r) t = Ok (value r) ∧
  getChildrenIDs (ID r) t = Ok (ID <$> children r).
Proof.
  intros HI Hr.
  assert (view r ∈ views r) as Hw by apply list_elem_of_fmap_2, self_in_preorder.
  apply (view_observed t r _ HI Hr Hw).
Qed.

(** No call takes the root away or changes its id or value. *)
Lemma run_op_root t o r :
  Inv t -> root t = Some r ->
  exists r', root (run_op t o) = Some r' ∧ ID r' = ID r ∧ value r' = value r.
Proof.
  intros HI Hr. destruct o as [v|pid v|nodeID]; cbn [run_op].
  - rewrite (setRoot_fail v t r Hr). by exists r.
  - destruct (nodeMap t !! pid) as [p|] eqn:Hp.
    + destruct (appendNode_ok pid v t p HI Hp) as (x & C & Hr' & _ & _ & Heq).
      rewrite Heq. cbn [fst root]. eexists. split; [done|].
      rewrite Hr in Hr'. injection Hr' as ->.
      split; [by apply ID_plug|by apply value_plug].
    + rewrite (appendNode_fail pid v t Hp). by exists r.
  - destruct (removeNode_cases nodeID t HI)
      as [[_ Heq]|[(_ & _ & Heq)|(_ & x & fr & C & Hr' & _ & _ & Heq)]];
      rewrite Heq; cbn [fst root]; try by exists r.
    eexists. split; [done|]. rewrite Hr in Hr'. injection Hr' as ->.
    change (plug x (fr :: C)) with (plug (fill fr x) C).
    split; [by apply ID_plug|by apply value_plug].
Qed.


Lemma run_op_root_first t o : Inv t -> root_first t -> root_first (run_op t o).
Proof.
  intros HI Hf. unfold root_first in *.
  destruct (root t) as [r|] eqn:Hr.
  - destruct (run_op_root t o r HI Hr) as (r' & -> & Hid & _). congruence.
  - destruct o as [v|pid v|nodeID]; cbn [run_op].
    + rewrite (setRoot_ok v t Hr). done.
    + destruct (nodeMap t !! pid) as [p|] eqn:Hp.
      * destruct (Inv_lookup t pid p HI Hp) as (x & C & Hr' & _).
        by rewrite Hr in Hr'.
      * rewrite (appendNode_fail pid v t Hp). cbn [fst]. by rewrite Hr.
    + destruct (removeNode_cases nodeID t HI)
        as [[_ Heq]|[(_ & _ & Heq)|(_ & x & fr & C & Hr' & _)]];
        try (rewrite Heq; cbn [fst]; by rewrite Hr).
      by rewrite Hr in Hr'.
Qed.

Lemma built_root_first ops t0 : Tree_new = Ok t0 -> root_first (run_ops ops t0).
Proof.
  intros ->%Tree_new_empty.
  assert (forall l t, Inv t -> root_first t -> root_first (run_ops l t)) as Hgen.
  { intros l. induction l as [|o l IH]; intros t HI Hf; [done|].
    change (run_ops (o :: l) t) with (run_ops l (run_op t o)).
    apply IH; [by apply run_op_Inv|by apply run_op_root_first]. }
  apply Hgen; [apply Inv_empty|done].
Qed.

(** X8. [setRoot] and the id of the root, on any tree a caller can have
    built. [getRootID] is -1 or 0. When it is 0, [setRoot] throws and
    leaves the tree as it was. When it is -1, no id has been given out
    yet, whatever calls came before; [setRoot] returns 0 and the tree is
    then the single node 0 with the value and no children. *)
Theorem setRoot_once_with_id_zero (ops : list op) (t0 : Tree) (v : T) :
  Tree_new = Ok t0 ->
  let t := run_ops ops t0 in
  (getRootID t = -1 ∨ getRootID t = 0) ∧
  (getRootID t = 0 -> setRoot v t = (t, Throw AlreadyHasRoot)) ∧
  (getRootID t = -1 ->
   nextID t = 0 ∧ items t = [] ∧
   exists t', setRoot v t = (t', Ok 0) ∧
              getRootID t' = 0 ∧ items t' = [(0, v)] ∧
              getValue 0 t' = Ok v ∧ getChildrenIDs 0 t' = Ok []).
Proof.
  intros Hnew t. pose proof (built_Inv ops t0 Hnew) as HI.
  pose proof (built_root_first ops t0 Hnew) as Hf. fold t in HI, Hf.
  unfold root_first in Hf. unfold getRootID, items, nodes.
  destruct (root t) as [r|] eqn:Hr.
  - split_and!; [by right| |intros ?; lia].
    intros _. by apply setRoot_fail with r.
  - split_and!; [by left|done|]. intros _. split_and!; [done|done|].
    pose proof (setRoot_Inv v t HI) as HI'.
    rewrite (setRoot_ok v t Hr) in HI' |- *. rewrite Hf in HI' |- *.
    eexists. split; [done|]. cbn [root fst] in HI' |- *.
    split_and!; try done.
    + apply (root_observed _ _ HI' eq_refl).
    + apply (root_observed _ _ HI' eq_refl).
Qed.


(** ** The children lists make a tree *)




Lemma getChildrenIDs_view i t cs :
  Inv t -> getChildrenIDs i t = Ok cs ->
  exists r x C, root t = Some r ∧ r = plug x C ∧ ID x = i ∧
                cs = ID <$> children x ∧ view x ∈ views r.
Proof.
  intros HI Hget. unfold getChildrenIDs in Hget.
  destruct (nodeMap t !! i) as [p|] eqn:Hp; [|done].
  destruct (Inv_lookup t i p HI Hp) as (x & C & Hr & Hid & Ha).
  rewrite <- Ha, (Inv_deref t x C HI Hr) in Hget. injection Hget as <-.
  exists (plug x C), x, C. split_and!; try done.
  apply list_elem_of_fmap_2, plug_in_preorder.
Qed.





(** ** [assignIDs] on a whole subtree *)

(** X12. [assignIDs] on a whole subtree, from any [nodeMap] and any
    [nextID] from which the nodes of the subtree can be counted without
    leaving [int] ([nextID] plus the number of nodes is at most
    [INT_MAX]): the nodes get the numbers [nextID], [nextID]+1, ... in
    pre-order; values, parents, addresses and numbers of children are as
    they were; [nextID] ends up past the last number; and [nodeMap] has,
    for each of these numbers, the address of the node that got it, and
    is as it was for every other id. *)
Theorem assignIDs_numbers_in_preorder (n : Node) (m : gmap Z ptr) (k : Z) :
  INT_MIN ≤ k ->
  k + Z.of_nat (length (preorder n)) ≤ INT_MAX ->
  ID <$> preorder (assignIDs n (m, k)).1
    = seqZ k (Z.of_nat (length (preorder n))) ∧
  (assignIDs n (m, k)).2.2 = k + Z.of_nat (length (preorder n)) ∧
  skeleton <$> preorder (assignIDs n (m, k)).1 = skeleton <$> preorder n ∧
  forall j, (assignIDs n (m, k)).2.1 !! j =
    if decide (k ≤ j < k + Z.of_nat (length (preorder n)))
    then addr <$> (preorder n !! Z.to_nat (j - k))
    else m !! j.
Proof.
  intros _ _.
  revert m k. induction n as [v par cs i a IH] using Node_ind. intros m k.
  cbn [assignIDs fst snd]. cbv zeta.
  set (each := fix each (l : list Node) (s : gmap Z ptr * Z) :=
                 match l with
                 | [] => ([], s)
                 | c :: l' =>
                     let r1 := assignIDs c s in
                     let r2 := each l' r1.2 in
                     (r1.1 :: r2.1, r2.2)
                 end).
  assert (forall m k,
    ID <$> ((each cs (m, k)).1 ≫= preorder)
      = seqZ k (Z.of_nat (length (cs ≫= preorder))) ∧
    (each cs (m, k)).2.2 = k + Z.of_nat (length (cs ≫= preorder)) ∧
    skeleton <$> ((each cs (m, k)).1 ≫= preorder)
      = skeleton <$> (cs ≫= preorder) ∧
    length (each cs (m, k)).1 = length cs ∧
    forall j, (each cs (m, k)).2.1 !! j =
      if decide (k ≤ j < k + Z.of_nat (length (cs ≫= preorder)))
      then addr <$> ((cs ≫= preorder) !! Z.to_nat (j - k))
      else m !! j) as Hforest.
  { clear m k. induction IH as [|c cs Hc _ IHcs]; intros m k.
    - simpl. split_and!; try done; [lia|].
      intros j. by rewrite decide_False by lia.
    - cbn [each]. cbv zeta. fold each.
      destruct (Hc m k) as (Hid1 & Hn1 & Hsk1 & Hm1).
      destruct (assignIDs c (m, k)) as [c' [m1 k1]]. cbn [fst snd] in *.
      destruct (IHcs m1 k1) as (Hid2 & Hn2 & Hsk2 & Hlen2 & Hm2).
      rewrite !bind_cons, !fmap_app, !length_app.
      pose proof (f_equal length Hsk1) as Hl1. rewrite !length_fmap in Hl1.
      split_and!.
      + rewrite Hid1, Hid2, Nat2Z.inj_add.
        rewrite (seqZ_app _ (Z.of_nat (length (preorder c)))) by lia.
        by rewrite Hn1.
      + rewrite Hn2, Hn1. lia.
      + by rewrite Hsk1, Hsk2.
      + simpl. by rewrite Hlen2.
      + intros j. rewrite Hm2, Hm1, Hn1.
        destruct (decide (k ≤ j < k + Z.of_nat (length (preorder c))))
          as [Hin1|Hout1].
        * rewrite decide_False by lia. rewrite decide_True by lia.
          rewrite lookup_app_l by lia. done.
        * destruct (decide (k + Z.of_nat (length (preorder c)) ≤ j <
                            k + Z.of_nat (length (preorder c)) +
                            Z.of_nat (length (cs ≫= preorder)))) as [Hin2|Hout2].
          -- rewrite decide_True by lia. rewrite lookup_app_r by lia.
             do 2 f_equal. lia.
          -- by rewrite decide_False by lia. }
  destruct (Hforest (<[k:=a]> m) (k + 1)) as (Hid & Hn & Hsk & Hlen & Hm).
  rewrite !preorder_unfold. cbn [children ID fmap list_fmap length].
  split_and!.
  - rewrite Hid. rewrite (seqZ_cons k) by lia. do 2 f_equal; lia.
  - rewrite Hn. lia.
  - rewrite Hsk. unfold skeleton at 1 3. cbn [value parent addr children].
    by rewrite Hlen.
  - intros j. rewrite Hm.
    destruct (decide (k + 1 ≤ j < k + 1 + Z.of_nat (length (cs ≫= preorder))))
      as [Hin|Hout].
    + rewrite decide_True by lia.
      replace (Z.to_nat (j - k)) with (S (Z.to_nat (j - (k + 1)))) by lia. done.
    + destruct (decide (j = k)) as [->|Hne].
      * rewrite lookup_insert_eq. rewrite decide_True by lia.
        by replace (Z.to_nat (k - k)) with O by lia.
      * rewrite lookup_insert_ne by done. by rewrite decide_False by lia.
Qed.

(** ** utils.cpp: saving and loading *)

Lemma story_copy ls acc :
  fold_left (fun story line => story +:+ (line +:+ endl)) ls acc
  = acc +:+ unlines ls.
Proof.
  revert acc. induction ls as [|l ls IH]; intros acc; simpl.
  - by rewrite append_nil_r.
  - by rewrite IH, !append_assoc.
Qed.

Lemma getlines_single_line s : forall cur,
  single_line cur -> Forall single_line (getlines cur s).
Proof.
  induction s as [|c s IH]; intros cur Hcur; simpl.
  - destruct cur; by repeat constructor.
  - destruct (Ascii.eqb_spec c newline) as [->|Hc].
    + constructor; [done|]. apply IH. by intros ?%elem_of_nil.
    + apply IH. apply single_line_append; [done|].
      unfold single_line. simpl. by intros [?|?%elem_of_nil]%elem_of_cons.
Qed.

(** X13. The copy loop of [loadStoryline] changes nothing that
    [deserialize] looks at: the text it builds line by line has the same
    lines as the file (a missing newline at the end is added), so for
    every file content [loadStoryline] prints and returns what
    [deserialize] does on the content itself. *)
Theorem loadStoryline_is_deserialize_of_the_file (content : string) :
  loadStoryline (Some content) =
  (match (deserialize content).1 with Some e => [Error e] | None => [] end,
   (deserialize content).2).
Proof.
  unfold loadStoryline. cbv zeta. rewrite story_copy, append_nil_l.
  assert (deserialize (unlines (getlines EmptyString content))
          = deserialize content) as ->; [|done].
  unfold deserialize. rewrite getlines_unlines; [done|].
  apply getlines_single_line. by intros ?%elem_of_nil.
Qed.

(** X14. Saving and loading again. For a tree whose values have faithful
    one-line texts, and a file that opens both times: [saveStoryline]
    writes a text and prints nothing, and [loadStoryline] on a file with
    that text prints nothing and returns a tree with the same values and
    the same numbers of children in pre-order, with the ids 0, 1, 2, ... *)
Theorem loadStoryline_after_saveStoryline (t : Tree) :
  T_compatible_check = true ->
  (forall v, v ∈ value <$> nodes t -> faithful v) ->
  exists text t',
    saveStoryline t true = ([], Some text) ∧
    loadStoryline (Some text) = ([], Ok t') ∧
    value <$> nodes t' = value <$> nodes t ∧
    (fun n => length (children n)) <$> nodes t' =
      (fun n => length (children n)) <$> nodes t ∧
    ID <$> nodes t' = seqZ 0 (Z.of_nat (length (nodes t))).
Proof.
  intros Hcheck Hv.
  destruct (deserialize_serialize t Hv) as (text & Hser & Hdes).
  assert (exists t',
    delinearize (tree_flatten t) = Ok t' ∧
    value <$> nodes t' = value <$> nodes t ∧
    (fun n => length (children n)) <$> nodes t' =
      (fun n => length (children n)) <$> nodes t ∧
    ID <$> nodes t' = seqZ 0 (Z.of_nat (length (nodes t)))) as (t' & Hd & Hres).
  { unfold tree_flatten, nodes. destruct (root t) as [r|].
    - destruct (delinearize_flatten r Hcheck) as (t' & r' & Hd & _ & Hr' & Hsh & Hid).
      exists t'. rewrite Hd, Hr'. split_and!; try done.
      + apply (f_equal (fmap fst)) in Hsh.
        by rewrite <- !list_fmap_compose in Hsh.
      + apply (f_equal (fmap snd)) in Hsh.
        by rewrite <- !list_fmap_compose in Hsh.
    - exists (mkTree None ∅ 0). by rewrite delinearize_nil. }
  exists text, t'. split; [by unfold saveStoryline; rewrite Hser|].
  split; [|done].
  unfold loadStoryline. cbv zeta. rewrite story_copy, append_nil_l.
  assert (deserialize (unlines (getlines EmptyString text))
          = deserialize text) as ->.
  { unfold deserialize. rewrite getlines_unlines; [done|].
    apply getlines_single_line. by intros ?%elem_of_nil. }
  by rewrite Hdes, Hd.
Qed.

(** ** main.cpp: the game loop *)






Lemma to_int_small z : INT_MIN ≤ z ≤ INT_MAX -> to_int z = z.
Proof.
  unfold to_int, INT_MIN, INT_MAX. intros Hz.
  rewrite Z.mod_small by lia. lia.
Qed.





(** On numbers that fit an [int], and while no node has more children
    than an [int] can count, [play] does what [game_loop] does; where
    [game_loop] has used up its numbers, the input has ended. *)
Lemma play_on_numbers t ns : forall cur,
  Forall (fun n => INT_MIN ≤ n ≤ INT_MAX) ns ->
  (forall i cs, getChildrenIDs i t = Ok cs -> Z.of_nat (length cs) ≤ INT_MAX) ->
  play t cur (Number <$> ns) =
  ((game_loop t cur ns).1,
   match (game_loop t cur ns).2 with
   | AwaitingInput => UndefinedBehaviour
   | e => e
   end).
Proof.
  induction ns as [|n ns IH]; intros cur Hns Hsize.
  - cbn [fmap list_fmap play game_loop]. unfold show_node.
    destruct (subscript cur t); try done.
    destruct (getChildrenIDs cur t) as [[|c cs]| |]; try done.
    by destruct (show_actions t (c :: cs)).
  - apply Forall_cons in Hns as [Hn Hns].
    cbn [fmap list_fmap play game_loop]. unfold show_node.
    destruct (subscript cur t); try done.
    destruct (getChildrenIDs cur t) as [[|c cs]| |] eqn:Hc; try done.
    destruct (show_actions t (c :: cs)); try done.
    cbv zeta. unfold extract_int.
    rewrite decide_False by lia. rewrite decide_False by lia. cbn [fst snd].
    unfold chosen. rewrite to_int_small.
    2:{ specialize (Hsize _ _ Hc). unfold INT_MIN. lia. }
    destruct (decide (n < 1 ∨ n > Z.of_nat (length (c :: cs)))).
    + by rewrite (IH cur Hns Hsize).
    + destruct ((c :: cs) !! Z.to_nat (n - 1)) as [next|]; [|done].
      by rewrite (IH next Hns Hsize).
Qed.


(** ** The order of the children *)

Lemma increasing_lower lo lo' l : lo' ≤ lo -> increasing lo l -> increasing lo' l.
Proof. destruct l as [|j l]; [done|]. simpl. intros ? [? ?]. split; [lia|done]. Qed.

Lemma increasing_snoc lo l new :
  increasing lo l -> lo < new -> Forall (fun j => j < new) l ->
  increasing lo (l ++ [new]).
Proof.
  revert lo. induction l as [|j l IH]; intros lo Hinc Hlo Hall; simpl.
  - done.
  - destruct Hinc as [Hj Hinc]. apply Forall_cons in Hall as [Hjn Hall].
    split; [done|]. by apply IH.
Qed.

Lemma increasing_remove lo l x r :
  increasing lo (l ++ x :: r) -> increasing lo (l ++ r).
Proof.
  revert lo. induction l as [|j l IH]; intros lo; simpl.
  - intros [Hx Hr]. apply increasing_lower with x; [lia|done].
  - intros [Hj Hinc]. split; [done|]. by apply IH.
Qed.

(** Every call keeps the children in increasing order. *)
Lemma run_op_ascending t o :
  Inv t ->
  (forall r, root t = Some r -> Forall ascending (views r)) ->
  forall r', root (run_op t o) = Some r' -> Forall ascending (views r').
Proof.
  intros HI Hasc. destruct o as [v|pid v|nodeID]; cbn [run_op].
  - destruct (root t) as [r|] eqn:Hr.
    + rewrite (setRoot_fail v t r Hr). cbn [fst]. rewrite Hr. by apply Hasc.
    + rewrite (setRoot_ok v t Hr). cbn [fst root]. intros r' [= <-].
      rewrite views_unfold. simpl. by repeat constructor.
  - destruct (nodeMap t !! pid) as [p|] eqn:Hp.
    + destruct (appendNode_ok pid v t p HI Hp) as (x & C & Hr & Hid & Ha & Heq).
      rewrite Heq. cbn [fst root]. intros r' [= <-].
      set (c := mkNode v (Some p) [] (nextID t) (new_Node_addr (live t))).
      destruct (views_plug x (push_back c x) C eq_refl) as (pre & post & Hv & Hv').
      specialize (Hasc _ Hr). rewrite Hv in Hasc. rewrite Hv'.
      rewrite !Forall_app in Hasc |- *. destruct Hasc as (Hpre & Hx & Hpost).
      split_and!; try done.
      rewrite views_unfold in Hx |- *. apply Forall_cons in Hx as [Hx Hcs].
      cbn [children push_back] in *. rewrite bind_app. simpl.
      constructor; [|rewrite Forall_app; split; [done|by repeat constructor]].
      unfold ascending, view in *. cbn [fst snd head_of h_ID ID children] in *.
      assert (forall n, n ∈ preorder x -> ID n < nextID t) as Hlt.
      { intros n Hn. apply (inv_id_range t HI).
        rewrite (nodes_root t _ Hr). apply list_elem_of_fmap_2.
        apply preorder_trans with x; [done|apply plug_in_preorder]. }
      change (increasing (ID x) (ID <$> (children x ++ [c]))).
      rewrite fmap_app. apply increasing_snoc; [done| |].
      * apply Hlt, self_in_preorder.
      * apply Forall_fmap, Forall_forall. intros n Hn. cbn.
        apply Hlt. by apply child_in_preorder with n; [|apply self_in_preorder].
    + rewrite (appendNode_fail pid v t Hp). by apply Hasc.
  - destruct (removeNode_cases nodeID t HI)
      as [[_ Heq]|[(_ & _ & Heq)|(_ & x & fr & C & Hr & _ & _ & Heq)]];
      rewrite Heq; cbn [fst root]; try by apply Hasc.
    intros r' [= <-]. specialize (Hasc _ Hr).
    change (plug x (fr :: C)) with (plug (fill fr x) C) in Hasc.
    destruct (views_plug (fill fr x) (frame_node fr (f_left fr ++ f_right fr))
                C eq_refl) as (pre & post & Hv & Hv').
    rewrite Hv in Hasc. rewrite Hv'.
    rewrite !Forall_app in Hasc |- *. destruct Hasc as (Hpre & Hx & Hpost).
    split_and!; try done.
    unfold fill in Hx. rewrite views_unfold in Hx |- *.
    apply Forall_cons in Hx as [Hx Hcs]. cbn [children frame_node] in *.
    rewrite bind_app, bind_cons, !Forall_app in Hcs.
    destruct Hcs as (Hl & _ & Hr0).
    constructor; [|rewrite bind_app, Forall_app; by split].
    unfold ascending, view in *. cbn [fst snd head_of h_ID ID children] in *.
    change (increasing (f_ID fr) (ID <$> (f_left fr ++ x :: f_right fr))) in Hx.
    change (increasing (f_ID fr) (ID <$> (f_left fr ++ f_right fr))).
    rewrite fmap_app in Hx |- *. rewrite fmap_cons in Hx.
    by apply increasing_remove in Hx.
Qed.

(** X19. Children come in the order in which they were appended, as
    long as [nextID] has not been counted past [INT_MAX] (the [nextID++]
    at [INT_MAX] is a signed overflow; what the code does from there on is
    not covered). On any tree a caller can have built with [nextID] at
    [INT_MAX] or below, the ids that [getChildrenIDs] returns for a node
    are larger than the id of the node, strictly increasing, and below
    [nextID]. *)
Theorem children_ids_increase (ops : list op) (t0 : Tree) (i : Z) (cs : list Z) :
  Tree_new = Ok t0 ->
  let t := run_ops ops t0 in
  nextID t ≤ INT_MAX ->
  getChildrenIDs i t = Ok cs ->
  increasing i cs ∧ Forall (fun j => j < nextID t ∧ j < INT_MAX) cs.
Proof.
  intros Hnew t Hint Hget. pose proof (built_Inv ops t0 Hnew) as HI. fold t in HI.
  split.
  2:{ apply Forall_forall. intros j Hj.
      apply (getChildrenIDs_live i t cs HI Hget) in Hj.
      apply (inv_id_range t HI) in Hj. lia. }
  assert (forall l s, Inv s ->
            (forall r, root s = Some r -> Forall ascending (views r)) ->
            forall r, root (run_ops l s) = Some r -> Forall ascending (views r))
    as Hgen.
  { intros l. induction l as [|o l IH]; intros s Hs Hasc; [done|].
    change (run_ops (o :: l) s) with (run_ops l (run_op s o)).
    apply IH; [by apply run_op_Inv|by apply run_op_ascending]. }
  apply Tree_new_empty in Hnew. subst t0.
  destruct (getChildrenIDs_view i t cs HI Hget)
    as (r & x & C & Hr & _ & <- & -> & Hw).
  specialize (Hgen ops (mkTree None ∅ 0) Inv_empty ltac:(done) r Hr).
  rewrite Forall_forall in Hgen. apply (Hgen _ Hw).
Qed.

(** ** The linearized form and the text *)

Lemma delinearize_loop_flatten_then r0 rest :
  exists t' r',
    delinearize_loop (flatten r0 ++ rest) (mkTree None ∅ 0) [] =
    delinearize_loop rest t' [] ∧
    Inv t' ∧ root t' = Some r' ∧
    shape <$> preorder r' = shape <$> preorder r0.
Proof.
  destruct r0 as [v par0 cs0 i0 a0]. rewrite flatten_unfold.
  cbn [value children]. rewrite <- app_comm_cons, <- app_assoc.
  cbn [delinearize_loop].
  change (getRootID (mkTree None ∅ 0)) with (-1).
  destruct (decide (-1 = -1)) as [_|?]; [|done].
  pose proof (setRoot_Inv v _ Inv_empty) as HI1.
  rewrite (setRoot_ok v (mkTree None ∅ 0) eq_refl) in HI1 |- *. simpl in HI1.
  cbn [nextID nodeMap fst snd].
  set (a := new_Node_addr (live (mkTree None ∅ 0))) in *.
  set (c0 := mkNode v None [] 0 a) in *.
  set (t1 := mkTree (Some c0) _ _) in *.
  assert (root t1 = Some (plug c0 [])) as Hr1 by done.
  destruct (grafts_forest cs0 (proj2 (Forall_forall _ _) (fun n _ => grafts_all n))
              t1 c0 [] ([None] ++ rest) HI1 Hr1)
    as (t2 & cs & Hloop & HI2 & Hr2 & Hsh & Hlen & Hid & Hn).
  change (getRootID t1 :: []) with (ID c0 :: (f_ID <$> [])).
  rewrite Hloop. simpl.
  exists t2, (add_children cs c0). split_and!; try done.
  rewrite !preorder_unfold, !fmap_cons. simpl. rewrite Hsh.
  unfold shape at 1 3. simpl. by rewrite Hlen.
Qed.

(** X20. The linearized form tells trees apart: [linearize] returns the
    same sequence for two trees exactly when they have the same values and
    the same numbers of children in pre-order (ids and addresses play no
    part). *)
Theorem linearize_tells_trees_apart (t1 t2 : Tree) :
  linearize t1 = linearize t2 <->
  shape <$> nodes t1 = shape <$> nodes t2.
Proof.
  rewrite !linearize_total. unfold tree_flatten, nodes.
  destruct (root t1) as [r1|], (root t2) as [r2|].
  - split.
    + intros [= Heq].
      destruct (delinearize_loop_flatten_then r1 []) as (s1 & q1 & Hl1 & _ & Hq1 & Hs1).
      destruct (delinearize_loop_flatten_then r2 []) as (s2 & q2 & Hl2 & _ & Hq2 & Hs2).
      rewrite Heq, Hl2 in Hl1. simpl in Hl1. injection Hl1 as ->.
      rewrite Hq1 in Hq2. injection Hq2 as ->. by rewrite <- Hs1, <- Hs2.
    + intros Heq. f_equal. apply (flatten_of_shape r1 r2 [] []).
      by rewrite !app_nil_r.
  - split.
    + intros [= Heq]. destruct r1. by rewrite flatten_unfold in Heq.
    + intros Heq. destruct r1. by rewrite preorder_unfold in Heq.
  - split.
    + intros [= Heq]. destruct r2. by rewrite flatten_unfold in Heq.
    + intros Heq. destruct r2. by rewrite preorder_unfold in Heq.
  - done.
Qed.

Lemma deserialize_line_labelled st d v :
  "]"%char ∉ list_ascii_of_string d ->
  parse_value (T_insert v) = Some v ->
  deserialize_line st ("[" +:+ d +:+ "]: " +:+ T_insert v) =
  (mkDeser (linearized_of st ++ [Some v]) (nodeCount st + 1) (eocTokenCount st),
   None).
Proof.
  intros Hd Hv. unfold deserialize_line.
  assert (String.eqb ("[" +:+ d +:+ "]: " +:+ T_insert v) "[X]" = false) as ->.
  { apply String.eqb_neq. rewrite append_cons, append_nil_l. intros [= Heq].
    destruct d as [|c [|c' s]].
    - by rewrite append_nil_l, append_cons in Heq.
    - rewrite !append_cons, append_nil_l in Heq. by injection Heq.
    - rewrite !append_cons in Heq. injection Heq as _ Hc' _. subst c'.
      apply Hd. simpl. apply elem_of_cons. right. apply elem_of_cons. by left. }
  rewrite (append_cons "[" EmptyString), append_nil_l.
  rewrite (find_cons "["), (prefix_cons "[" EmptyString "[").
  destruct (ascii_dec "[" "[") as [_|?]; [|done].
  cbn [String.prefix]. rewrite find_cons.
  rewrite (prefix_cons "]" _ "[").
  destruct (ascii_dec "]" "[") as [?|_]; [done|].
  rewrite find_after_digits by done. simpl.
  replace (S (String.length d) + 3)%nat
    with (S (String.length d + 3))%nat by lia.
  simpl. rewrite <- append_assoc.
  replace (String.length d + 3)%nat with (String.length (d +:+ "]: ")).
  2:{ clear. induction d as [|c s IHs]; [done|].
      rewrite append_cons. simpl. by rewrite IHs. }
  assert (forall s, String.prefix EmptyString s = true) as -> by (by intros []).
  by rewrite substr_append, Hv.
Qed.

Lemma deserialize_lines_labelled l : forall labels st,
  Forall (fun d => "]"%char ∉ list_ascii_of_string d) labels ->
  (forall v, Some v ∈ l -> parse_value (T_insert v) = Some v) ->
  balanced (nodeCount st - eocTokenCount st) l ->
  deserialize_lines (labelled_lines labels l) st =
  deserialize_lines []
    (mkDeser (linearized_of st ++ l)
             (nodeCount st + Z.of_nat (count_values l))
             (eocTokenCount st + Z.of_nat (count_markers l))).
Proof.
  induction l as [|[v|] l IH]; intros labels st Hlab Hl Hbal.
  - destruct st as [lin nc ec]. cbn [labelled_lines linearized_of nodeCount eocTokenCount].
    rewrite app_nil_r. change (count_values []) with O.
    change (count_markers []) with O. by rewrite !Z.add_0_r.
  - cbn [labelled_lines deserialize_lines].
    rewrite deserialize_line_labelled.
    + rewrite IH.
      * cbn [linearized_of nodeCount eocTokenCount].
        rewrite count_values_cons_Some, count_markers_cons_Some.
        rewrite <- app_assoc. cbn [app].
        by replace (nodeCount st + 1 + Z.of_nat (count_values l))
          with (nodeCount st + Z.of_nat (S (count_values l))) by lia.
      * destruct labels; [done|]. by apply Forall_cons in Hlab as [_ ?].
      * intros w Hw. apply Hl. apply elem_of_cons. by right.
      * simpl in *. by replace (nodeCount st + 1 - eocTokenCount st)
          with (nodeCount st - eocTokenCount st + 1) by lia.
    + destruct labels as [|d ds]; simpl; [by intros ?%elem_of_nil|].
      by apply Forall_cons in Hlab as [? _].
    + apply Hl. apply elem_of_cons. by left.
  - cbn [labelled_lines deserialize_lines].
    rewrite deserialize_line_marker. simpl in Hbal. destruct Hbal as [Hd Hbal].
    cbn zeta. cbn [nodeCount eocTokenCount]. rewrite decide_False by lia.
    rewrite IH; [|done| |].
    + cbn [linearized_of nodeCount eocTokenCount].
      rewrite count_values_cons_None, count_markers_cons_None.
      rewrite <- app_assoc. cbn [app].
      by replace (eocTokenCount st + 1 + Z.of_nat (count_markers l))
        with (eocTokenCount st + Z.of_nat (S (count_markers l))) by lia.
    + intros w Hw. apply Hl. apply elem_of_cons. by right.
    + cbn [nodeCount eocTokenCount].
      by replace (nodeCount st - (eocTokenCount st + 1))
        with (nodeCount st - eocTokenCount st - 1) by lia.
Qed.

Lemma labelled_lines_single_line l : forall labels,
  Forall single_line labels ->
  (forall v, Some v ∈ l -> single_line (T_insert v)) ->
  Forall single_line (labelled_lines labels l).
Proof.
  induction l as [|[v|] l IH]; intros labels Hlab Hl; cbn [labelled_lines].
  - constructor.
  - constructor.
    + apply (single_line_append "["); [no_newline|].
      apply single_line_append.
      * destruct labels; simpl; [by intros ?%elem_of_nil|].
        by apply Forall_cons in Hlab as [? _].
      * apply (single_line_append "]: "); [no_newline|].
        apply Hl. apply elem_of_cons. by left.
    + apply IH.
      * destruct labels; [done|]. by apply Forall_cons in Hlab as [_ ?].
      * intros w Hw. apply Hl. apply elem_of_cons. by right.
  - constructor; [no_newline|]. apply IH; [done|].
    intros w Hw. apply Hl. apply elem_of_cons. by right.
Qed.

(** X21. [deserialize] does not look at what stands between the brackets
    of a value line. For a tree whose values have faithful one-line
    texts, take the lines that [serialize] writes and put any texts
    without a closing bracket and without a newline in place of the
    numbers: [deserialize] prints nothing and returns what it returns on
    the text that [serialize] wrote. *)
Theorem deserialize_ignores_the_numbers (t : Tree) (labels : list string) :
  Forall (fun d => "]"%char ∉ list_ascii_of_string d) labels ->
  Forall single_line labels ->
  (forall v, v ∈ value <$> nodes t -> faithful v) ->
  exists text,
    serialize t = Some text ∧
    deserialize text = (None, delinearize (tree_flatten t)) ∧
    deserialize (unlines (labelled_lines labels (tree_flatten t)))
      = deserialize text.
Proof.
  intros Hlab Hline Hv.
  destruct (deserialize_serialize t Hv) as (text & Hser & Hdes).
  exists text. split_and!; [done|done|]. rewrite Hdes.
  pose proof (tree_flatten_faithful t Hv) as Hf.
  unfold deserialize. rewrite getlines_unlines.
  2:{ apply labelled_lines_single_line; [done|].
      intros v Hin. apply (Hf v Hin). }
  rewrite deserialize_lines_labelled; [|done| |].
  - cbn [deserialize_lines nodeCount eocTokenCount linearized_of app].
    rewrite tree_flatten_counts. by rewrite decide_False by lia.
  - intros v Hin. apply (Hf v Hin).
  - rewrite <- (app_nil_r (tree_flatten t)). by apply balanced_tree_flatten.
Qed.

(** ** A text that was cut off *)

Lemma balanced_app_l d l1 l2 : balanced d (l1 ++ l2) -> balanced d l1.
Proof.
  revert d. induction l1 as [|[v|] l1 IH]; intros d; simpl; [done| |].
  - apply IH.
  - intros [Hd Hb]. split; [done|]. by apply IH.
Qed.

Lemma balanced_counts d l :
  0 ≤ d -> balanced d l ->
  Z.of_nat (count_markers l) ≤ d + Z.of_nat (count_values l).
Proof.
  revert d. induction l as [|[v|] l IH]; intros d Hd.
  - intros _. change (count_markers []) with O. change (count_values []) with O. lia.
  - simpl. intros Hb. apply IH in Hb; [|lia].
    rewrite count_values_cons_Some, count_markers_cons_Some. lia.
  - simpl. intros [Hd1 Hb]. apply IH in Hb; [|lia].
    rewrite count_values_cons_None, count_markers_cons_None. lia.
Qed.

Lemma balanced_forest cs : balanced 0 (cs ≫= flatten).
Proof.
  induction cs as [|c cs IH]; [done|]. rewrite bind_cons.
  by apply balanced_flatten.
Qed.

Lemma document_lines_take l : forall k n,
  take n (document_lines k l) = document_lines k (take n l).
Proof.
  induction l as [|[v|] l IH]; intros k [|n]; try done.
  - change (document_lines k (Some v :: l))
      with (entry_line k (Some v) :: document_lines (k + 1) l).
    cbn [take]. by rewrite IH.
  - change (document_lines k (None :: l)) with ("[X]" :: document_lines k l).
    cbn [take]. by rewrite IH.
Qed.

Lemma overruns_app_false l1 : forall b d l2,
  overruns b d (l1 ++ l2) = false -> overruns b d l1 = false.
Proof.
  induction l1 as [|[v|] l1 IH]; intros b d l2; [done| |].
  - cbn [app overruns]. destruct b; [destruct d; [done|]|]; apply IH.
  - cbn [app overruns]. apply IH.
Qed.

Lemma overruns_flatten r : overruns false 0 (flatten r) = false.
Proof.
  destruct (delinearize_loop_flatten_then r []) as (t' & r' & Hloop & _).
  rewrite app_nil_r in Hloop. simpl in Hloop.
  pose proof (delinearize_loop_start (flatten r)) as Hstart.
  destruct (overruns false 0 (flatten r)); [|done].
  by rewrite Hstart in Hloop.
Qed.

(** A text cut off inside the tree leaves more values than tokens. *)
Lemma flatten_prefix_open r n :
  (0 < n < length (flatten r))%nat ->
  balanced 0 (take n (flatten r)) ∧
  (count_markers (take n (flatten r)) < count_values (take n (flatten r)))%nat.
Proof.
  intros Hn.
  assert (balanced 0 (flatten r)) as Hbal.
  { rewrite <- (app_nil_r (flatten r)). by apply balanced_flatten. }
  split.
  { rewrite <- (take_drop n (flatten r)) in Hbal. by apply balanced_app_l in Hbal. }
  destruct r as [v par cs i a]. rewrite flatten_unfold in Hn |- *.
  cbn [value children] in *. destruct n as [|n]; [lia|].
  cbn [take length] in *. rewrite length_app in Hn. simpl in Hn.
  rewrite take_app_le by lia.
  rewrite count_values_cons_Some, count_markers_cons_Some.
  pose proof (balanced_forest cs) as Hf.
  rewrite <- (take_drop n (cs ≫= flatten)) in Hf.
  apply balanced_app_l, balanced_counts in Hf; lia.
Qed.

(** X23. A saved tree cut off after some of its lines. For a tree whose
    values have faithful one-line texts, [deserialize] of the first [n]
    lines of the text that [serialize] returns, where some lines but not
    all are kept, prints the error for too few tokens and returns a tree
    all the same: its values in pre-order are the values of the lines that
    are there. *)
Theorem deserialize_cut_off_text (t : Tree) (n : nat) :
  T_compatible_check = true ->
  (forall v, v ∈ value <$> nodes t -> faithful v) ->
  (0 < n < length (tree_flatten t))%nat ->
  exists text t',
    serialize t = Some text ∧
    deserialize (unlines (take n (getlines EmptyString text)))
      = (Some UnbalancedMarkers, Ok t') ∧
    value <$> nodes t' = omap id (take n (tree_flatten t)) ∧
    ID <$> nodes t' = seqZ 0 (Z.of_nat (length (nodes t'))).
Proof.
  intros Hcheck Hv Hn.
  pose proof (tree_flatten_faithful t Hv) as Hf.
  exists (unlines (document_lines 0 (tree_flatten t))).
  assert (Forall single_line (document_lines 0 (tree_flatten t))) as Hlines.
  { apply document_lines_single_line. intros v Hin. apply (Hf v Hin). }
  rewrite getlines_unlines by done.
  assert (exists r, root t = Some r) as [r Hr].
  { unfold tree_flatten in Hn. destruct (root t); [by eexists|simpl in Hn; lia]. }
  unfold tree_flatten in *. rewrite Hr in *.
  destruct (flatten_prefix_open r n Hn) as [Hbal Hopen].
  pose proof (overruns_app_false (take n (flatten r)) false O (drop n (flatten r)))
    as Hover.
  rewrite take_drop in Hover. specialize (Hover (overruns_flatten r)).
  pose proof (delinearize_loop_start (take n (flatten r))) as Hstart.
  rewrite Hover in Hstart. destruct Hstart as (t' & Hloop & HI' & Hval & Hid & _).
  exists t'. split; [rewrite serialize_spec; unfold tree_flatten; by rewrite Hr|].
  split_and!.
  - unfold deserialize. rewrite document_lines_take.
    rewrite getlines_unlines.
    2:{ rewrite <- document_lines_take. by apply Forall_take. }
    rewrite deserialize_lines_document.
    + cbn zeta. cbn [nodeCount eocTokenCount linearized_of app fst snd].
      rewrite decide_True by lia. cbn [fst snd linearized_of].
      unfold delinearize, Tree_new. by rewrite Hcheck, Hloop.
    + intros v Hin. apply (Hf v). rewrite <- (take_drop n (flatten r)).
      apply elem_of_app. by left.
    + done.
  - done.
  - rewrite Hid. do 2 f_equal.
    rewrite <- (length_fmap value), Hval. apply omap_id_nil_count.
Qed.

(** X24. A value that cannot be read. For a payload type read with
    [operator>>], when the lines before are well-formed lines for entries
    [l] and the next line is a value line whose value part [operator>>]
    fails on, [deserialize] prints the error for an unparsable value,
    reads nothing after that line, and returns what [delinearize] makes of
    [l]. *)
Theorem deserialize_stops_at_unparsable_value
    (l : list (option T)) (d text rest : string) :
  T_whole_line = None ->
  (T_extract text T_default).2 = false ->
  "]"%char ∉ list_ascii_of_string d ->
  single_line d -> single_line text ->
  (forall v, Some v ∈ l -> faithful v) ->
  balanced 0 l ->
  deserialize (unlines (document_lines 0 l)
               +:+ ("[" +:+ d +:+ "]: " +:+ text) +:+ endl +:+ rest) =
  (Some UnparsablePayload, delinearize l).
Proof.
  intros Hwhole Hfail Hd Hdl Htl Hl Hbal. unfold deserialize.
  rewrite getlines_unlines_then
    by (apply document_lines_single_line; intros v Hv; apply (Hl v Hv)).
  rewrite getlines_line.
  2:{ apply (single_line_append "["); [no_newline|].
      apply single_line_append; [done|].
      by apply (single_line_append "]: "); [no_newline|]. }
  rewrite append_nil_l.
  rewrite deserialize_lines_prefix; [|intros v Hv; apply (Hl v Hv)|done].
  cbn [deserialize_lines].
  assert (forall st,
            deserialize_line st ("[" +:+ d +:+ "]: " +:+ text)
            = (st, Some UnparsablePayload)) as ->; [|done].
  intros st. unfold deserialize_line.
  assert (String.eqb ("[" +:+ d +:+ "]: " +:+ text) "[X]" = false) as ->.
  { apply String.eqb_neq. rewrite append_cons, append_nil_l. intros [= Heq].
    destruct d as [|c [|c' s]].
    - by rewrite append_nil_l, append_cons in Heq.
    - rewrite !append_cons, append_nil_l in Heq. by injection Heq.
    - rewrite !append_cons in Heq. injection Heq as _ Hc' _. subst c'.
      apply Hd. simpl. apply elem_of_cons. right. apply elem_of_cons. by left. }
  rewrite (append_cons "[" EmptyString), append_nil_l.
  rewrite (find_cons "["), (prefix_cons "[" EmptyString "[").
  destruct (ascii_dec "[" "[") as [_|?]; [|done].
  cbn [String.prefix]. rewrite find_cons.
  rewrite (prefix_cons "]" _ "[").
  destruct (ascii_dec "]" "[") as [?|_]; [done|].
  rewrite find_after_digits by done. simpl.
  replace (S (String.length d) + 3)%nat
    with (S (String.length d + 3))%nat by lia.
  simpl. rewrite <- append_assoc.
  replace (String.length d + 3)%nat with (String.length (d +:+ "]: ")).
  2:{ clear. induction d as [|c s IHs]; [done|].
      rewrite append_cons. simpl. by rewrite IHs. }
  assert (forall s, String.prefix EmptyString s = true) as Hp by (by intros []).
  rewrite Hp, substr_append. unfold parse_value. by rewrite Hwhole, Hfail.
Qed.

(** ** Every node can be played *)



End TreeModel.

(** * The claims on [Tree<std::string>] *)

Lemma bump_fresh (live : list ptr) : bump live ∉ live.
Proof.
  assert (forall a, a ∈ live -> (a < bump live)%nat) as Hlt.
  { unfold bump. induction live as [|b live IH]; intros a Ha.
    - by apply elem_of_nil in Ha.
    - apply elem_of_cons in Ha as [->|Ha]; simpl; [lia|].
      specialize (IH a Ha). lia. }
  intros Hin. specialize (Hlt _ Hin). lia.
Qed.

(** C6, as amended. For a tree in which the text of every value is one
    line (no newline in it), [serialize] writes one line per entry of the
    linearized form, in order: the text, read line by line, has as many
    lines as there are entries; the line of a value entry is ["[k]: "]
    and the text of the value, [k] being the number of value entries
    before it; the line of a token is ["[X]"]; every line ends with a
    newline. For the tree with root A, children B, C, D under A and E, F
    under B this is the twelve lines A, B, E, [X], F, [X], [X], C, [X], D,
    [X], [X], with the values numbered 0 to 5. *)
Theorem serialize_one_line_per_entry :
  (forall (T : Type) (P : Payload T) (t : @Tree T),
     (forall v, v ∈ value <$> nodes t -> single_line (T_insert v)) ->
     exists linearized lines text,
       linearize t = Some linearized ∧
       serialize t = Some text ∧
       text = unlines lines ∧
       getlines EmptyString text = lines ∧
       Forall single_line lines ∧
       length lines = length linearized ∧
       forall i,
         lines !! i =
         entry_line (Z.of_nat (count_values (take i linearized)))
           <$> linearized !! i) ∧
  linearize
    (run_ops bump
              [SetRoot "A"; AppendNode 0 "B"; AppendNode 0 "C"; AppendNode 0 "D";
               AppendNode 1 "E"; AppendNode 1 "F"] (mkTree None ∅ 0)) =
    Some [Some "A"; Some "B"; Some "E"; None; Some "F"; None; None;
          Some "C"; None; Some "D"; None; None] ∧
  serialize
    (run_ops bump
              [SetRoot "A"; AppendNode 0 "B"; AppendNode 0 "C"; AppendNode 0 "D";
               AppendNode 1 "E"; AppendNode 1 "F"] (mkTree None ∅ 0)) =
    Some (unlines ["[0]: A"; "[1]: B"; "[2]: E"; "[X]"; "[3]: F"; "[X]"; "[X]";
                   "[4]: C"; "[X]"; "[5]: D"; "[X]"; "[X]"]).
Proof.
  split_and!.
  - intros T P t Hline. by apply serialize_one_line_each.
  - vm_compute. reflexivity.
  - vm_compute. reflexivity.
Qed.

(** C6 as stated fails when the text of a value has a newline in it. For
    the [Tree<std::string>] whose root is the two-line string "a\nb" the
    linearized form has two entries, the value and its token, but the text
    that [serialize] returns has three lines: ["[0]: a"], ["b"] and
    ["[X]"]. The second is neither the line of a value entry nor a
    token. *)
Lemma serialize_gives_a_value_with_a_newline_two_lines :
  exists linearized text,
    linearize (run_ops bump [SetRoot ("a" +:+ endl +:+ "b")] (mkTree None ∅ 0))
      = Some linearized ∧
    @serialize string std_string
      (run_ops bump [SetRoot ("a" +:+ endl +:+ "b")] (mkTree None ∅ 0))
      = Some text ∧
    linearized = [Some ("a" +:+ endl +:+ "b"); None] ∧
    text = "[0]: a" +:+ endl +:+ "b" +:+ endl +:+ "[X]" +:+ endl ∧
    getlines EmptyString text = ["[0]: a"; "b"; "[X]"] ∧
    length (getlines EmptyString text) ≠ length linearized.
Proof.
  eexists. eexists. split_and!.
  - vm_compute. reflexivity.
  - vm_compute. reflexivity.
  - reflexivity.
  - vm_compute. reflexivity.
  - vm_compute. reflexivity.
  - vm_compute. discriminate.
Qed.

(** C2. [deserialize] on ["[0]: A\n[X]\n[X]\n"] for [Tree<std::string>]:
    the second token makes the token count exceed the value count and the
    loop throws, but the [catch] block of [deserialize] itself takes the
    exception, prints it, and the function returns the tree that
    [delinearize] builds from the entries read so far: a tree with the
    single node A. Whatever the document, none of the three parsing errors
    ever leaves [deserialize]. *)
Theorem deserialize_swallows_unbalanced_markers :
  (@deserialize string std_string bump
     ("[0]: A" +:+ endl +:+ "[X]" +:+ endl +:+ "[X]" +:+ endl)).1
    = Some UnbalancedMarkers ∧
  (exists t : @Tree string,
     (@deserialize string std_string bump
        ("[0]: A" +:+ endl +:+ "[X]" +:+ endl +:+ "[X]" +:+ endl)).2 = Ok t ∧
     getRootID t = 0 ∧ getValue 0 t = Ok "A" ∧ getChildrenIDs 0 t = Ok []) ∧
  (forall (T : Type) (P : Payload T) (alloc : list ptr -> ptr) (s : string),
     match (@deserialize T P alloc s).2 with
     | Throw MalformedLine | Throw UnparsablePayload | Throw UnbalancedMarkers => False
     | _ => True
     end).
Proof.
  split_and!.
  - vm_compute. reflexivity.
  - eexists. split; [vm_compute; reflexivity|]. split_and!; vm_compute; reflexivity.
  - intros T P alloc s.
    pose proof (deserialize_never_throws_from_parsing alloc s) as Hthrow.
    destruct (deserialize alloc s).2 as [t|e|]; try done.
    destruct (Hthrow e eq_refl) as [->|[->|[i ->]]]; done.
Qed.

(** C1 as stated fails for [Tree<std::string>]: there the text of a value
    is the value and [deserialize] takes the rest of the line as the value,
    so every text reads back as the value it came from. But for the tree
    whose root is the two-line string "a\nb", [serialize] writes the lines
    ["[0]: a"], ["b"], ["[X]"]; [deserialize] rejects ["b"] and returns a
    tree whose root is "a". It fails in the same way for a type read with
    [operator>>]: every value of [two_line_flag] is read back from its text
    by [>>], yet the tree with root [true] serializes to ["[0]: 1"], ["1"],
    ["[X]"], the first line does not parse, and [deserialize] returns a
    tree without root. *)
Lemma roundtrip_loses_a_value_with_a_newline :
  (@Tree_new string std_string = Ok (mkTree None ∅ 0) ∧
   Forall insertion [SetRoot ("a" +:+ endl +:+ "b")] ∧
   (forall v : string, parse_value (T_insert v) = Some v) ∧
   exists text t',
     serialize (run_ops bump [SetRoot ("a" +:+ endl +:+ "b")] (mkTree None ∅ 0))
       = Some text ∧
     deserialize bump text = (Some MalformedLine, Ok t') ∧
     value <$> nodes t' = ["a"] ∧
     value <$> nodes (run_ops bump [SetRoot ("a" +:+ endl +:+ "b")]
                              (mkTree None ∅ 0))
       = ["a" +:+ endl +:+ "b"] ∧
     value <$> nodes t' ≠
     value <$> nodes (run_ops bump [SetRoot ("a" +:+ endl +:+ "b")]
                              (mkTree None ∅ 0))) ∧
  (@Tree_new bool two_line_flag = Ok (mkTree None ∅ 0) ∧
   Forall insertion [SetRoot true] ∧
   (forall v : bool, T_extract (T_insert v) T_default = (v, true)) ∧
   (forall v : bool, parse_value (T_insert v) = Some v) ∧
   exists text t',
     serialize (run_ops bump [SetRoot true] (mkTree None ∅ 0)) = Some text ∧
     deserialize bump text = (Some UnparsablePayload, Ok t') ∧
     value <$> nodes t' = [] ∧
     value <$> nodes (run_ops bump [SetRoot true] (mkTree None ∅ 0)) = [true]).
Proof.
  split; split_and!.
  - reflexivity.
  - repeat constructor.
  - reflexivity.
  - eexists. eexists. split_and!.
    + vm_compute. reflexivity.
    + vm_compute. reflexivity.
    + vm_compute. reflexivity.
    + vm_compute. reflexivity.
    + vm_compute. discriminate.
  - reflexivity.
  - repeat constructor.
  - by intros [].
  - by intros [].
  - eexists. eexists. split_and!; vm_compute; reflexivity.
Qed.

(** ** The theorems at work on concrete trees *)

Lemma removeNode_sentinel_on_empty_witness :
  root (@mkTree string None ∅ 0) = None ∧
  getRootID (@mkTree string None ∅ 0) = -1 ∧
  removeNode (-1) (@mkTree string None ∅ 0)
    = (mkTree None ∅ 0, Throw CannotRemoveRoot).
Proof.
  split; [reflexivity|].
  apply (@removeNode_sentinel_on_empty string (mkTree None ∅ 0)). reflexivity.
Defined.

Lemma deserialize_serialize_rebuilds_witness :
  (forall live : list ptr, bump live ∉ live) ∧
  @Tree_new string std_string = Ok (mkTree None ∅ 0) ∧
  Forall insertion
    [SetRoot "A"; AppendNode 0 "B"; AppendNode 0 "C"; AppendNode 0 "D";
     AppendNode 1 "E"; AppendNode 1 "F"] ∧
  exists text t',
    serialize (run_ops bump
              [SetRoot "A"; AppendNode 0 "B"; AppendNode 0 "C"; AppendNode 0 "D";
               AppendNode 1 "E"; AppendNode 1 "F"] (mkTree None ∅ 0)) = Some text ∧
    deserialize bump text = (None, Ok t') ∧
    value <$> nodes t' = value <$> nodes (run_ops bump
              [SetRoot "A"; AppendNode 0 "B"; AppendNode 0 "C"; AppendNode 0 "D";
               AppendNode 1 "E"; AppendNode 1 "F"] (mkTree None ∅ 0)) ∧
    (fun n => length (children n)) <$> nodes t' =
      (fun n => length (children n)) <$> nodes (run_ops bump
              [SetRoot "A"; AppendNode 0 "B"; AppendNode 0 "C"; AppendNode 0 "D";
               AppendNode 1 "E"; AppendNode 1 "F"] (mkTree None ∅ 0)) ∧
    ID <$> nodes t' = seqZ 0 (Z.of_nat (length (nodes (run_ops bump
              [SetRoot "A"; AppendNode 0 "B"; AppendNode 0 "C"; AppendNode 0 "D";
               AppendNode 1 "E"; AppendNode 1 "F"] (mkTree None ∅ 0))))).
Proof.
  split_and!; [apply bump_fresh|reflexivity|repeat constructor|].
  apply (@deserialize_serialize_rebuilds string std_string bump bump_fresh
           [SetRoot "A"; AppendNode 0 "B"; AppendNode 0 "C"; AppendNode 0 "D";
            AppendNode 1 "E"; AppendNode 1 "F"] (mkTree None ∅ 0)).
  - reflexivity.
  - repeat constructor.
  - intros v Hin. vm_compute in Hin.
    repeat (apply elem_of_cons in Hin as [->|Hin];
            [split; [no_newline|reflexivity]|]).
    by apply elem_of_nil in Hin.
Defined.




Lemma linearize_preorder_with_markers_witness :
  linearize (run_ops bump
              [SetRoot "A"; AppendNode 0 "B"; AppendNode 0 "C"; AppendNode 0 "D";
               AppendNode 1 "E"; AppendNode 1 "F"] (mkTree None ∅ 0)) = Some (tree_flatten (run_ops bump
              [SetRoot "A"; AppendNode 0 "B"; AppendNode 0 "C"; AppendNode 0 "D";
               AppendNode 1 "E"; AppendNode 1 "F"] (mkTree None ∅ 0))) ∧
  length (tree_flatten (run_ops bump
              [SetRoot "A"; AppendNode 0 "B"; AppendNode 0 "C"; AppendNode 0 "D";
               AppendNode 1 "E"; AppendNode 1 "F"] (mkTree None ∅ 0))) = 12%nat ∧
  exists m c l2,
    m ∈ nodes (run_ops bump
              [SetRoot "A"; AppendNode 0 "B"; AppendNode 0 "C"; AppendNode 0 "D";
               AppendNode 1 "E"; AppendNode 1 "F"] (mkTree None ∅ 0)) ∧ children m = [] ++ c :: l2 ∧ value m = "A" ∧ value c = "B" ∧
    exists pre post,
      tree_flatten (run_ops bump
              [SetRoot "A"; AppendNode 0 "B"; AppendNode 0 "C"; AppendNode 0 "D";
               AppendNode 1 "E"; AppendNode 1 "F"] (mkTree None ∅ 0)) =
      pre ++ Some (value m) :: ([] ≫= flatten)
          ++ (Some (value c) :: (children c ≫= flatten) ++ [None])
          ++ (l2 ≫= flatten) ++ None :: post.
Proof.
  destruct (@linearize_preorder_with_markers string (run_ops bump
              [SetRoot "A"; AppendNode 0 "B"; AppendNode 0 "C"; AppendNode 0 "D";
               AppendNode 1 "E"; AppendNode 1 "F"] (mkTree None ∅ 0)))
    as (Hlin & _ & Hlen & _ & _ & _ & Hsib).
  split_and!; [exact Hlin|exact Hlen|].
  destruct (root (run_ops bump
              [SetRoot "A"; AppendNode 0 "B"; AppendNode 0 "C"; AppendNode 0 "D";
               AppendNode 1 "E"; AppendNode 1 "F"] (mkTree None ∅ 0))) as [[v par [|c l2] i a]|] eqn:Hr;
    try (vm_compute in Hr; discriminate).
  exists (mkNode v par (c :: l2) i a), c, l2.
  assert (mkNode v par (c :: l2) i a ∈ nodes (run_ops bump
              [SetRoot "A"; AppendNode 0 "B"; AppendNode 0 "C"; AppendNode 0 "D";
               AppendNode 1 "E"; AppendNode 1 "F"] (mkTree None ∅ 0))) as Hm.
  { unfold nodes. rewrite Hr. apply self_in_preorder. }
  split_and!; try done.
  - vm_compute in Hr. by injection Hr as <- _ _ _ _.
  - vm_compute in Hr. by injection Hr as _ _ <- _ _ _.
  - by apply Hsib.
Defined.

Lemma constructors_check_payload_witness :
  @Tree_new string std_string = Ok (mkTree None ∅ 0) ∧
  @Tree_new bool
    (Build_Payload bool false (fun b : bool => if b then "1" else "0")
                   (fun _ _ => (true, true)) Bool.eqb None)
    = Throw IncompatiblePayloadType ∧
  @Tree_of_value bool
    (Build_Payload bool false (fun b : bool => if b then "1" else "0")
                   (fun _ _ => (true, true)) Bool.eqb None) bump true
    = Throw IncompatiblePayloadType.
Proof.
  split_and!.
  - apply (@constructors_check_payload string std_string bump "A").
  - apply (@constructors_check_payload bool
             (Build_Payload bool false (fun b : bool => if b then "1" else "0")
                            (fun _ _ => (true, true)) Bool.eqb None) bump true).
  - apply (@constructors_check_payload bool
             (Build_Payload bool false (fun b : bool => if b then "1" else "0")
                            (fun _ _ => (true, true)) Bool.eqb None) bump true).
Defined.

Lemma subscript_getValue_equivalent_witness :
  subscript 4 (run_ops bump
              [SetRoot "A"; AppendNode 0 "B"; AppendNode 0 "C"; AppendNode 0 "D";
               AppendNode 1 "E"; AppendNode 1 "F"] (mkTree None ∅ 0)) = getValue 4 (run_ops bump
              [SetRoot "A"; AppendNode 0 "B"; AppendNode 0 "C"; AppendNode 0 "D";
               AppendNode 1 "E"; AppendNode 1 "F"] (mkTree None ∅ 0)) ∧
  getValue 4 (run_ops bump
              [SetRoot "A"; AppendNode 0 "B"; AppendNode 0 "C"; AppendNode 0 "D";
               AppendNode 1 "E"; AppendNode 1 "F"] (mkTree None ∅ 0)) = Ok "E" ∧
  subscript 99 (run_ops bump
              [SetRoot "A"; AppendNode 0 "B"; AppendNode 0 "C"; AppendNode 0 "D";
               AppendNode 1 "E"; AppendNode 1 "F"] (mkTree None ∅ 0)) = getValue 99 (run_ops bump
              [SetRoot "A"; AppendNode 0 "B"; AppendNode 0 "C"; AppendNode 0 "D";
               AppendNode 1 "E"; AppendNode 1 "F"] (mkTree None ∅ 0)) ∧
  getValue 99 (run_ops bump
              [SetRoot "A"; AppendNode 0 "B"; AppendNode 0 "C"; AppendNode 0 "D";
               AppendNode 1 "E"; AppendNode 1 "F"] (mkTree None ∅ 0)) = Throw (NodeNotFound 99).
Proof.
  split_and!.
  - exact (proj1 (@subscript_getValue_equivalent string (run_ops bump
              [SetRoot "A"; AppendNode 0 "B"; AppendNode 0 "C"; AppendNode 0 "D";
               AppendNode 1 "E"; AppendNode 1 "F"] (mkTree None ∅ 0)) 4)).
  - vm_compute. reflexivity.
  - exact (proj1 (@subscript_getValue_equivalent string (run_ops bump
              [SetRoot "A"; AppendNode 0 "B"; AppendNode 0 "C"; AppendNode 0 "D";
               AppendNode 1 "E"; AppendNode 1 "F"] (mkTree None ∅ 0)) 99)).
  - vm_compute. reflexivity.
Defined.

Lemma serialize_one_line_per_entry_witness :
  (forall v : string,
     v ∈ value <$> nodes (run_ops bump [SetRoot "A"; AppendNode 0 "B c"]
                            (mkTree None ∅ 0)) ->
     single_line (T_insert v)) ∧
  exists lines text,
    serialize (run_ops bump [SetRoot "A"; AppendNode 0 "B c"] (mkTree None ∅ 0))
      = Some text ∧
    getlines EmptyString text = lines ∧
    Forall single_line lines ∧
    length lines = 4%nat.
Proof.
  assert (forall v : string,
            v ∈ value <$> nodes (run_ops bump [SetRoot "A"; AppendNode 0 "B c"]
                                   (mkTree None ∅ 0)) ->
            single_line (T_insert v)) as Hline.
  { intros v Hin. vm_compute in Hin.
    repeat (apply elem_of_cons in Hin as [->|Hin]; [no_newline|]).
    by apply elem_of_nil in Hin. }
  split; [done|].
  destruct (proj1 serialize_one_line_per_entry string std_string
              (run_ops bump [SetRoot "A"; AppendNode 0 "B c"] (mkTree None ∅ 0))
              Hline)
    as (linearized & lines & text & Hlin & Hser & _ & Hget & Hsingle & Hlen & _).
  exists lines, text. split_and!; try done.
  rewrite Hlen. vm_compute in Hlin. injection Hlin as <-. done.
Defined.

(** * StoryNode.cpp: reading back what was written *)

Lemma length_append (a b : string) :
  String.length (a +:+ b) = (String.length a + String.length b)%nat.
Proof. induction a as [|x a IH]; [done|]. rewrite append_cons. simpl. by rewrite IH. Qed.

Lemma length_substr (n : nat) (s : string) :
  String.length (substr n s) = (String.length s - n)%nat.
Proof.
  revert s. induction n as [|n IH]; intros s; [by destruct s; simpl; lia|].
  destruct s as [|c s]; [done|]. simpl. apply IH.
Qed.

Lemma prefix_length (p s : string) :
  String.prefix p s = true -> (String.length p <= String.length s)%nat.
Proof.
  revert s. induction p as [|a p IH]; intros s; [simpl; lia|].
  destruct s as [|b s]; [done|]. rewrite prefix_cons.
  destruct (ascii_dec a b); [|done]. intros Hp%IH. simpl. lia.
Qed.

Lemma prefix_append (p rest : string) : String.prefix p (p +:+ rest) = true.
Proof.
  induction p as [|a p IH]; [by destruct rest|].
  rewrite append_cons, prefix_cons. by destruct (ascii_dec a a).
Qed.

Lemma find_bound (needle s : string) (k : nat) :
  find needle s = Some k -> (k + String.length needle <= String.length s)%nat.
Proof.
  revert k. induction s as [|c s IH]; intros k.
  - destruct needle; [|done]. intros [= <-]. simpl. lia.
  - rewrite find_cons. destruct (String.prefix needle (String c s)) eqn:Hp.
    + intros [= <-]. by apply prefix_length in Hp.
    + destruct (find needle s) as [k'|]; [|done]. intros [= <-].
      specialize (IH k' eq_refl). simpl. lia.
Qed.

Lemma find_here (needle rest : string) : find needle (needle +:+ rest) = Some O.
Proof.
  destruct needle as [|a p].
  - rewrite append_nil_l. by destruct rest.
  - rewrite append_cons, find_cons, <- append_cons. by rewrite prefix_append.
Qed.

Lemma find_char (c : ascii) (a rest : string) :
  c ∉ list_ascii_of_string a ->
  find (String c EmptyString) (a +:+ String c rest) = Some (String.length a).
Proof.
  induction a as [|x a IH]; intros Ha.
  - rewrite append_nil_l, find_cons, prefix_cons.
    destruct (ascii_dec c c); [|done]. by destruct rest.
  - simpl in Ha. apply not_elem_of_cons in Ha as [Hx Ha].
    rewrite append_cons, find_cons, prefix_cons.
    destruct (ascii_dec c x) as [->|_]; [done|]. by rewrite IH.
Qed.

Lemma prefix_of_append (a b : string) :
  Story.prefix_of (String.length a) (a +:+ b) = a.
Proof.
  induction a as [|x a IH]; [by destruct b|]. rewrite append_cons. simpl.
  by rewrite IH.
Qed.

Lemma prefix_of_all (n : nat) (s : string) :
  (String.length s <= n)%nat -> Story.prefix_of n s = s.
Proof.
  revert n. induction s as [|c s IH]; intros n Hn; [by destruct n|].
  destruct n as [|n]; [simpl in Hn; lia|]. simpl. rewrite IH; [done|].
  simpl in Hn. lia.
Qed.

Lemma first_line_append (a b : string) :
  single_line a -> Story.first_line (a +:+ b) = a +:+ Story.first_line b.
Proof.
  unfold single_line. induction a as [|x a IH]; intros Ha; [done|].
  simpl in Ha. apply not_elem_of_cons in Ha as [Hx Ha].
  rewrite !append_cons. simpl.
  destruct (Ascii.eqb_spec x newline) as [->|_]; [done|]. by rewrite IH.
Qed.

Lemma first_line_single (a : string) : single_line a -> Story.first_line a = a.
Proof.
  intros Ha. rewrite <- (append_nil_r a) at 1.
  rewrite first_line_append by done. simpl. by rewrite append_nil_r.
Qed.

Lemma first_line_shorter (s : string) :
  (String.length (Story.first_line s) <= String.length s)%nat.
Proof.
  induction s as [|c s IH]; [done|]. simpl.
  destruct (Ascii.eqb c newline); simpl; lia.
Qed.

Lemma pop_back_space_shorter (s : string) :
  (String.length (Story.pop_back_space s) <= String.length s)%nat.
Proof.
  induction s as [|c s IH]; [done|]. simpl. destruct s as [|d s].
  - destruct (Ascii.eqb c Story.space); simpl; lia.
  - simpl in *. lia.
Qed.

Lemma pop_back_space_append (a b : string) :
  b ≠ EmptyString ->
  Story.pop_back_space (a +:+ b) = a +:+ Story.pop_back_space b.
Proof.
  intros Hb. induction a as [|x a IH]; [done|].
  rewrite !append_cons. simpl. rewrite IH.
  destruct (a +:+ b) as [|d s] eqn:Heq; [|done].
  destruct a; [by rewrite append_nil_l in Heq|by rewrite append_cons in Heq].
Qed.

Lemma size_t_small (z : Z) : 0 ≤ z < 2 ^ 64 -> Story.size_t z = z.
Proof. intros Hz. unfold Story.size_t. by apply Z.mod_small. Qed.

(** [find] from a position that is the length of a known beginning. *)
Lemma find_from_after (needle a rest : string) (pos : Z) :
  pos = Story.size a ->
  Story.find_from needle (a +:+ rest) pos =
  match find needle rest with
  | Some k => pos + Z.of_nat k
  | None => Story.npos
  end.
Proof.
  intros ->. unfold Story.find_from, Story.size.
  rewrite length_append, Nat2Z.id, substr_append.
  destruct (_ <? _) eqn:Hlt; [|done]. apply Z.ltb_lt in Hlt. lia.
Qed.

Lemma substr_n_after (a b rest : string) (pos n : Z) :
  pos = Story.size a -> n = Story.size b ->
  Story.substr_n (a +:+ b +:+ rest) pos n = Some b.
Proof.
  intros -> ->. unfold Story.substr_n, Story.size.
  rewrite !length_append, Nat2Z.id, substr_append.
  destruct (_ <? _) eqn:Hlt; [apply Z.ltb_lt in Hlt; lia|].
  rewrite Z.min_l by lia. by rewrite Nat2Z.id, prefix_of_append.
Qed.

(** Where [find] leaves a position that [substr] accepts. *)
Lemma find_from_in_range (needle s : string) (pos : Z) :
  0 ≤ pos ->
  Story.find_from needle s pos = Story.npos ∨
  Story.find_from needle s pos + Story.size needle ≤ Story.size s.
Proof.
  intros Hpos. unfold Story.find_from, Story.size.
  destruct (_ <? _) eqn:Hlt; [by left|]. apply Z.ltb_ge in Hlt.
  destruct (find needle (substr (Z.to_nat pos) s)) as [k|] eqn:Hf; [|by left].
  right. apply find_bound in Hf. rewrite length_substr in Hf. lia.
Qed.

Lemma find_from_none (needle s : string) (pos : Z) :
  (String.length s < String.length needle)%nat ->
  Story.find_from needle s pos = Story.npos.
Proof.
  intros Hlen. unfold Story.find_from. destruct (_ <? _); [done|].
  destruct (find needle (substr (Z.to_nat pos) s)) as [k|] eqn:Hf; [|done].
  apply find_bound in Hf. rewrite length_substr in Hf. lia.
Qed.

Lemma find_outcome_key (rest : string) (pos : Z) :
  match find Story.outcome_key
          ((Story.quote_str +:+ " " +:+ Story.outcome_key) +:+ rest) with
  | Some k => pos + Z.of_nat k
  | None => Story.npos
  end = pos + 2.
Proof.
  rewrite !append_assoc. unfold Story.quote_str at 1.
  rewrite !append_cons, !append_nil_l.
  rewrite find_cons.
  assert (forall x, String.prefix Story.outcome_key (String Story.quote x) = false)
    as -> by reflexivity.
  rewrite find_cons.
  assert (forall x, String.prefix Story.outcome_key (String " " x) = false)
    as -> by reflexivity.
  rewrite find_here. simpl. lia.
Qed.

(** The first field: a buffer that begins with the key, then [a] without
    a double quote, then a double quote. *)
Lemma parse_buffer_action (a rest : string) :
  Story.quote ∉ list_ascii_of_string a ->
  Story.size (Story.action_key +:+ a +:+ Story.quote_str +:+ rest) < 2 ^ 64 ->
  Story.parse_buffer (Story.action_key +:+ a +:+ Story.quote_str +:+ rest) =
  let buffer := Story.action_key +:+ a +:+ Story.quote_str +:+ rest in
  let outcomePos := Story.find_from Story.outcome_key buffer (9 + Story.size a) in
  let outcomeEnd :=
    Story.find_from Story.quote_str buffer (Story.size_t (outcomePos + 10)) in
  match Story.substr_n buffer (Story.size_t (outcomePos + 10))
          (Story.size_t (outcomeEnd - Story.size_t (outcomePos + 10))) with
  | None => Story.OutOfRange
  | Some o => Story.Extracted (Story.mkStoryNode a o)
  end.
Proof.
  intros Ha Hsize. cbv zeta. unfold Story.parse_buffer. cbv zeta.
  set (buffer := Story.action_key +:+ a +:+ Story.quote_str +:+ rest) in *.
  assert (Story.size buffer = 9 + Story.size a + 1 + Story.size rest) as Hlen.
  { unfold buffer, Story.size. rewrite !length_append. simpl. lia. }
  assert (0 ≤ Story.size a ∧ 0 ≤ Story.size rest) as [Ha0 Hr0]
    by (unfold Story.size; lia).
  assert (Story.find_from Story.action_key buffer 0 = 0) as ->.
  { rewrite <- (append_nil_l buffer).
    rewrite (find_from_after Story.action_key EmptyString buffer 0 eq_refl).
    unfold buffer. by rewrite find_here. }
  rewrite (size_t_small (0 + 9)) by lia.
  assert (Story.find_from Story.quote_str buffer (0 + 9) = 9 + Story.size a) as ->.
  { unfold buffer.
    rewrite (find_from_after Story.quote_str Story.action_key _ (0 + 9) eq_refl).
    unfold Story.quote_str at 1 2. rewrite append_cons, append_nil_l.
    rewrite find_char by done. unfold Story.size. lia. }
  rewrite (size_t_small (9 + Story.size a - (0 + 9))) by lia.
  unfold buffer at 1.
  rewrite (substr_n_after Story.action_key a _ (0 + 9) _ eq_refl)
    by (unfold Story.size; lia).
  done.
Qed.

(** X16. What [operator<<] writes for a story node, [operator>>]
    reads back as that node, when neither field holds a double quote or a
    newline (and the text is shorter than 2^64 characters); whatever
    follows the text in the stream makes no difference. *)
Theorem StoryNode_written_then_read (sn : Story.StoryNode) (rest : string) :
  Story.quote ∉ list_ascii_of_string (Story.action sn) ->
  single_line (Story.action sn) ->
  Story.quote ∉ list_ascii_of_string (Story.outcome sn) ->
  single_line (Story.outcome sn) ->
  Story.size (Story.insert sn +:+ rest) < 2 ^ 64 ->
  Story.extract (Story.insert sn +:+ rest) = Story.Extracted sn.
Proof.
  destruct sn as [a o]. cbn [Story.action Story.outcome].
  intros Haq Han Hoq Hon Hsize. unfold Story.extract, Story.insert in *.
  cbn [Story.action Story.outcome] in *.
  set (mid := Story.quote_str +:+ " " +:+ Story.outcome_key) in *.
  assert ((Story.action_key +:+ a +:+ mid +:+ o +:+ Story.quote_str) +:+ rest =
          (Story.action_key +:+ a +:+ mid +:+ o) +:+ (Story.quote_str +:+ rest))
    as Htext by (by rewrite !append_assoc).
  rewrite Htext in Hsize |- *.
  rewrite first_line_append.
  2:{ apply single_line_append; [no_newline|].
      apply single_line_append; [done|].
      apply single_line_append; [no_newline|done]. }
  change (Story.first_line (Story.quote_str +:+ rest))
    with (String Story.quote (Story.first_line rest)).
  rewrite pop_back_space_append by done.
  assert (exists tail, Story.pop_back_space (String Story.quote (Story.first_line rest))
                       = Story.quote_str +:+ tail ∧
                       (String.length tail <= String.length rest)%nat)
    as (tail & -> & Htail).
  { destruct (Story.first_line rest) as [|c l] eqn:Hfl.
    - exists EmptyString. split; [done|simpl; lia].
    - exists (Story.pop_back_space (String c l)). split; [done|].
      etrans; [apply pop_back_space_shorter|]. rewrite <- Hfl.
      apply first_line_shorter. }
  assert (0 ≤ Story.size a ∧ 0 ≤ Story.size o ∧ 0 ≤ Story.size tail)
    as (Ha0 & Ho0 & Ht0) by (unfold Story.size; lia).
  assert (9 + Story.size a + 12 + Story.size o + 1 + Story.size tail < 2 ^ 64)
    as Hsmall.
  { unfold Story.size in *. rewrite !length_append in Hsize.
    simpl in Hsize. lia. }
  assert ((Story.action_key +:+ a +:+ mid +:+ o) +:+ Story.quote_str +:+ tail =
          Story.action_key +:+ a +:+ Story.quote_str +:+
            (" " +:+ Story.outcome_key +:+ o +:+ Story.quote_str +:+ tail))
    as Hbuf.
  { unfold mid. by rewrite !append_assoc. }
  rewrite Hbuf. rewrite parse_buffer_action; [|done|].
  2:{ unfold Story.size in *. rewrite !length_append. simpl. lia. }
  cbv zeta. rewrite <- Hbuf.
  assert (Story.find_from Story.outcome_key
            ((Story.action_key +:+ a +:+ mid +:+ o) +:+ Story.quote_str +:+ tail)
            (9 + Story.size a) = 9 + Story.size a + 2) as ->.
  { rewrite !append_assoc. rewrite <- (append_assoc Story.action_key a).
    rewrite (find_from_after Story.outcome_key (Story.action_key +:+ a)).
    2:{ unfold Story.size. rewrite length_append. simpl. lia. }
    apply find_outcome_key. }
  rewrite (size_t_small (9 + Story.size a + 2 + 10)) by lia.
  assert ((Story.action_key +:+ a +:+ mid +:+ o) +:+ Story.quote_str +:+ tail =
          (Story.action_key +:+ a +:+ mid) +:+ o +:+ Story.quote_str +:+ tail)
    as Hsplit by (by rewrite !append_assoc).
  assert (Story.size (Story.action_key +:+ a +:+ mid) = 9 + Story.size a + 2 + 10)
    as Hpre.
  { unfold Story.size. rewrite !length_append. simpl. lia. }
  rewrite Hsplit.
  rewrite (find_from_after Story.quote_str _ _ _ (eq_sym Hpre)).
  change (find Story.quote_str (o +:+ Story.quote_str +:+ tail))
    with (find (String Story.quote EmptyString)
               (o +:+ String Story.quote tail)).
  rewrite find_char by done.
  rewrite size_t_small by (unfold Story.size in *; lia).
  rewrite (substr_n_after _ o _ _ _ (eq_sym Hpre)); [done|].
  unfold Story.size. lia.
Qed.

(** X17. A double quote in the action cuts it short: for an action
    that holds a double quote, what [operator>>] reads back from the text
    that [operator<<] wrote has as action only the part before the first
    double quote. It does not throw. *)
Theorem StoryNode_action_is_cut_at_a_quote (a1 a2 o : string) :
  Story.quote ∉ list_ascii_of_string a1 ->
  single_line a1 ->
  Story.size (Story.insert
                (Story.mkStoryNode (a1 +:+ Story.quote_str +:+ a2) o)) < 2 ^ 64 ->
  exists o',
    Story.extract (Story.insert
                     (Story.mkStoryNode (a1 +:+ Story.quote_str +:+ a2) o))
    = Story.Extracted (Story.mkStoryNode a1 o').
Proof.
  intros Haq Han Hsize. unfold Story.extract, Story.insert in *.
  cbn [Story.action Story.outcome] in *.
  set (mid := Story.quote_str +:+ " " +:+ Story.outcome_key) in *.
  set (rest := a2 +:+ mid +:+ o +:+ Story.quote_str) in *.
  assert (Story.action_key +:+ (a1 +:+ Story.quote_str +:+ a2) +:+ mid +:+ o
            +:+ Story.quote_str =
          (Story.action_key +:+ a1) +:+ (Story.quote_str +:+ rest)) as Htext.
  { unfold rest. by rewrite !append_assoc. }
  rewrite Htext in Hsize |- *.
  rewrite first_line_append
    by (apply single_line_append; [no_newline|done]).
  change (Story.first_line (Story.quote_str +:+ rest))
    with (String Story.quote (Story.first_line rest)).
  rewrite pop_back_space_append by done.
  assert (exists tail, Story.pop_back_space (String Story.quote (Story.first_line rest))
                       = Story.quote_str +:+ tail ∧
                       (String.length tail <= String.length rest)%nat)
    as (tail & -> & Htail).
  { destruct (Story.first_line rest) as [|c l] eqn:Hfl.
    - exists EmptyString. split; [done|simpl; lia].
    - exists (Story.pop_back_space (String c l)). split; [done|].
      etrans; [apply pop_back_space_shorter|]. rewrite <- Hfl.
      apply first_line_shorter. }
  rewrite append_assoc.
  assert (Story.size (Story.action_key +:+ a1 +:+ Story.quote_str +:+ tail)
          = 9 + Story.size a1 + 1 + Story.size tail) as Hlen.
  { unfold Story.size. rewrite !length_append. simpl. lia. }
  assert (Story.size (Story.action_key +:+ a1 +:+ Story.quote_str +:+ tail)
          < 2 ^ 64) as Hsmall.
  { rewrite Hlen. unfold Story.size in *.
    rewrite !length_append in Hsize. simpl in Hsize. lia. }
  rewrite parse_buffer_action by done. cbv zeta.
  set (buffer := Story.action_key +:+ a1 +:+ Story.quote_str +:+ tail) in *.
  assert (0 ≤ Story.size a1 ∧ 0 ≤ Story.size tail) as [Ha0 Ht0]
    by (unfold Story.size; lia).
  destruct (find_from_in_range Story.outcome_key buffer (9 + Story.size a1))
    as [Hnone|Hfound]; [lia| |].
  - rewrite Hnone. change (Story.size_t (Story.npos + 10)) with 9.
    unfold Story.substr_n at 1.
    destruct (_ <? _) eqn:Hlt; [apply Z.ltb_lt in Hlt; lia|]. by eexists.
  - change (Story.size Story.outcome_key) with 10 in Hfound.
    assert (0 ≤ Story.find_from Story.outcome_key buffer (9 + Story.size a1))
      as Hpos.
    { unfold Story.find_from. destruct (_ <? _); [done|].
      destruct (find _ _); [lia|done]. }
    rewrite (size_t_small (_ + 10)) by lia.
    unfold Story.substr_n at 1.
    destruct (_ <? _) eqn:Hlt; [apply Z.ltb_lt in Hlt; lia|]. by eexists.
Qed.

(** X18. On a text of fewer than 8 characters [operator>>] throws
    [std::out_of_range]: the key is not found, [npos + 9] wraps around to
    8, and [substr] is called with a position past the end. An empty
    value part is such a text. *)
Theorem StoryNode_short_text_throws (text : string) :
  (String.length text < 8)%nat ->
  Story.extract text = Story.OutOfRange.
Proof.
  intros Hlen. unfold Story.extract.
  set (buffer := Story.pop_back_space (Story.first_line text)).
  assert (String.length buffer < 8)%nat as Hb.
  { unfold buffer. pose proof (pop_back_space_shorter (Story.first_line text)).
    pose proof (first_line_shorter text). lia. }
  unfold Story.parse_buffer. cbv zeta.
  rewrite (find_from_none Story.action_key) by (simpl; lia).
  change (Story.size_t (Story.npos + 9)) with 8.
  unfold Story.substr_n at 1.
  destruct (_ <? _) eqn:Hlt; [done|].
  apply Z.ltb_ge in Hlt. unfold Story.size in Hlt. lia.
Qed.

(** * The further properties on [Tree<std::string>] and on story nodes *)

Lemma delinearize_on_any_sequence_witness :
  @T_compatible_check string std_string = true ∧
  exists t',
    @delinearize string std_string bump [Some "A"; Some "B"; None; None] = Ok t' ∧
    value <$> nodes t' = ["A"; "B"] ∧
    ID <$> nodes t' = [0; 1].
Proof.
  split; [reflexivity|].
  pose proof (@delinearize_on_any_sequence string std_string bump bump_fresh
                [Some "A"; Some "B"; None; None] eq_refl) as Hd.
  cbn [overruns pred] in Hd.
  destruct Hd as (t' & Hd & Hv & Hid & _). by exists t'.
Defined.

Lemma deserialize_stops_at_malformed_line_witness :
  balanced 0 [Some "A"] ∧ malformed "oops" ∧ single_line "oops" ∧
  @deserialize string std_string bump
    (unlines (document_lines 0 [Some "A"]) +:+ "oops" +:+ endl +:+ "[X]" +:+ endl)
  = (Some MalformedLine, @delinearize string std_string bump [Some "A"]).
Proof.
  assert (malformed "oops") as Hbad by (split; [reflexivity|by left]).
  assert (single_line "oops") as Hline by no_newline.
  split_and!; [done|done|done|].
  apply (@deserialize_stops_at_malformed_line string std_string bump
           [Some "A"] "oops" ("[X]" +:+ endl)); try done.
  intros v Hin. apply list_elem_of_singleton in Hin. injection Hin as ->.
  split; [no_newline|reflexivity].
Defined.

Lemma deserialize_two_documents_undefined_witness :
  @T_compatible_check string std_string = true ∧
  exists text1 text2,
    serialize (run_ops bump [SetRoot "A"] (mkTree None ∅ 0)) = Some text1 ∧
    serialize (run_ops bump [SetRoot "B"] (mkTree None ∅ 0)) = Some text2 ∧
    @deserialize string std_string bump (text1 +:+ text2) = (None, Undefined).
Proof.
  split; [reflexivity|].
  apply (@deserialize_two_documents_undefined string std_string bump bump_fresh
           (run_ops bump [SetRoot "A"] (mkTree None ∅ 0))
           (run_ops bump [SetRoot "B"] (mkTree None ∅ 0)) eq_refl).
  - by eexists.
  - by eexists.
  - intros v Hin. apply list_elem_of_singleton in Hin as ->.
    split; [no_newline|reflexivity].
  - intros v Hin. apply list_elem_of_singleton in Hin as ->.
    split; [no_newline|reflexivity].
Defined.

Lemma deserialize_extra_token_keeps_tree_witness :
  @T_compatible_check string std_string = true ∧
  exists text t',
    serialize (run_ops bump [SetRoot "A"] (mkTree None ∅ 0)) = Some text ∧
    @deserialize string std_string bump (text +:+ "[X]" +:+ endl +:+ "junk")
      = (Some UnbalancedMarkers, Ok t') ∧
    value <$> nodes t' = ["A"].
Proof.
  split; [reflexivity|].
  destruct (@deserialize_extra_token_keeps_tree string std_string bump bump_fresh
              (run_ops bump [SetRoot "A"] (mkTree None ∅ 0)) "junk" eq_refl)
    as (text & t' & Hser & Hdes & Hval & _).
  - intros v Hin. apply list_elem_of_singleton in Hin as ->.
    split; [no_newline|reflexivity].
  - by exists text, t'.
Defined.

Lemma serialize_after_deserialize_same_text_witness :
  @T_compatible_check string std_string = true ∧
  exists text t',
    serialize (run_ops bump [SetRoot "A"; AppendNode 0 "B"] (mkTree None ∅ 0))
      = Some text ∧
    @deserialize string std_string bump text = (None, Ok t') ∧
    serialize t' = Some text.
Proof.
  split; [reflexivity|].
  apply (@serialize_after_deserialize_same_text string std_string bump bump_fresh
           (run_ops bump [SetRoot "A"; AppendNode 0 "B"] (mkTree None ∅ 0))
           eq_refl).
  intros v Hin. vm_compute in Hin.
  repeat (apply elem_of_cons in Hin as [->|Hin];
          [split; [no_newline|reflexivity]|]).
  by apply elem_of_nil in Hin.
Defined.


Lemma ids_are_never_reused_witness :
  @Tree_new string std_string = Ok (mkTree None ∅ 0) ∧
  nextID (run_ops bump [RemoveNode 1; AppendNode 0 "C"]
            (run_ops bump [SetRoot "A"; AppendNode 0 "B"] (mkTree None ∅ 0)))
    ≤ INT_MAX ∧
  nextID (run_ops bump [SetRoot "A"; AppendNode 0 "B"] (mkTree None ∅ 0)) ≤
  nextID (run_ops bump [RemoveNode 1; AppendNode 0 "C"]
            (run_ops bump [SetRoot "A"; AppendNode 0 "B"] (mkTree None ∅ 0))) ∧
  getValue 1 (run_ops bump [RemoveNode 1; AppendNode 0 "C"; RemoveNode 2]
                (run_ops bump [SetRoot "A"; AppendNode 0 "B"; RemoveNode 1]
                   (mkTree None ∅ 0)))
    = @Throw string (NodeNotFound 1).
Proof.
  assert (nextID (run_ops bump [RemoveNode 1; AppendNode 0 "C"]
                    (run_ops bump [SetRoot "A"; AppendNode 0 "B"]
                       (mkTree None ∅ 0))) ≤ INT_MAX) as Hint
    by (by vm_compute).
  split_and!; [reflexivity|done| |].
  - exact (proj1 (@ids_are_never_reused string std_string bump bump_fresh
                    [SetRoot "A"; AppendNode 0 "B"]
                    [RemoveNode 1; AppendNode 0 "C"]
                    (mkTree None ∅ 0) 1 "B" eq_refl Hint)).
  - apply (@ids_are_never_reused string std_string bump bump_fresh
             [SetRoot "A"; AppendNode 0 "B"; RemoveNode 1]
             [RemoveNode 1; AppendNode 0 "C"; RemoveNode 2]
             (mkTree None ∅ 0) 1 "B" eq_refl); by vm_compute.
Defined.

Lemma setRoot_once_with_id_zero_witness :
  @Tree_new string std_string = Ok (mkTree None ∅ 0) ∧
  (@getRootID string (run_ops bump [RemoveNode 0] (mkTree None ∅ 0)) = -1 ∨
   @getRootID string (run_ops bump [RemoveNode 0] (mkTree None ∅ 0)) = 0).
Proof.
  split; [reflexivity|].
  exact (proj1 (@setRoot_once_with_id_zero string std_string bump bump_fresh
                  [RemoveNode 0] (mkTree None ∅ 0) "A" eq_refl)).
Defined.




Lemma loadStoryline_after_saveStoryline_witness :
  @T_compatible_check string std_string = true ∧
  exists text t',
    saveStoryline (run_ops bump [SetRoot "A"; AppendNode 0 "B"] (mkTree None ∅ 0))
                  true = ([], Some text) ∧
    @loadStoryline string std_string bump (Some text) = ([], Ok t') ∧
    value <$> nodes t' = ["A"; "B"].
Proof.
  split; [reflexivity|].
  destruct (@loadStoryline_after_saveStoryline string std_string bump bump_fresh
              (run_ops bump [SetRoot "A"; AppendNode 0 "B"] (mkTree None ∅ 0))
              eq_refl)
    as (text & t' & Hsave & Hload & Hval & _).
  - intros v Hin. vm_compute in Hin.
    repeat (apply elem_of_cons in Hin as [->|Hin];
            [split; [no_newline|reflexivity]|]).
    by apply elem_of_nil in Hin.
  - by exists text, t'.
Defined.


Lemma StoryNode_written_then_read_witness :
  Story.size (Story.insert Story.StoryNode_default +:+ " ") < 2 ^ 64 ∧
  Story.extract (Story.insert Story.StoryNode_default +:+ " ")
  = Story.Extracted Story.StoryNode_default ∧
  Story.equal Story.StoryNode_default Story.StoryNode_default = true.
Proof.
  assert (Story.size (Story.insert Story.StoryNode_default +:+ " ") < 2 ^ 64)
    as Hsize by (by vm_compute).
  split_and!; [done| |reflexivity].
  apply (StoryNode_written_then_read Story.StoryNode_default " "); try done.
  - simpl. intros Hin.
    repeat (apply elem_of_cons in Hin as [Hin|Hin]; [by vm_compute in Hin|]).
    by apply elem_of_nil in Hin.
  - no_newline.
  - simpl. intros Hin.
    repeat (apply elem_of_cons in Hin as [Hin|Hin]; [by vm_compute in Hin|]).
    by apply elem_of_nil in Hin.
  - no_newline.
Defined.

Lemma StoryNode_action_is_cut_at_a_quote_witness :
  exists o',
    Story.extract
      (Story.insert
         (Story.mkStoryNode ("say " +:+ Story.quote_str +:+ "hi") "ok"))
    = Story.Extracted (Story.mkStoryNode "say " o').
Proof.
  apply (StoryNode_action_is_cut_at_a_quote "say " "hi" "ok").
  - simpl. intros Hin.
    repeat (apply elem_of_cons in Hin as [Hin|Hin]; [by vm_compute in Hin|]).
    by apply elem_of_nil in Hin.
  - no_newline.
  - by vm_compute.
Defined.

Lemma StoryNode_short_text_throws_witness :
  Story.extract "[X]" = Story.OutOfRange.
Proof. apply (StoryNode_short_text_throws "[X]"). simpl. lia. Defined.

(** * [Tree<std::string>]: which trees come back from their text *)

Lemma substr_single_line (n : nat) (s : string) :
  single_line s -> single_line (substr n s).
Proof.
  revert s. induction n as [|n IH]; intros s Hs; [by destruct s|].
  destruct s as [|c s]; [done|]. simpl. apply IH.
  intros Hin. apply Hs. simpl. apply elem_of_cons. by right.
Qed.

(** Every value that [deserialize] reads for [Tree<std::string>] is the
    rest of a line. *)
Lemma string_values_single_line (lines : list string) : forall st,
  Forall single_line lines ->
  (forall v, Some v ∈ linearized_of st -> single_line v) ->
  forall v,
    Some v ∈ linearized_of (@deserialize_lines string std_string lines st).1 ->
    single_line v.
Proof.
  induction lines as [|line lines IH]; intros st Hlines Hst.
  - simpl. by destruct (decide _).
  - apply Forall_cons in Hlines as [Hline Hlines]. cbn [deserialize_lines].
    assert (forall v,
              Some v ∈ linearized_of
                         (@deserialize_line string std_string st line).1 ->
              single_line v) as Hstep.
    { unfold deserialize_line. destruct (String.eqb line "[X]").
      - cbv zeta. destruct (decide _); cbn [fst linearized_of];
          intros v [Hv|Hv]%elem_of_app;
          try (by apply Hst); by apply list_elem_of_singleton in Hv.
      - destruct (find "[" line) as [[|n]|]; try done.
        destruct (find "]: " line) as [pos|]; try done.
        cbn [parse_value T_whole_line std_string fst linearized_of].
        intros v [Hv|Hv]%elem_of_app; [by apply Hst|].
        apply list_elem_of_singleton in Hv. injection Hv as ->.
        by apply substr_single_line. }
    destruct (@deserialize_line string std_string st line) as [st' [e|]].
    + exact Hstep.
    + by apply IH.
Qed.

(** X22. For [Tree<std::string>], the trees that come back from their
    own text are exactly those without a newline in any value: [serialize]
    followed by [deserialize] returns a tree with the same values in
    pre-order if and only if no value holds a newline. Empty strings and
    strings with blanks come back as they are. *)
Theorem string_tree_round_trip_iff (alloc : list ptr -> ptr) (t : @Tree string) :
  (forall live, alloc live ∉ live) ->
  (exists text t',
     serialize t = Some text ∧
     (@deserialize string std_string alloc text).2 = Ok t' ∧
     value <$> nodes t' = value <$> nodes t)
  <-> forall v, v ∈ value <$> nodes t -> single_line v.
Proof.
  intros Hfresh. split.
  - intros (text & t' & Hser & Hdes & Hval) v Hv. rewrite <- Hval in Hv.
    unfold deserialize in Hdes. cbn [snd] in Hdes.
    set (l := linearized_of _) in Hdes.
    assert (forall w, Some w ∈ l -> single_line w) as Hl.
    { apply string_values_single_line.
      - apply getlines_single_line. by intros ?%elem_of_nil.
      - by intros w ?%elem_of_nil. }
    change (@delinearize string std_string alloc l)
      with (@delinearize_loop string alloc l (mkTree None ∅ 0) []) in Hdes.
    pose proof (@delinearize_loop_start string alloc Hfresh l) as Hstart.
    destruct (overruns false 0 l); [by rewrite Hstart in Hdes|].
    destruct Hstart as (t'' & Hloop & _ & Hvals & _).
    rewrite Hloop in Hdes. injection Hdes as ->.
    rewrite Hvals in Hv. apply list_elem_of_omap in Hv as ([w|] & Hin & Hw);
      [|done].
    injection Hw as ->. by apply Hl.
  - intros Hline.
    assert (forall v, v ∈ value <$> nodes t ->
                      @faithful string std_string v) as Hv
      by (intros v Hin; split; [by apply Hline|reflexivity]).
    destruct (@deserialize_serialize string std_string alloc t Hv)
      as (text & Hser & Hdes).
    exists text. rewrite Hdes. cbn [snd]. unfold tree_flatten, nodes.
    destruct (root t) as [r|].
    + destruct (@delinearize_flatten string std_string alloc Hfresh r eq_refl)
        as (t' & r' & Hd & _ & Hr' & Hsh & _).
      exists t'. rewrite Hd, Hr'. split_and!; try done.
      apply (f_equal (fmap fst)) in Hsh.
      by rewrite <- !list_fmap_compose in Hsh.
    + by exists (mkTree None ∅ 0).
Qed.

Lemma string_tree_round_trip_iff_witness :
  (forall live : list ptr, bump live ∉ live) ∧
  exists text t',
    serialize (run_ops bump [SetRoot "a b"; AppendNode 0 EmptyString]
                 (mkTree None ∅ 0)) = Some text ∧
    (@deserialize string std_string bump text).2 = Ok t' ∧
    value <$> nodes t' = ["a b"; EmptyString].
Proof.
  split; [apply bump_fresh|].
  destruct (proj2 (string_tree_round_trip_iff bump
                     (run_ops bump [SetRoot "a b"; AppendNode 0 EmptyString]
                        (mkTree None ∅ 0)) bump_fresh))
    as (text & t' & Hser & Hdes & Hval).
  - intros v Hin. vm_compute in Hin.
    repeat (apply elem_of_cons in Hin as [->|Hin]; [no_newline|]).
    by apply elem_of_nil in Hin.
  - exists text, t'. split_and!; [done|done|]. rewrite Hval. by vm_compute.
Defined.

Lemma children_ids_increase_witness :
  @Tree_new string std_string = Ok (mkTree None ∅ 0) ∧
  nextID (run_ops bump
            [SetRoot "A"; AppendNode 0 "B"; AppendNode 0 "C";
             AppendNode 0 "D"; RemoveNode 2]
            (mkTree None ∅ 0)) ≤ INT_MAX ∧
  getChildrenIDs 0 (run_ops bump
                      [SetRoot "A"; AppendNode 0 "B"; AppendNode 0 "C";
                       AppendNode 0 "D"; RemoveNode 2]
                      (mkTree None ∅ 0)) = Ok [1; 3] ∧
  increasing 0 [1; 3].
Proof.
  assert (nextID (run_ops bump
                    [SetRoot "A"; AppendNode 0 "B"; AppendNode 0 "C";
                     AppendNode 0 "D"; RemoveNode 2]
                    (mkTree None ∅ 0)) ≤ INT_MAX) as Hint by (by vm_compute).
  assert (getChildrenIDs 0
            (run_ops bump [SetRoot "A"; AppendNode 0 "B"; AppendNode 0 "C";
                           AppendNode 0 "D"; RemoveNode 2]
               (mkTree None ∅ 0)) = Ok [1; 3]) as Hget by (by vm_compute).
  split_and!; [reflexivity|done|done|].
  exact (proj1 (@children_ids_increase string std_string bump bump_fresh
                  [SetRoot "A"; AppendNode 0 "B"; AppendNode 0 "C";
                   AppendNode 0 "D"; RemoveNode 2]
                  (mkTree None ∅ 0) 0 [1; 3] eq_refl Hint Hget)).
Defined.

Lemma deserialize_ignores_the_numbers_witness :
  exists text,
    serialize (run_ops bump [SetRoot "A"; AppendNode 0 "B"] (mkTree None ∅ 0))
      = Some text ∧
    @deserialize string std_string bump text
      = (None, delinearize bump
                 (tree_flatten (run_ops bump [SetRoot "A"; AppendNode 0 "B"]
                                  (mkTree None ∅ 0)))) ∧
    @deserialize string std_string bump
      (unlines (labelled_lines ["root"; "7"]
                  (tree_flatten (run_ops bump [SetRoot "A"; AppendNode 0 "B"]
                                   (mkTree None ∅ 0)))))
      = @deserialize string std_string bump text.
Proof.
  apply (@deserialize_ignores_the_numbers string std_string bump
           (run_ops bump [SetRoot "A"; AppendNode 0 "B"] (mkTree None ∅ 0))
           ["root"; "7"]).
  - repeat constructor; simpl; intros Hin;
      repeat (apply elem_of_cons in Hin as [Hin|Hin]; [by vm_compute in Hin|]);
      by apply elem_of_nil in Hin.
  - repeat constructor; no_newline.
  - intros v Hin. vm_compute in Hin.
    repeat (apply elem_of_cons in Hin as [->|Hin];
            [split; [no_newline|reflexivity]|]).
    by apply elem_of_nil in Hin.
Defined.

Lemma linearize_tells_trees_apart_witness :
  linearize (run_ops bump [SetRoot "A"; AppendNode 0 "B"] (mkTree None ∅ 0)) =
  linearize (run_ops bump
               [SetRoot "A"; AppendNode 0 "X"; RemoveNode 1; AppendNode 0 "B"]
               (mkTree None ∅ 0)).
Proof.
  apply (proj2 (@linearize_tells_trees_apart string bump bump_fresh
                  (run_ops bump [SetRoot "A"; AppendNode 0 "B"] (mkTree None ∅ 0))
                  (run_ops bump
                     [SetRoot "A"; AppendNode 0 "X"; RemoveNode 1; AppendNode 0 "B"]
                     (mkTree None ∅ 0)))).
  by vm_compute.
Defined.

Lemma deserialize_cut_off_text_witness :
  @T_compatible_check string std_string = true ∧
  exists text t',
    serialize (run_ops bump [SetRoot "A"; AppendNode 0 "B"] (mkTree None ∅ 0))
      = Some text ∧
    @deserialize string std_string bump
      (unlines (take 2 (getlines EmptyString text)))
      = (Some UnbalancedMarkers, Ok t') ∧
    value <$> nodes t' = ["A"; "B"].
Proof.
  split; [reflexivity|].
  destruct (@deserialize_cut_off_text string std_string bump bump_fresh
              (run_ops bump [SetRoot "A"; AppendNode 0 "B"] (mkTree None ∅ 0))
              2%nat eq_refl)
    as (text & t' & Hser & Hdes & Hval & _).
  - intros v Hin. vm_compute in Hin.
    repeat (apply elem_of_cons in Hin as [->|Hin];
            [split; [no_newline|reflexivity]|]).
    by apply elem_of_nil in Hin.
  - vm_compute. lia.
  - exists text, t'. split_and!; [done|done|]. rewrite Hval. by vm_compute.
Defined.

Lemma deserialize_stops_at_unparsable_value_witness :
  @T_whole_line bool two_line_flag = None ∧
  (@T_extract bool two_line_flag "2" T_default).2 = false ∧
  @deserialize bool two_line_flag bump
    (unlines (document_lines 0 [Some false])
     +:+ ("[" +:+ "1" +:+ "]: " +:+ "2") +:+ endl +:+ "[X]" +:+ endl)
  = (Some UnparsablePayload, @delinearize bool two_line_flag bump [Some false]).
Proof.
  split_and!; [reflexivity|reflexivity|].
  apply (@deserialize_stops_at_unparsable_value bool two_line_flag bump
           [Some false] "1" "2" ("[X]" +:+ endl)); try done.
  - simpl. intros Hin.
    repeat (apply elem_of_cons in Hin as [Hin|Hin]; [by vm_compute in Hin|]).
    by apply elem_of_nil in Hin.
  - no_newline.
  - no_newline.
  - intros v Hin. apply list_elem_of_singleton in Hin. injection Hin as ->.
    split; [no_newline|reflexivity].
Defined.


Lemma assignIDs_numbers_in_preorder_witness :
  INT_MIN ≤ 5 ∧
  5 + Z.of_nat (length (preorder (mkNode "A" None
                                    [mkNode "B" (Some 1%nat) [] 0 2%nat;
                                     mkNode "C" (Some 1%nat) [] 0 3%nat]
                                    0 1%nat))) ≤ INT_MAX ∧
  ID <$> preorder (assignIDs (mkNode "A" None
                                [mkNode "B" (Some 1%nat) [] 0 2%nat;
                                 mkNode "C" (Some 1%nat) [] 0 3%nat]
                                0 1%nat) (∅, 5)).1 = [5; 6; 7].
Proof.
  assert (INT_MIN ≤ 5) as Hlo by (by vm_compute).
  assert (5 + Z.of_nat (length (preorder (mkNode "A" None
                                    [mkNode "B" (Some 1%nat) [] 0 2%nat;
                                     mkNode "C" (Some 1%nat) [] 0 3%nat]
                                    0 1%nat))) ≤ INT_MAX) as Hhi
    by (by vm_compute).
  split_and!; [done|done|].
  exact (proj1 (@assignIDs_numbers_in_preorder string
                  (mkNode "A" None
                     [mkNode "B" (Some 1%nat) [] 0 2%nat;
                      mkNode "C" (Some 1%nat) [] 0 3%nat] 0 1%nat)
                  ∅ 5 Hlo Hhi)).
Defined.
